(** * Programming I Library, [base.h]

    A model of the header [lib/base.h]: the contract macros
    ([assert], [require], [ensure] and their [_x] forms,
    [require_not_null]), the quantifier macros ([forall], [exists],
    [countif]), the allocation macros ([xmalloc], [free], [exit]) and the
    functions they forward to.

    The header is macros and prototypes.  Every macro body is embedded from
    its text.  The functions behind the prototypes ([base_malloc],
    [base_free], [base_exit], the container accessors) have their bodies in
    source files that are not at hand; they are modelled from the
    specification and each such definition says so. *)

From Stdlib Require Import ZArith String Ascii DecimalString Lia.
From stdpp Require Import gmap strings list.

Open Scope Z_scope.

(** ** Characters and text *)

(** The line feed written as [\n] in the header's format strings. *)
Definition newline_char : ascii := "010"%char.
Definition newline : string := String newline_char "".

(** The double quote character, escaped in the header's format strings. *)
Definition quote : string := String "034"%char "".

Definition percent : ascii := "%"%char.

(** [occurs_in x s]: the text [x] is a contiguous part of [s]. *)
Definition occurs_in (x s : string) : Prop :=
  ∃ before after, s = before +:+ x +:+ after.

(** Number of line feeds in a text. *)
Fixpoint line_feeds (s : string) : nat :=
  match s with
  | EmptyString => 0%nat
  | String c rest =>
      ((if Ascii.eqb c newline_char then 1 else 0) + line_feeds rest)%nat
  end.

(** A text is one line when its only line feed is its last character. *)
Definition one_line (s : string) : Prop :=
  ∃ body, s = body +:+ newline ∧ line_feeds body = 0%nat.

(** ** The [printf] family, as far as the header uses it

    The header's own format strings use [%s] and [%d] only.  [printf_text]
    gives the characters a call writes; [None] stands for a call the C
    standard gives no meaning to: a conversion that finds no argument of
    its type, or a [%] that starts none of [%s], [%d], [%%]. *)

Inductive printf_arg : Type :=
| ArgString (s : string)
| ArgInt (i : Z).

(** Decimal rendering of an [int], as [%d] prints it. *)
Definition decimal (i : Z) : string := NilZero.string_of_int (Z.to_int i).

Fixpoint printf_text (format : string) (args : list printf_arg) : option string :=
  match format with
  | EmptyString => Some ""
  | String c rest =>
      if Ascii.eqb c percent then
        match rest with
        | EmptyString => None
        | String d rest' =>
            if Ascii.eqb d "s"%char then
              match args with
              | ArgString s :: args' =>
                  match printf_text rest' args' with
                  | Some out => Some (s +:+ out)
                  | None => None
                  end
              | _ => None
              end
            else if Ascii.eqb d "d"%char then
              match args with
              | ArgInt i :: args' =>
                  match printf_text rest' args' with
                  | Some out => Some (decimal i +:+ out)
                  | None => None
                  end
              | _ => None
              end
            else if Ascii.eqb d percent then
              match printf_text rest' args with
              | Some out => Some (String percent out)
              | None => None
              end
            else None
        end
      else
        match printf_text rest args with
        | Some out => Some (String c out)
        | None => None
        end
  end.

(** ** The running process *)

(** [__FILE__], [__func__] and [__LINE__] at the place a macro is used. *)
Record Site : Type := {
  site_file : string;
  site_function : string;
  site_line : Z
}.

(** One entry of the allocation ledger: byte size and call site of a live
    block.  The block's address is the key the entry is stored under. *)
Record LiveBlockRecord : Type := {
  block_size : Z;
  block_site : Site
}.

(** [Any] is [void*]; a pointer is its address and [NULL] is address 0. *)
Definition NULL : Z := 0.

(** [<stdlib.h>]: the two exit statuses, with their usual values. *)
Definition EXIT_SUCCESS : Z := 0.
Definition EXIT_FAILURE : Z := 1.

(** The state of the process that the header's operations read and write.
    [platform] is the platform allocator seen from outside: the answers it
    is going to give to the coming requests, [NULL] (or nothing left) when it
    cannot satisfy one. *)
Record Process : Type := {
  stderr : string;
  ledger : gmap Z LiveBlockRecord;
  do_memory_check : bool;
  exit_status : Z;
  platform : list Z
}.

Definition set_stderr (text : string) (p : Process) : Process :=
  {| stderr := text; ledger := ledger p; do_memory_check := do_memory_check p;
     exit_status := exit_status p; platform := platform p |}.

Definition set_ledger (l : gmap Z LiveBlockRecord) (p : Process) : Process :=
  {| stderr := stderr p; ledger := l; do_memory_check := do_memory_check p;
     exit_status := exit_status p; platform := platform p |}.

Definition set_do_memory_check (b : bool) (p : Process) : Process :=
  {| stderr := stderr p; ledger := ledger p; do_memory_check := b;
     exit_status := exit_status p; platform := platform p |}.

Definition set_exit_status (status : Z) (p : Process) : Process :=
  {| stderr := stderr p; ledger := ledger p; do_memory_check := do_memory_check p;
     exit_status := status; platform := platform p |}.

Definition set_platform (answers : list Z) (p : Process) : Process :=
  {| stderr := stderr p; ledger := ledger p; do_memory_check := do_memory_check p;
     exit_status := exit_status p; platform := answers |}.

(** Appending text to the diagnostic stream. *)
Definition emit (text : string) (p : Process) : Process :=
  set_stderr (stderr p +:+ text) p.

(** What a statement does to the process: it returns, it terminates the
    process with a status, or it has no defined behaviour. *)
Inductive Outcome (A : Type) : Type :=
| Returns (value : A) (after : Process)
| Exits (status : Z) (final : Process)
| Undefined.

Arguments Returns {A} value after.
Arguments Exits {A} status final.
Arguments Undefined {A}.

Definition M (A : Type) : Type := Process → Outcome A.

Definition ret {A} (a : A) : M A := fun p => Returns a p.

Definition bind {A B} (m : M A) (k : A → M B) : M B :=
  fun p =>
    match m p with
    | Returns a p' => k a p'
    | Exits status p' => Exits status p'
    | Undefined => Undefined
    end.

Notation "x <- m ;; k" := (bind m (fun x => k))
  (at level 100, m at next level, right associativity).
Notation "m ;;; k" := (bind m (fun _ => k))
  (at level 100, k at level 200, right associativity).

(** [fprintf(stderr, format, args...)]. *)
Definition fprintf_stderr (format : string) (args : list printf_arg) : M unit :=
  fun p =>
    match printf_text format args with
    | Some text => Returns tt (emit text p)
    | None => Undefined
    end.

(** [fprintf(stderr, __VA_ARGS__)] of the [_x] macros: the format and its
    arguments are the client's, and [detail] is the text they print. *)
Definition fprintf_stderr_va (detail : string) : M unit :=
  fun p => Returns tt (emit detail p).

(** ** Build configuration

    [NO_ASSERT], [NO_REQUIRE], [NO_ENSURE] and [NO_TIMING]: when one is
    defined, the header defines the macros of that kind with an empty
    body. *)
Record Config : Type := {
  NO_ASSERT : bool;
  NO_REQUIRE : bool;
  NO_ENSURE : bool;
  NO_TIMING : bool
}.

(** Nothing defined: every check is compiled in. *)
Definition checked : Config :=
  {| NO_ASSERT := false; NO_REQUIRE := false; NO_ENSURE := false;
     NO_TIMING := false |}.

(** Modelled from the spec: the functions that write these two diagnostics
    are missing, and sections 4.1 and 7 say what they report (call site and
    size of a leaked block; an allocation failure) without fixing the
    words.  The wording is a parameter of the model. *)
Class Wording : Type := {
  leak_line : Z → LiveBlockRecord → string;
  allocation_failure_line : Site → Z → string
}.

(** A wording to run the model with. *)
Definition plain_wording : Wording :=
  {| leak_line := fun block r =>
       site_file (block_site r) +:+ ", line " +:+ decimal (site_line (block_site r))
       +:+ ": " +:+ decimal (block_size r) +:+ " bytes allocated in "
       +:+ site_function (block_site r) +:+ " not freed" +:+ newline;
     allocation_failure_line := fun site size =>
       site_file site +:+ ", line " +:+ decimal (site_line site)
       +:+ ": allocation of " +:+ decimal size +:+ " bytes failed" +:+ newline |}.

Section Library.

Context {wording : Wording}.

(** ** Process exit and tracked allocation *)

(** Modelled from the spec: the body of [report_memory_leaks] (prototype at
    line 158) is missing.  It switches the process-wide leak check. *)
Definition report_memory_leaks (do_check : bool) : M unit :=
  fun p => Returns tt (set_do_memory_check do_check p).

(** Modelled from the spec: section 4.1, report_leaks: every record still
    in the ledger is reported, one line each. *)
Definition leak_report (l : gmap Z LiveBlockRecord) : string :=
  foldr (fun entry rest => leak_line entry.1 entry.2 +:+ rest) "" (map_to_list l).

(** Modelled from the spec: the body of [base_exit] (prototype at line 617)
    is missing.  Section 4.4: with the leak check enabled the blocks still
    registered are reported, the requested status is recorded, the ledger is
    torn down, and the process terminates with that status; the call does
    not return. *)
Definition base_exit (status : Z) : M unit :=
  fun p =>
    let reported :=
      if do_memory_check p then emit (leak_report (ledger p)) p else p in
    Exits status (set_ledger ∅ (set_exit_status status reported)).

(** [#define exit base_exit] (line 623). *)
Definition exit : Z → M unit := base_exit.

(** The platform's [malloc], [calloc] and [realloc]: the next answer of the
    platform allocator. *)
Definition platform_allocate : M Z :=
  fun p =>
    match platform p with
    | [] => Returns NULL p
    | answer :: later => Returns answer (set_platform later p)
    end.

(** Modelled from the spec: section 3, the ledger maps a block's address to
    its record; a record is created when the block is allocated and
    destroyed when it is released. *)
Definition register (block size : Z) (site : Site) : M unit :=
  fun p =>
    Returns tt (set_ledger (<[block := {| block_size := size; block_site := site |}]> (ledger p)) p).

Definition deregister (block : Z) : M unit :=
  fun p => Returns tt (set_ledger (delete block (ledger p)) p).

(** Modelled from the spec: section 4.1, the failure of an allocating
    function: a diagnostic on the error stream and a non-zero exit. *)
Definition allocation_failure (site : Site) (size : Z) : M Z :=
  fprintf_stderr_va (allocation_failure_line site size) ;;;
  base_exit EXIT_FAILURE ;;;
  ret NULL.

(** Modelled from the spec: the body of [base_malloc] (prototype at line 543)
    is missing.  Section 4.1, allocate: the process fails when the platform
    allocator cannot satisfy the request; on success a record keyed by the
    returned address is inserted. *)
Definition base_malloc (file function : string) (line : Z) (size : Z) : M Z :=
  let site := {| site_file := file; site_function := function; site_line := line |} in
  block <- platform_allocate ;;
  if block =? NULL then allocation_failure site size
  else (register block size site ;;; ret block).

(** [#define xmalloc(size) base_malloc(__FILE__, __func__, __LINE__, size)]
    (line 551). *)
Definition xmalloc (site : Site) (size : Z) : M Z :=
  base_malloc (site_file site) (site_function site) (site_line site) size.

(** Modelled from the spec: the body of [base_calloc] (prototype at line 588)
    is missing.  Section 4.1, allocate_zeroed. *)
Definition base_calloc (file function : string) (line : Z) (num size : Z) : M Z :=
  let site := {| site_file := file; site_function := function; site_line := line |} in
  block <- platform_allocate ;;
  if block =? NULL then allocation_failure site (num * size)
  else (register block (num * size) site ;;; ret block).

(** [#define xcalloc(num, size) base_calloc(__FILE__, __func__, __LINE__, num, size)]
    (line 597). *)
Definition xcalloc (site : Site) (num size : Z) : M Z :=
  base_calloc (site_file site) (site_function site) (site_line site) num size.

(** Modelled from the spec: the body of [base_realloc] (prototype at line 564)
    is missing.  Section 4.1, reallocate: on success the entry of the old
    address is removed and one for the new address is inserted; on failure
    the process fails and the old block is still registered. *)
Definition base_realloc (file function : string) (line : Z) (ptr : Z) (size : Z) : M Z :=
  let site := {| site_file := file; site_function := function; site_line := line |} in
  block <- platform_allocate ;;
  if block =? NULL then allocation_failure site size
  else (deregister ptr ;;; register block size site ;;; ret block).

(** [#define xrealloc(ptr, size) base_realloc(__FILE__, __func__, __LINE__, ptr, size)]
    (line 573). *)
Definition xrealloc (site : Site) (ptr size : Z) : M Z :=
  base_realloc (site_file site) (site_function site) (site_line site) ptr size.

(** The three allocating functions above in one shape, by the answer of
    the platform allocator; [stale] is the pointer that [base_realloc]
    deregisters. *)
Definition allocation (site : Site) (size : Z) (stale : option Z) (p : Process)
    : Outcome Z :=
  match platform p with
  | [] => allocation_failure site size p
  | answer :: later =>
      if answer =? NULL then allocation_failure site size (set_platform later p)
      else
        Returns answer
          (set_ledger
             (<[answer := {| block_size := size; block_site := site |}]>
                (match stale with
                 | Some ptr => delete ptr (ledger p)
                 | None => ledger p
                 end))
             (set_platform later p))
  end.

(** Modelled from the spec: the body of [base_free] (prototype at line 604)
    is missing.  Section 4.1, release: the record of the pointer is
    deregistered and the block goes back to the platform; a null pointer is
    a no-op. *)
Definition base_free (p : Z) : M unit :=
  if p =? NULL then ret tt else deregister p.

(** [#define free base_free] (line 610). *)
Definition free : Z → M unit := base_free.

(** ** Contract macros (lines 183-420)

    A macro's [condition] parameter appears twice in its body: as the
    tested expression and, stringified by [#], as text.  In the model the
    value and the text are two arguments.  [site] stands for [__FILE__],
    [__func__] and [__LINE__] where the macro is used. *)

Definition assert_format : string :=
  "%s, line %d: assertion " +:+ quote +:+ "%s" +:+ quote +:+ " (%s) violated" +:+ newline.

Definition assert_x_format : string :=
  "%s, line %d: assertion " +:+ quote +:+ "%s" +:+ quote +:+ " violated: ".

Definition require_format : string :=
  "%s, line %d: %s's precondition " +:+ quote +:+ "%s" +:+ quote +:+ " (%s) violated" +:+ newline.

Definition require_x_format : string :=
  "%s, line %d: %s's precondition " +:+ quote +:+ "%s" +:+ quote +:+ " violated: ".

Definition require_not_null_format_before : string :=
  "%s, line %d: %s's precondition " +:+ quote +:+ "not null" +:+ quote +:+ " (".

Definition require_not_null_format_after : string :=
  ") violated" +:+ newline.

Definition ensure_format : string :=
  "%s, line %d: %s's postcondition " +:+ quote +:+ "%s" +:+ quote +:+ " (%s) violated" +:+ newline.

Definition ensure_x_format : string :=
  "%s, line %d: %s's postcondition " +:+ quote +:+ "%s" +:+ quote +:+ " violated: ".

(** Lines 204-208. *)
Definition assert (cfg : Config) (site : Site)
    (description : string) (condition : bool) (condition_text : string) : M unit :=
  if NO_ASSERT cfg then ret tt
  else if negb condition then
    fprintf_stderr assert_format
      [ArgString (site_file site); ArgInt (site_line site);
       ArgString description; ArgString condition_text] ;;;
    exit EXIT_FAILURE
  else ret tt.

(** Lines 232-238. *)
Definition assert_x (cfg : Config) (site : Site)
    (description : string) (condition : bool) (detail : string) : M unit :=
  if NO_ASSERT cfg then ret tt
  else if negb condition then
    fprintf_stderr assert_x_format
      [ArgString (site_file site); ArgInt (site_line site); ArgString description] ;;;
    fprintf_stderr_va detail ;;;
    fprintf_stderr newline [] ;;;
    exit EXIT_FAILURE
  else ret tt.

(** Lines 265-269. *)
Definition require (cfg : Config) (site : Site)
    (description : string) (condition : bool) (condition_text : string) : M unit :=
  if NO_REQUIRE cfg then ret tt
  else if negb condition then
    fprintf_stderr require_format
      [ArgString (site_file site); ArgInt (site_line site);
       ArgString (site_function site); ArgString description;
       ArgString condition_text] ;;;
    exit EXIT_FAILURE
  else ret tt.

(** Lines 294-300. *)
Definition require_x (cfg : Config) (site : Site)
    (description : string) (condition : bool) (detail : string) : M unit :=
  if NO_REQUIRE cfg then ret tt
  else if negb condition then
    fprintf_stderr require_x_format
      [ArgString (site_file site); ArgInt (site_line site);
       ArgString (site_function site); ArgString description] ;;;
    fprintf_stderr_va detail ;;;
    fprintf_stderr newline [] ;;;
    exit EXIT_FAILURE
  else ret tt.

(** Lines 348-352.  The macro's test is [argument == NULL] with the
    argument's text put in as the client wrote it, without parentheses
    around it: [test] is the value of that test as the compiler reads it.
    For an argument that binds tighter than [==] (a name, a call, an
    indexed element) it says whether the argument is [NULL]; for the
    argument [flag ? p : q] it is the value of [flag ? p : (q == NULL)].
    The stringified argument is pasted between two string literals and so
    becomes part of the format string itself. *)
Definition require_not_null (cfg : Config) (site : Site)
    (test : bool) (argument_text : string) : M unit :=
  if NO_REQUIRE cfg then ret tt
  else if test then
    fprintf_stderr
      (require_not_null_format_before +:+ argument_text +:+ require_not_null_format_after)
      [ArgString (site_file site); ArgInt (site_line site);
       ArgString (site_function site)] ;;;
    exit EXIT_FAILURE
  else ret tt.

(** Lines 381-385. *)
Definition ensure (cfg : Config) (site : Site)
    (description : string) (condition : bool) (condition_text : string) : M unit :=
  if NO_ENSURE cfg then ret tt
  else if negb condition then
    fprintf_stderr ensure_format
      [ArgString (site_file site); ArgInt (site_line site);
       ArgString (site_function site); ArgString description;
       ArgString condition_text] ;;;
    exit EXIT_FAILURE
  else ret tt.

(** Lines 413-419. *)
Definition ensure_x (cfg : Config) (site : Site)
    (description : string) (condition : bool) (detail : string) : M unit :=
  if NO_ENSURE cfg then ret tt
  else if negb condition then
    fprintf_stderr ensure_x_format
      [ArgString (site_file site); ArgInt (site_line site);
       ArgString (site_function site); ArgString description] ;;;
    fprintf_stderr_va detail ;;;
    fprintf_stderr newline [] ;;;
    exit EXIT_FAILURE
  else ret tt.

End Library.

(** ** Quantifier macros (lines 455-497)

    Each of the three macros is a statement expression that declares a
    variable of its own, [result], and puts the client's four expressions
    inside the block of that variable.  The expressions can therefore read
    and assign the macro's [result], and [init] can declare a [result] of
    its own, which hides the macro's inside the loop.  The state that the
    expressions work on holds the variables named [result] that are in
    scope, beside everything else that the client's code reads and
    writes. *)

(** The range of [int]. *)
Definition INT_MAX : Z := 2147483647.
Definition INT_MIN : Z := -2147483648.

(** An [int] result after an arithmetic step: values outside the range wrap
    around. *)
Definition wrap_int (z : Z) : Z := (z - INT_MIN) mod 2 ^ 32 + INT_MIN.

(** [results]: one entry for each open scope, innermost first, [Some v]
    when the scope declares a variable named [result] whose value is [v]
    (1 and 0 for the [bool] values true and false), [None] when it declares
    none.  [others]: the rest of the program's state, of a type [S] that
    the client's code fixes. *)
Record Scoped (S : Type) : Type := {
  results : list (option Z);
  others : S
}.

Arguments results {S} _.
Arguments others {S} _.

(** An opening and a closing brace, and the [for] statement's own scope. *)
Definition enter_scope {S : Type} (st : Scoped S) : Scoped S :=
  {| results := None :: results st; others := others st |}.

Definition leave_scope {S : Type} (st : Scoped S) : Scoped S :=
  {| results := tail (results st); others := others st |}.

(** A declaration of [result] in the innermost scope. *)
Definition declare_result {S : Type} (v : Z) (st : Scoped S) : Scoped S :=
  {| results := Some v :: tail (results st); others := others st |}.

(** The variable that the name [result] stands for: the one of the
    innermost scope that declares one. *)
Fixpoint innermost (rs : list (option Z)) : option Z :=
  match rs with
  | [] => None
  | Some v :: _ => Some v
  | None :: outer => innermost outer
  end.

Fixpoint assign_innermost (v : Z) (rs : list (option Z)) : list (option Z) :=
  match rs with
  | [] => []
  | Some _ :: outer => Some v :: outer
  | None :: outer => None :: assign_innermost v outer
  end.

(** Reading [result]; 0 stands in where no scope declares one, which a
    macro's own declaration rules out. *)
Definition result_value {S : Type} (st : Scoped S) : Z :=
  default 0 (innermost (results st)).

(** [result = v]. *)
Definition assign_result {S : Type} (v : Z) (st : Scoped S) : Scoped S :=
  {| results := assign_innermost v (results st); others := others st |}.

(** The four arguments of a macro: [init] and [do_step] change the state,
    [has_more_steps] and [condition] test it.  [fuel] bounds the number of
    times the loop test is evaluated; [None] means that the loop is still
    running when the fuel is used up. *)

(** [for (...; has_more_steps; do_step) { if (!(condition)) { result = false; break; } }],
    from the state after [init]. *)
Fixpoint forall_loop {S : Type} (fuel : nat)
    (has_more_steps : Scoped S → bool) (do_step : Scoped S → Scoped S)
    (condition : Scoped S → bool) (st : Scoped S) : option (Scoped S) :=
  match fuel with
  | O => None
  | Datatypes.S fuel' =>
      if has_more_steps st then
        if negb (condition st) then Some (assign_result 0 st)
        else forall_loop fuel' has_more_steps do_step condition (do_step st)
      else Some st
  end.

(** Lines 455-459: the block with [bool result = true;], the [for]
    statement with [init] in its own scope, and [result;], the value of
    the statement expression, read in the block. *)
Definition forall_ {S : Type} (fuel : nat) (init : Scoped S → Scoped S)
    (has_more_steps : Scoped S → bool) (do_step : Scoped S → Scoped S)
    (condition : Scoped S → bool) (st : Scoped S) : option bool :=
  let block := declare_result 1 (enter_scope st) in
  match forall_loop fuel has_more_steps do_step condition (init (enter_scope block)) with
  | Some after => Some (negb (result_value (leave_scope after) =? 0))
  | None => None
  end.

(** [for (...; has_more_steps; do_step) { if (condition) { result = true; break; } }],
    from the state after [init]. *)
Fixpoint exists_loop {S : Type} (fuel : nat)
    (has_more_steps : Scoped S → bool) (do_step : Scoped S → Scoped S)
    (condition : Scoped S → bool) (st : Scoped S) : option (Scoped S) :=
  match fuel with
  | O => None
  | Datatypes.S fuel' =>
      if has_more_steps st then
        if condition st then Some (assign_result 1 st)
        else exists_loop fuel' has_more_steps do_step condition (do_step st)
      else Some st
  end.

(** Lines 474-478: the block with [bool result = false;], the [for]
    statement, and [result;]. *)
Definition exists_ {S : Type} (fuel : nat) (init : Scoped S → Scoped S)
    (has_more_steps : Scoped S → bool) (do_step : Scoped S → Scoped S)
    (condition : Scoped S → bool) (st : Scoped S) : option bool :=
  let block := declare_result 0 (enter_scope st) in
  match exists_loop fuel has_more_steps do_step condition (init (enter_scope block)) with
  | Some after => Some (negb (result_value (leave_scope after) =? 0))
  | None => None
  end.

(** [for (...; has_more_steps; do_step) { if (condition) { result++; } }],
    from the state after [init]; [result] is an [int]. *)
Fixpoint countif_loop {S : Type} (fuel : nat)
    (has_more_steps : Scoped S → bool) (do_step : Scoped S → Scoped S)
    (condition : Scoped S → bool) (st : Scoped S) : option (Scoped S) :=
  match fuel with
  | O => None
  | Datatypes.S fuel' =>
      if has_more_steps st then
        countif_loop fuel' has_more_steps do_step condition
          (do_step (if condition st
                    then assign_result (wrap_int (result_value st + 1)) st
                    else st))
      else Some st
  end.

(** Lines 493-497: the block with [int result = 0;], the [for] statement,
    and [result;]. *)
Definition countif {S : Type} (fuel : nat) (init : Scoped S → Scoped S)
    (has_more_steps : Scoped S → bool) (do_step : Scoped S → Scoped S)
    (condition : Scoped S → bool) (st : Scoped S) : option Z :=
  let block := declare_result 0 (enter_scope st) in
  match countif_loop fuel has_more_steps do_step condition (init (enter_scope block)) with
  | Some after => Some (result_value (leave_scope after))
  | None => None
  end.

(** An argument that does not mention the name [result] tests or changes
    the rest of the state only. *)
Definition test_without_result {S : Type} (t : S → bool) : Scoped S → bool :=
  fun st => t (others st).

Definition step_without_result {S : Type} (f : S → S) : Scoped S → Scoped S :=
  fun st => {| results := results st; others := f (others st) |}.

(** The iteration that the three macros walk through when their arguments
    do not mention [result]: its [k]-th state, the statement that it has
    exactly [n] steps, and the number of those steps at which the condition
    holds. *)
Definition state_at {S : Type} (init : S) (do_step : S → S) (k : nat) : S :=
  Nat.iter k do_step init.

Definition has_steps {S : Type} (init : S) (has_more_steps : S → bool)
    (do_step : S → S) (n : nat) : Prop :=
  (∀ k, (k < n)%nat → has_more_steps (state_at init do_step k) = true)
  ∧ has_more_steps (state_at init do_step n) = false.

Fixpoint holds_in {S : Type} (init : S) (do_step : S → S) (condition : S → bool)
    (n : nat) : nat :=
  match n with
  | O => O
  | Datatypes.S k =>
      (holds_in init do_step condition k
       + (if condition (state_at init do_step k) then 1 else 0))%nat
  end.

(** ** Clients of the tracked allocator *)

(** A call of one of the four allocation macros, and what it means for the
    blocks involved. *)
Inductive Call : Type :=
| CallMalloc (site : Site) (size : Z)
| CallCalloc (site : Site) (num size : Z)
| CallRealloc (site : Site) (ptr size : Z)
| CallFree (ptr : Z).

Inductive Event : Type :=
| Allocated (block : Z)
| Released (block : Z).

(** [block] has been handed out by the tracked allocator and not been
    released since. *)
Definition allocated_not_released (history : list Event) (block : Z) : Prop :=
  ∃ earlier later,
    history = earlier ++ Allocated block :: later ∧ Released block ∉ later.

Section Clients.

Context {wording : Wording}.

Definition perform (c : Call) : M (list Event) :=
  match c with
  | CallMalloc site size =>
      block <- xmalloc site size ;; ret [Allocated block]
  | CallCalloc site num size =>
      block <- xcalloc site num size ;; ret [Allocated block]
  | CallRealloc site ptr size =>
      block <- xrealloc site ptr size ;; ret [Released ptr; Allocated block]
  | CallFree ptr =>
      free ptr ;;; ret (if ptr =? NULL then [] else [Released ptr])
  end.

Fixpoint run (calls : list Call) : M (list Event) :=
  match calls with
  | [] => ret []
  | c :: later =>
      events <- perform c ;;
      history <- run later ;;
      ret (events ++ history)
  end.

End Clients.

(** ** Containers

    The accessors of arrays and lists are declared in headers that [base.h]
    includes at its end ([array.h], [list.h] and the headers of the element
    kinds); none of them is at hand. *)

(** Modelled from the spec: the array type is missing.  Section 3: a
    fixed-length sequence of one element kind that exposes its length. *)
Record Array (A : Type) : Type := {
  array_n : Z;
  array_cells : list A
}.
Arguments array_n {A} _.
Arguments array_cells {A} _.

(** Modelled from the spec: the list type is missing.  Section 3: a
    variable-length sequence whose backing block may be larger than its
    current length; the indices below the length are populated. *)
Record List (A : Type) : Type := {
  list_n : Z;
  list_capacity : Z;
  list_cells : list A
}.
Arguments list_n {A} _.
Arguments list_capacity {A} _.
Arguments list_cells {A} _.

(** Modelled from the spec: section 4.3, the operation vocabulary that all
    array and list specializations share.  [cells] are the populated
    elements and [store] puts a new sequence of elements in their place. *)
Class Container (C A : Type) : Type := {
  length_of : C → Z;
  cells : C → list A;
  store : list A → C → C;
  cells_store : ∀ l c, cells (store l c) = l;
  length_of_store : ∀ l c, length_of (store l c) = length_of c
}.

#[export] Instance array_container (A : Type) : Container (Array A) A :=
  {| length_of := array_n;
     cells := array_cells;
     store := fun l a => {| array_n := array_n a; array_cells := l |};
     cells_store := fun l c => eq_refl;
     length_of_store := fun l c => eq_refl |}.

#[export] Instance list_container (A : Type) : Container (List A) A :=
  {| length_of := list_n;
     cells := list_cells;
     store := fun l a =>
       {| list_n := list_n a; list_capacity := list_capacity a; list_cells := l |};
     cells_store := fun l c => eq_refl;
     length_of_store := fun l c => eq_refl |}.

(** The exposed length is the number of populated elements. *)
Definition well_formed {C A : Type} `{Container C A} (c : C) : Prop :=
  length_of c = Z.of_nat (length (cells c)).

Section Accessors.

Context {wording : Wording}.
Context {C A : Type} `{Container C A}.

(** Modelled from the spec: the bodies of the accessors are missing.
    Section 4.3, get: the element at [index]; a precondition check fails if
    [index] is outside the range from 0 to the length.  Reading a cell that
    is not there has no defined behaviour. *)
Definition get (cfg : Config) (site : Site) (c : C) (index : Z) : M A :=
  require cfg site "index in range"
    ((0 <=? index) && (index <? length_of c))
    "index >= 0 && index < length" ;;;
  if index <? 0 then (fun _ => Undefined)
  else match cells c !! Z.to_nat index with
       | Some x => ret x
       | None => (fun _ => Undefined)
       end.

(** Modelled from the spec: section 4.3, set: replaces the element at
    [index], with the bounds contract of get. *)
Definition set (cfg : Config) (site : Site) (c : C) (index : Z) (value : A) : M C :=
  require cfg site "index in range"
    ((0 <=? index) && (index <? length_of c))
    "index >= 0 && index < length" ;;;
  if index <? 0 then (fun _ => Undefined)
  else match cells c !! Z.to_nat index with
       | Some _ => ret (store (<[Z.to_nat index := value]> (cells c)) c)
       | None => (fun _ => Undefined)
       end.

End Accessors.

(** ** The header as the preprocessor sees it

    Client code reaches the header's macros through the preprocessor: what
    a client's [free], [exit] or [assert] turns into is a matter of macro
    replacement.  This part embeds the header's [#define] directives as a
    macro table and the replacement algorithm of the C preprocessor for that
    table.  Macros of the headers that [base.h] includes are not part of
    the table. *)

(** Preprocessing tokens: identifiers, punctuators, numbers, string
    literals (by the characters they denote), and the string literal that
    [#] makes of an argument (by the argument it spells). *)
#[warnings="-register-all"]
Inductive token : Type :=
| Id (name : string)
| Punct (spelling : string)
| Num (spelling : string)
| Str (characters : string)
| Stringified (argument : list token).

(** A macro definition: [parameters] is [None] for an object-like macro;
    [variadic] says that the parameter list ends in [...]. *)
Record macro : Type := {
  parameters : option (list string);
  variadic : bool;
  replacement : list token
}.

Definition object_like (body : list token) : macro :=
  {| parameters := None; variadic := false; replacement := body |}.

Definition function_like (ps : list string) (body : list token) : macro :=
  {| parameters := Some ps; variadic := false; replacement := body |}.

Definition variadic_function_like (ps : list string) (body : list token) : macro :=
  {| parameters := Some ps; variadic := true; replacement := body |}.

(** *** Reading replacement lists

    [lex] turns the text of a replacement list into tokens, so that the
    table below can quote the header.  String literals are not part of the
    text it reads; they are spliced in as [Str] tokens. *)

Definition is_space (c : ascii) : bool :=
  Ascii.eqb c " "%char || Ascii.eqb c "010"%char || Ascii.eqb c "009"%char.

Definition is_digit (c : ascii) : bool :=
  let n := N_of_ascii c in ((48 <=? n) && (n <=? 57))%N.

Definition is_ident_char (c : ascii) : bool :=
  let n := N_of_ascii c in
  (((65 <=? n) && (n <=? 90)) || ((97 <=? n) && (n <=? 122)) || (n =? 95)
   || ((48 <=? n) && (n <=? 57)))%N.

Definition starts_with_digit (word : string) : bool :=
  match word with
  | String c _ => is_digit c
  | EmptyString => false
  end.

(** The word read so far, as a token. *)
Definition flush (word : string) : list token :=
  match word with
  | EmptyString => []
  | String c _ => if is_digit c then [Num word] else [Id word]
  end.

(** Punctuators of two characters. *)
Definition two_char_punct (c d : ascii) : bool :=
  let s := String c (String d "") in
  bool_decide (s ∈ ["++"; "--"; "=="; "!="; "<="; ">="; "&&"; "||"; "->"; "+="; "-="]).

Fixpoint lex_from (word : string) (s : string) : list token :=
  match s with
  | EmptyString => flush word
  | String c rest =>
      if is_ident_char c || (Ascii.eqb c "."%char && starts_with_digit word) then
        lex_from (word +:+ String c "") rest
      else if is_space c then flush word ++ lex_from "" rest
      else
        match rest with
        | String d rest' =>
            if two_char_punct c d then
              flush word ++ Punct (String c (String d "")) :: lex_from "" rest'
            else flush word ++ Punct (String c "") :: lex_from "" rest
        | EmptyString => flush word ++ [Punct (String c "")]
        end
  end.

Definition lex (s : string) : list token := lex_from "" s.

(** *** The macro table of [base.h]

    The [#define] directives of the header in the order of the file, for a
    given configuration.  An [#ifdef NO_...] picks between an empty
    replacement list and the checking one. *)
Definition base_h (cfg : Config) : list (string * macro) :=
  [ ("__BASE_H__", object_like []);
    ("NO_ASSERT_DOC", object_like []);
    ("NO_REQUIRE_DOC", object_like []);
    ("NO_ENSURE_DOC", object_like []);
    ("assert",
      if NO_ASSERT cfg then function_like ["description"; "condition"] []
      else function_like ["description"; "condition"]
        (lex "if (!(condition)) { fprintf(stderr, " ++ [Str assert_format]
         ++ lex ", __FILE__, __LINE__, description, #condition); exit(EXIT_FAILURE); }"));
    ("assert_x",
      if NO_ASSERT cfg then function_like ["description"; "condition"] []
      else variadic_function_like ["description"; "condition"]
        (lex "if (!(condition)) { fprintf(stderr, " ++ [Str assert_x_format]
         ++ lex ", __FILE__, __LINE__, description); fprintf(stderr, __VA_ARGS__); fprintf(stderr, "
         ++ [Str newline] ++ lex "); exit(EXIT_FAILURE); }"));
    ("require",
      if NO_REQUIRE cfg then function_like ["description"; "condition"] []
      else function_like ["description"; "condition"]
        (lex "if (!(condition)) { fprintf(stderr, " ++ [Str require_format]
         ++ lex ", __FILE__, __LINE__, __func__, description, #condition); exit(EXIT_FAILURE); }"));
    ("require_x",
      if NO_REQUIRE cfg then function_like ["description"; "condition"] []
      else variadic_function_like ["description"; "condition"]
        (lex "if (!(condition)) { fprintf(stderr, " ++ [Str require_x_format]
         ++ lex ", __FILE__, __LINE__, __func__, description); fprintf(stderr, __VA_ARGS__); fprintf(stderr, "
         ++ [Str newline] ++ lex "); exit(EXIT_FAILURE); }"));
    ("require_not_null",
      if NO_REQUIRE cfg then function_like ["argument"] []
      else function_like ["argument"]
        (lex "if (argument == NULL) { fprintf(stderr, "
         ++ [Str require_not_null_format_before] ++ lex "#argument"
         ++ [Str require_not_null_format_after]
         ++ lex ", __FILE__, __LINE__, __func__); exit(EXIT_FAILURE); }"));
    ("ensure",
      if NO_ENSURE cfg then function_like ["description"; "condition"] []
      else function_like ["description"; "condition"]
        (lex "if (!(condition)) { fprintf(stderr, " ++ [Str ensure_format]
         ++ lex ", __FILE__, __LINE__, __func__, description, #condition); exit(EXIT_FAILURE); }"));
    ("ensure_x",
      if NO_ENSURE cfg then function_like ["description"; "condition"] []
      else variadic_function_like ["description"; "condition"]
        (lex "if (!(condition)) { fprintf(stderr, " ++ [Str ensure_x_format]
         ++ lex ", __FILE__, __LINE__, __func__, description); fprintf(stderr, __VA_ARGS__); fprintf(stderr, "
         ++ [Str newline] ++ lex "); exit(EXIT_FAILURE); }"));
    ("ensure_code",
      if NO_ENSURE cfg then function_like ["x"] []
      else function_like ["x"] (lex "x"));
    ("forall",
      function_like ["init"; "has_more_steps"; "do_step"; "condition"]
        (lex "({ bool result = true; for (init; has_more_steps; do_step) { if (!(condition)) { result = false; break; } } result; })"));
    ("exists",
      function_like ["init"; "has_more_steps"; "do_step"; "condition"]
        (lex "({ bool result = false; for (init; has_more_steps; do_step) { if (condition) { result = true; break; } } result; })"));
    ("countif",
      function_like ["init"; "has_more_steps"; "do_step"; "condition"]
        (lex "({ int result = 0; for (init; has_more_steps; do_step) { if (condition) { result++; } } result; })"));
    ("NO_TIMING_DOC", object_like []);
    ("time_function",
      if NO_TIMING cfg then function_like ["f"] (lex ";")
      else function_like ["f"]
        (lex "{ clock_t t = clock(); f; t = clock() - t; printf("
         ++ [Str ("time: %g ms" +:+ newline)]
         ++ lex ", t * 1000.0 / CLOCKS_PER_SEC); }"));
    ("xmalloc",
      function_like ["size"] (lex "base_malloc(__FILE__, __func__, __LINE__, size)"));
    ("xrealloc",
      function_like ["ptr"; "size"]
        (lex "base_realloc(__FILE__, __func__, __LINE__, ptr, size)"));
    ("xcalloc",
      function_like ["num"; "size"]
        (lex "base_calloc(__FILE__, __func__, __LINE__, num, size)"));
    ("free", object_like (lex "base_free"));
    ("exit", object_like (lex "base_exit"));
    ("NO_CHECK_ELEMENT_SIZE_DOC", object_like []);
    ("NO_GET_SET_DOC", object_like []);
    ("EPSILON", object_like (lex "0.00000001"));
    ("test_equal_b",
      function_like ["a"; "e"] (lex "base_test_equal_b(__FILE__, __LINE__, a, e)"));
    ("test_equal_i",
      function_like ["a"; "e"] (lex "base_test_equal_i(__FILE__, __LINE__, a, e)"));
    ("test_within_d",
      function_like ["a"; "e"; "epsilon"]
        (lex "base_test_within_d(__FILE__, __LINE__, a, e, epsilon)"));
    ("test_within_i",
      function_like ["a"; "e"; "epsilon"]
        (lex "base_test_within_i(__FILE__, __LINE__, a, e, epsilon)"));
    ("test_equal_c",
      function_like ["a"; "e"] (lex "base_test_equal_c(__FILE__, __LINE__, a, e)"));
    ("test_equal_s",
      function_like ["a"; "e"] (lex "base_test_equal_s(__FILE__, __LINE__, a, e)"));
    ("test_equal_ca",
      function_like ["a"; "e"; "ne"]
        (lex "base_test_equal_ca(__FILE__, __LINE__, a, e, ne)"));
    ("test_equal_boa",
      function_like ["a"; "e"; "ne"]
        (lex "base_test_equal_ba(__FILE__, __LINE__, a, e, ne)"));
    ("test_equal_struct",
      function_like ["a"; "e"; "p"]
        (lex "base_test_equal_struct(__FILE__, __LINE__, a, e, p)")) ].

(** The names that the header defines. *)
Definition base_h_names : list string :=
  ["__BASE_H__"; "NO_ASSERT_DOC"; "NO_REQUIRE_DOC"; "NO_ENSURE_DOC";
   "assert"; "assert_x"; "require"; "require_x"; "require_not_null";
   "ensure"; "ensure_x"; "ensure_code"; "forall"; "exists"; "countif";
   "NO_TIMING_DOC"; "time_function"; "xmalloc"; "xrealloc"; "xcalloc";
   "free"; "exit"; "NO_CHECK_ELEMENT_SIZE_DOC"; "NO_GET_SET_DOC"; "EPSILON";
   "test_equal_b"; "test_equal_i"; "test_within_d"; "test_within_i";
   "test_equal_c"; "test_equal_s"; "test_equal_ca"; "test_equal_boa";
   "test_equal_struct"].

(** The table after the directives have been read: a later definition of a
    name replaces an earlier one. *)
Definition macros (directives : list (string * macro)) : gmap string macro :=
  foldl (fun table d => <[d.1 := d.2]> table) ∅ directives.

(** *** Macro replacement

    The result of preprocessing: the replaced tokens, a malformed macro
    invocation (unterminated argument list, wrong number of arguments; the
    compiler rejects the translation unit), or fuel used up. *)
Inductive Result (A : Type) : Type :=
| Done (value : A)
| Malformed
| OutOfFuel.

Arguments Done {A} value.
Arguments Malformed {A}.
Arguments OutOfFuel {A}.

Definition is_punct (spelling : string) (t : token) : bool :=
  match t with
  | Punct s => String.eqb s spelling
  | _ => false
  end.

(** The arguments of an invocation, read after its opening parenthesis:
    the token lists between the commas at nesting depth 0, up to the
    matching closing parenthesis, and the tokens after it.  [current] and
    [finished] hold the argument being read and the arguments read, both in
    reverse. *)
Fixpoint collect_args (depth : nat) (current : list token)
    (finished : list (list token)) (ts : list token)
    : option (list (list token) * list token) :=
  match ts with
  | [] => None
  | t :: rest =>
      if is_punct "(" t then collect_args (S depth) (t :: current) finished rest
      else if is_punct ")" t then
        match depth with
        | O => Some (reverse (reverse current :: finished), rest)
        | S depth' => collect_args depth' (t :: current) finished rest
        end
      else if is_punct "," t && bool_decide (depth = O) then
        collect_args O [] (reverse current :: finished) rest
      else collect_args depth (t :: current) finished rest
  end.

(** Token lists separated by commas, as [__VA_ARGS__] stands for them. *)
Fixpoint join_args (args : list (list token)) : list token :=
  match args with
  | [] => []
  | [a] => a
  | a :: more => a ++ Punct "," :: join_args more
  end.

(** The arguments of an invocation bound to the parameters. *)
Definition bind_args (ps : list string) (is_variadic : bool)
    (args : list (list token)) : option (gmap string (list token)) :=
  if is_variadic then
    if bool_decide (length ps ≤ length args)%nat then
      Some (<["__VA_ARGS__" := join_args (drop (length ps) args)]>
              (list_to_map (zip ps (take (length ps) args))))
    else None
  else if bool_decide (length ps = length args) then
    Some (list_to_map (zip ps args))
  else
    match ps, args with
    | [], [[]] => Some ∅
    | _, _ => None
    end.

(** The replacement list with the arguments put in: a parameter after [#]
    becomes the string literal spelling the argument as written ([raw]);
    any other parameter becomes the argument after its own macro
    replacement ([replaced]). *)
Fixpoint substitute (raw replaced : gmap string (list token))
    (body : list token) : list token :=
  match body with
  | [] => []
  | t :: rest =>
      match t, rest with
      | Punct p, Id x :: rest' =>
          match (if String.eqb p "#" then raw !! x else None) with
          | Some a => Stringified a :: substitute raw replaced rest'
          | None => t :: substitute raw replaced rest
          end
      | Id x, _ =>
          match replaced !! x with
          | Some a => a ++ substitute raw replaced rest
          | None => t :: substitute raw replaced rest
          end
      | _, _ => t :: substitute raw replaced rest
      end
  end.

Definition and_then {A B} (r : Result A) (k : A → Result B) : Result B :=
  match r with
  | Done a => k a
  | Malformed => Malformed
  | OutOfFuel => OutOfFuel
  end.

Fixpoint for_each {A B} (f : A → Result B) (l : list A) : Result (list B) :=
  match l with
  | [] => Done []
  | a :: more =>
      and_then (f a) (fun b => and_then (for_each f more) (fun bs => Done (b :: bs)))
  end.

(** The tokens after the name of a function-like macro say whether this is
    an invocation. *)
Definition after_open_paren (ts : list token) : option (list token) :=
  match ts with
  | t :: rest => if is_punct "(" t then Some rest else None
  | [] => None
  end.

(** Macro replacement of a token list under the table [table].  [hide]
    holds the macros being replaced at this point: inside its own
    replacement a macro's name is left alone.  An argument is replaced on
    its own before it is put in, except after [#].  The replacement of a
    macro is rescanned without the tokens that follow the invocation; the C
    preprocessor rescans it together with them, which makes a difference
    only when the replacement, with the arguments put in, ends in the name
    of a function-like macro and a parenthesis follows the invocation.  No
    replacement list of [base.h] ends in such a name; that of [ensure_code]
    ends in its parameter, so the difference shows for an argument of
    [ensure_code] that ends in the bare name of a function-like macro, as
    in [ensure_code(assert)(d, c)]. *)
Fixpoint expand (fuel : nat) (table : gmap string macro) (hide : list string)
    (ts : list token) : Result (list token) :=
  match fuel with
  | O => OutOfFuel
  | S fuel' =>
      match ts with
      | [] => Done []
      | Id x :: rest =>
          match (if bool_decide (x ∈ hide) then None else table !! x) with
          | None =>
              and_then (expand fuel' table hide rest) (fun out => Done (Id x :: out))
          | Some m =>
              match parameters m with
              | None =>
                  and_then (expand fuel' table (x :: hide) (replacement m)) (fun body =>
                  and_then (expand fuel' table hide rest) (fun out =>
                  Done (body ++ out)))
              | Some ps =>
                  match after_open_paren rest with
                  | None =>
                      and_then (expand fuel' table hide rest) (fun out =>
                      Done (Id x :: out))
                  | Some inside =>
                      match collect_args O [] [] inside with
                      | None => Malformed
                      | Some (args, after) =>
                          and_then (for_each (expand fuel' table hide) args) (fun args' =>
                          match bind_args ps (variadic m) args,
                                bind_args ps (variadic m) args' with
                          | Some raw, Some replaced =>
                              and_then
                                (expand fuel' table (x :: hide)
                                   (substitute raw replaced (replacement m)))
                                (fun body =>
                              and_then (expand fuel' table hide after) (fun out =>
                              Done (body ++ out)))
                          | _, _ => Malformed
                          end)
                      end
                  end
              end
          end
      | t :: rest =>
          and_then (expand fuel' table hide rest) (fun out => Done (t :: out))
      end
  end.

(** Preprocessing client code that follows [#include "base.h"]. *)
Definition preprocess (fuel : nat) (cfg : Config) (client : list token)
    : Result (list token) :=
  expand fuel (macros (base_h cfg)) [] client.

(** Replacement ends: from some amount of fuel on, the result is [r]. *)
Definition converges (table : gmap string macro) (hide : list string)
    (ts : list token) (r : Result (list token)) : Prop :=
  ∃ fuel, ∀ fuel', (fuel ≤ fuel')%nat → expand fuel' table hide ts = r.

(** Replacement ends, with replaced tokens or with a malformed
    invocation. *)
Definition halts (table : gmap string macro) (hide : list string)
    (ts : list token) : Prop :=
  ∃ fuel, ∀ fuel', (fuel ≤ fuel')%nat → expand fuel' table hide ts ≠ OutOfFuel.

(** A token that macro replacement passes over: anything but the name of a
    macro that is neither hidden nor missing from the table. *)
Definition passes (table : gmap string macro) (hide : list string) (t : token) : Prop :=
  match t with
  | Id x => x ∈ hide ∨ table !! x = None
  | _ => True
  end.

(** A token that can stand inside a macro argument without ending it or
    being replaced: no parenthesis, no comma, no macro name. *)
Definition plain (table : gmap string macro) (t : token) : Prop :=
  match t with
  | Id x => table !! x = None
  | Punct s => s ≠ "(" ∧ s ≠ ")" ∧ s ≠ ","
  | _ => True
  end.

(** The two redirections of the header: [free] and [exit] are object-like
    macros for [base_free] and [base_exit], which are functions. *)
Definition redirects (table : gmap string macro) : Prop :=
  table !! "free" = Some (object_like [Id "base_free"])
  ∧ table !! "exit" = Some (object_like [Id "base_exit"])
  ∧ table !! "base_free" = None
  ∧ table !! "base_exit" = None.

(** Two tokens that are the same but for the name under which [free] or
    [exit] is called: the first may have [free] where the second has
    [base_free], and [exit] where the second has [base_exit], also inside
    the argument that a string literal made by [#] spells. *)
#[warnings="-register-all"]
Inductive same_call : token → token → Prop :=
| same_token (t : token) : same_call t t
| free_as_base_free : same_call (Id "free") (Id "base_free")
| exit_as_base_exit : same_call (Id "exit") (Id "base_exit")
| same_call_spelled (a a' : list token) :
    Forall2 same_call a a' → same_call (Stringified a) (Stringified a').

(** Arguments bound to the same parameters. *)
Definition same_binding (m m' : gmap string (list token)) : Prop :=
  ∀ x, option_Forall2 (Forall2 same_call) (m !! x) (m' !! x).

(** ** The six checks under one name *)

Inductive Contract : Type :=
| Assert | AssertX | Require | RequireX | Ensure | EnsureX.

(** The check is compiled in. *)
Definition enabled (cfg : Config) (k : Contract) : Prop :=
  match k with
  | Assert | AssertX => NO_ASSERT cfg = false
  | Require | RequireX => NO_REQUIRE cfg = false
  | Ensure | EnsureX => NO_ENSURE cfg = false
  end.

(** Preconditions and postconditions name the enclosing function. *)
Definition names_function (k : Contract) : bool :=
  match k with
  | Assert | AssertX => false
  | _ => true
  end.

Section Checks.

Context {wording : Wording}.

(** [text] is the condition's text for the plain checks and the formatted
    detail for the [_x] checks. *)
Definition check (k : Contract) (cfg : Config) (site : Site)
    (description : string) (condition : bool) (text : string) : M unit :=
  match k with
  | Assert => assert cfg site description condition text
  | AssertX => assert_x cfg site description condition text
  | Require => require cfg site description condition text
  | RequireX => require_x cfg site description condition text
  | Ensure => ensure cfg site description condition text
  | EnsureX => ensure_x cfg site description condition text
  end.

(** What [base_exit], as modelled above, adds to the diagnostic stream. *)
Definition exit_report (p : Process) : string :=
  if do_memory_check p then leak_report (ledger p) else "".

End Checks.

(** ** The diagnostic formats in the words of the specification

    Section 6: the plain form, the subject that the precondition and
    postcondition variants put after the line number, and the formatted
    form. *)

Definition spec_plain (site : Site) (subject description condition_text : string) : string :=
  site_file site +:+ ", line " +:+ decimal (site_line site) +:+ ": " +:+ subject
  +:+ " " +:+ quote +:+ description +:+ quote
  +:+ " (" +:+ condition_text +:+ ") violated".

Definition spec_formatted (site : Site) (subject description detail : string) : string :=
  site_file site +:+ ", line " +:+ decimal (site_line site) +:+ ": " +:+ subject
  +:+ " " +:+ quote +:+ description +:+ quote
  +:+ " violated: " +:+ detail.

Definition spec_precondition (site : Site) : string :=
  site_function site +:+ "'s precondition".

Definition spec_postcondition (site : Site) : string :=
  site_function site +:+ "'s postcondition".

(** The text of a failed check [k]: what comes after the line number, and
    the whole line without its line feed.  For the [_x] checks [text] is
    the formatted detail. *)
Definition subject (k : Contract) (site : Site) : string :=
  match k with
  | Assert | AssertX => "assertion"
  | Require | RequireX => spec_precondition site
  | Ensure | EnsureX => spec_postcondition site
  end.

Definition formatted (k : Contract) : bool :=
  match k with
  | AssertX | RequireX | EnsureX => true
  | _ => false
  end.

Definition check_line (k : Contract) (site : Site) (description text : string) : string :=
  if formatted k then spec_formatted site (subject k site) description text
  else spec_plain site (subject k site) description text.

(** ** Sample data *)

(** The call site of the examples in the header's comments. *)
Definition here : Site :=
  {| site_file := "myfile.c"; site_function := "myfunction"; site_line := 18 |}.

(** A process that has written nothing and holds no block; the platform
    allocator will hand out two blocks. *)
Definition quiet : Process :=
  {| stderr := ""; ledger := ∅; do_memory_check := false;
     exit_status := EXIT_SUCCESS; platform := [4096; 8192] |}.

(** What is on the diagnostic stream when a statement has ended the
    process. *)
Definition stderr_of {A : Type} (o : Outcome A) : option string :=
  match o with
  | Exits _ final => Some (stderr final)
  | _ => None
  end.

(** An iteration over [0, 1, ..., bound - 1], as [int i = 0; i < bound; i++]
    has it. *)
Definition below (bound : Z) (i : Z) : bool := i <? bound.

(** A place in the client's code where no variable named [result] is in
    scope. *)
Definition outside {S : Type} (s : S) : Scoped S :=
  {| results := []; others := s |}.

(** ** Text without conversions *)

(** Number of percent signs in a text. *)
Fixpoint percents (s : string) : nat :=
  match s with
  | EmptyString => 0%nat
  | String c rest =>
      ((if Ascii.eqb c percent then 1 else 0) + percents rest)%nat
  end.

(** ** Invocations as a client writes them *)

(** The nesting depth after the tokens of one macro argument, read from
    nesting depth [depth]; [None] when the tokens do not stay within one
    argument: a closing parenthesis without its opening one, or a comma
    outside parentheses. *)
Fixpoint argument_depth (depth : nat) (ts : list token) : option nat :=
  match ts with
  | [] => Some depth
  | t :: rest =>
      if is_punct "(" t then argument_depth (S depth) rest
      else if is_punct ")" t then
        match depth with
        | O => None
        | S depth' => argument_depth depth' rest
        end
      else if is_punct "," t && bool_decide (depth = O) then None
      else argument_depth depth rest
  end.

(** Tokens that make up one argument: parentheses balanced, commas only
    inside them. *)
Definition one_argument (ts : list token) : Prop :=
  argument_depth 0 ts = Some 0%nat.

(** Tokens without the name of a macro of the table. *)
Definition macro_free (table : gmap string macro) (ts : list token) : Prop :=
  Forall (passes table []) ts.

(** [name(arg, ..., arg)]. *)
Definition invocation (name : string) (args : list (list token)) : list token :=
  Id name :: Punct "(" :: join_args args ++ [Punct ")"].

(** The macro behind each check. *)
Definition macro_name (k : Contract) : string :=
  match k with
  | Assert => "assert"
  | AssertX => "assert_x"
  | Require => "require"
  | RequireX => "require_x"
  | Ensure => "ensure"
  | EnsureX => "ensure_x"
  end.

(** ** The functions that [base.h] declares

    The names of the header's prototypes, in the order of the file
    (lines 152-896). *)
Definition base_h_prototypes : list string :=
  ["base_init"; "report_memory_leaks";
   "base_malloc"; "base_realloc"; "base_calloc"; "base_free"; "base_exit";
   "i_of_s"; "d_of_s"; "d_of_s_sub";
   "printi"; "printiln"; "printd"; "printdln"; "printc"; "printcln";
   "prints"; "printsln"; "printb"; "printbln"; "println";
   "printia"; "printialn"; "printda"; "printdaln"; "printsa"; "printsaln";
   "printca"; "printcaln"; "printba"; "printbaln"; "printboa"; "printboaln";
   "get_line"; "s_input"; "i_input"; "d_input";
   "s_read_file"; "s_write_file"; "write_file_data";
   "i_rnd"; "d_rnd"; "b_rnd";
   "base_test_equal_b"; "base_test_equal_i"; "base_test_within_d";
   "base_test_within_i"; "base_test_equal_c"; "base_test_equal_s";
   "base_test_equal_ca"; "base_test_equal_boa"; "base_test_equal_struct";
   "base_count_check"; "base_count_success"].

(** The configuration with every switch defined: no check is compiled in,
    no timing. *)
Definition unchecked : Config :=
  {| NO_ASSERT := true; NO_REQUIRE := true; NO_ENSURE := true; NO_TIMING := true |}.
(** * Properties *)

(** ** Text *)

Lemma append_cons (ch : ascii) (a b : string) :
  String ch a +:+ b = String ch (a +:+ b).
Proof. reflexivity. Qed.

Lemma append_assoc (a b c : string) : (a +:+ b) +:+ c = a +:+ (b +:+ c).
Proof.
  induction a as [|ch a IH]; [reflexivity|].
  rewrite !append_cons. by rewrite IH.
Qed.

Lemma append_empty_r (a : string) : a +:+ "" = a.
Proof.
  induction a as [|ch a IH]; [reflexivity|].
  rewrite append_cons. by rewrite IH.
Qed.

Lemma line_feeds_append (a b : string) :
  line_feeds (a +:+ b) = (line_feeds a + line_feeds b)%nat.
Proof.
  induction a as [|ch a IH]; [reflexivity|].
  rewrite append_cons. cbn [line_feeds]. rewrite IH. lia.
Qed.

Lemma line_feeds_uint (d : Decimal.uint) :
  line_feeds (NilEmpty.string_of_uint d) = 0%nat.
Proof. induction d; cbn; auto. Qed.

Lemma line_feeds_decimal (i : Z) : line_feeds (decimal i) = 0%nat.
Proof.
  unfold decimal, NilZero.string_of_int, NilZero.string_of_uint.
  destruct (Z.to_int i) as [d|d]; destruct d; cbn; auto using line_feeds_uint.
Qed.

Lemma one_line_feeds (s : string) : one_line s → line_feeds s = 1%nat.
Proof.
  intros (body & -> & Hbody). rewrite line_feeds_append, Hbody. reflexivity.
Qed.

Lemma occurs_in_trans (x s l : string) :
  occurs_in x s → occurs_in s l → occurs_in x l.
Proof.
  intros (b1 & a1 & ->) (b2 & a2 & ->).
  exists (b2 +:+ b1), (a1 +:+ a2). by rewrite !append_assoc.
Qed.

Lemma spec_plain_occurs site subject description text :
  let line := spec_plain site subject description text +:+ newline in
  occurs_in (site_file site) line ∧ occurs_in (decimal (site_line site)) line
  ∧ occurs_in subject line ∧ occurs_in description line ∧ occurs_in text line.
Proof.
  cbn zeta. unfold spec_plain. repeat split.
  - exists "". eexists. rewrite ?append_assoc. reflexivity.
  - exists (site_file site +:+ ", line "). eexists.
    rewrite ?append_assoc. reflexivity.
  - exists (site_file site +:+ ", line " +:+ decimal (site_line site) +:+ ": ").
    eexists. rewrite ?append_assoc. reflexivity.
  - exists (site_file site +:+ ", line " +:+ decimal (site_line site) +:+ ": "
            +:+ subject +:+ " " +:+ quote).
    eexists. rewrite ?append_assoc. reflexivity.
  - exists (site_file site +:+ ", line " +:+ decimal (site_line site) +:+ ": "
            +:+ subject +:+ " " +:+ quote +:+ description +:+ quote +:+ " (").
    eexists. rewrite ?append_assoc. reflexivity.
Qed.

Lemma spec_formatted_occurs site subject description detail :
  let line := spec_formatted site subject description detail +:+ newline in
  occurs_in (site_file site) line ∧ occurs_in (decimal (site_line site)) line
  ∧ occurs_in subject line ∧ occurs_in description line ∧ occurs_in detail line.
Proof.
  cbn zeta. unfold spec_formatted. repeat split.
  - exists "". eexists. rewrite ?append_assoc. reflexivity.
  - exists (site_file site +:+ ", line "). eexists.
    rewrite ?append_assoc. reflexivity.
  - exists (site_file site +:+ ", line " +:+ decimal (site_line site) +:+ ": ").
    eexists. rewrite ?append_assoc. reflexivity.
  - exists (site_file site +:+ ", line " +:+ decimal (site_line site) +:+ ": "
            +:+ subject +:+ " " +:+ quote).
    eexists. rewrite ?append_assoc. reflexivity.
  - exists (site_file site +:+ ", line " +:+ decimal (site_line site) +:+ ": "
            +:+ subject +:+ " " +:+ quote +:+ description +:+ quote
            +:+ " violated: ").
    eexists. rewrite ?append_assoc. reflexivity.
Qed.

Lemma spec_plain_feeds site subject description text :
  line_feeds (site_file site) = 0%nat → line_feeds subject = 0%nat →
  line_feeds description = 0%nat → line_feeds text = 0%nat →
  line_feeds (spec_plain site subject description text) = 0%nat.
Proof.
  intros Hf Hs Hd Ht. unfold spec_plain.
  rewrite !line_feeds_append, Hf, Hs, Hd, Ht, line_feeds_decimal. reflexivity.
Qed.

Lemma spec_formatted_feeds site subject description detail :
  line_feeds (site_file site) = 0%nat → line_feeds subject = 0%nat →
  line_feeds description = 0%nat → line_feeds detail = 0%nat →
  line_feeds (spec_formatted site subject description detail) = 0%nat.
Proof.
  intros Hf Hs Hd Ht. unfold spec_formatted.
  rewrite !line_feeds_append, Hf, Hs, Hd, Ht, line_feeds_decimal. reflexivity.
Qed.

(** ** The diagnostic stream and process exit *)

Lemma emit_emit (a b : string) (p : Process) :
  emit b (emit a p) = emit (a +:+ b) p.
Proof. unfold emit, set_stderr. cbn. by rewrite append_assoc. Qed.

Lemma emit_empty (p : Process) : emit "" p = p.
Proof. destruct p. unfold emit, set_stderr. cbn. by rewrite append_empty_r. Qed.

Section ContractFacts.

Context {wording : Wording}.

Lemma exit_outcome (status : Z) (p : Process) :
  exit status p
  = Exits status (set_ledger ∅ (set_exit_status status (emit (exit_report p) p))).
Proof.
  unfold exit, base_exit, exit_report.
  destruct (do_memory_check p); [reflexivity|]. by rewrite emit_empty.
Qed.

Lemma exit_stderr (status : Z) (p : Process) :
  ∃ final, exit status p = Exits status final
           ∧ stderr final = stderr p +:+ exit_report p
           ∧ exit_status final = status.
Proof. rewrite exit_outcome. eexists. split; [reflexivity|]. by split. Qed.

(** The header's format strings print the formats of the specification. *)

Lemma printf_assert site description text :
  printf_text assert_format
    [ArgString (site_file site); ArgInt (site_line site);
     ArgString description; ArgString text]
  = Some (spec_plain site "assertion" description text +:+ newline).
Proof. unfold spec_plain. rewrite ?append_assoc. reflexivity. Qed.

Lemma printf_require site description text :
  printf_text require_format
    [ArgString (site_file site); ArgInt (site_line site);
     ArgString (site_function site); ArgString description; ArgString text]
  = Some (spec_plain site (spec_precondition site) description text +:+ newline).
Proof.
  unfold spec_plain, spec_precondition. rewrite ?append_assoc. reflexivity.
Qed.

Lemma printf_ensure site description text :
  printf_text ensure_format
    [ArgString (site_file site); ArgInt (site_line site);
     ArgString (site_function site); ArgString description; ArgString text]
  = Some (spec_plain site (spec_postcondition site) description text +:+ newline).
Proof.
  unfold spec_plain, spec_postcondition. rewrite ?append_assoc. reflexivity.
Qed.

Lemma printf_assert_x site description :
  printf_text assert_x_format
    [ArgString (site_file site); ArgInt (site_line site); ArgString description]
  = Some (spec_formatted site "assertion" description "").
Proof. unfold spec_formatted. rewrite ?append_assoc. reflexivity. Qed.

Lemma printf_require_x site description :
  printf_text require_x_format
    [ArgString (site_file site); ArgInt (site_line site);
     ArgString (site_function site); ArgString description]
  = Some (spec_formatted site (spec_precondition site) description "").
Proof.
  unfold spec_formatted, spec_precondition. rewrite ?append_assoc. reflexivity.
Qed.

Lemma printf_ensure_x site description :
  printf_text ensure_x_format
    [ArgString (site_file site); ArgInt (site_line site);
     ArgString (site_function site); ArgString description]
  = Some (spec_formatted site (spec_postcondition site) description "").
Proof.
  unfold spec_formatted, spec_postcondition. rewrite ?append_assoc. reflexivity.
Qed.

Lemma spec_formatted_detail site subject description detail :
  spec_formatted site subject description "" +:+ detail
  = spec_formatted site subject description detail.
Proof. unfold spec_formatted. rewrite ?append_assoc. reflexivity. Qed.

(** A failed check: the text it writes, then [exit(EXIT_FAILURE)]. *)

Lemma assert_violated cfg site description text p :
  NO_ASSERT cfg = false →
  assert cfg site description false text p
  = exit EXIT_FAILURE (emit (spec_plain site "assertion" description text +:+ newline) p).
Proof.
  intros E. unfold assert, bind, fprintf_stderr. rewrite E. cbn [negb].
  by rewrite printf_assert.
Qed.

Lemma require_violated cfg site description text p :
  NO_REQUIRE cfg = false →
  require cfg site description false text p
  = exit EXIT_FAILURE
      (emit (spec_plain site (spec_precondition site) description text +:+ newline) p).
Proof.
  intros E. unfold require, bind, fprintf_stderr. rewrite E. cbn [negb].
  by rewrite printf_require.
Qed.

Lemma ensure_violated cfg site description text p :
  NO_ENSURE cfg = false →
  ensure cfg site description false text p
  = exit EXIT_FAILURE
      (emit (spec_plain site (spec_postcondition site) description text +:+ newline) p).
Proof.
  intros E. unfold ensure, bind, fprintf_stderr. rewrite E. cbn [negb].
  by rewrite printf_ensure.
Qed.

Lemma assert_x_violated cfg site description detail p :
  NO_ASSERT cfg = false →
  assert_x cfg site description false detail p
  = exit EXIT_FAILURE
      (emit (spec_formatted site "assertion" description detail +:+ newline) p).
Proof.
  intros E. unfold assert_x, bind, fprintf_stderr, fprintf_stderr_va.
  rewrite E. cbn [negb]. rewrite printf_assert_x.
  change (printf_text newline []) with (Some newline).
  by rewrite !emit_emit, spec_formatted_detail.
Qed.

Lemma require_x_violated cfg site description detail p :
  NO_REQUIRE cfg = false →
  require_x cfg site description false detail p
  = exit EXIT_FAILURE
      (emit (spec_formatted site (spec_precondition site) description detail +:+ newline) p).
Proof.
  intros E. unfold require_x, bind, fprintf_stderr, fprintf_stderr_va.
  rewrite E. cbn [negb]. rewrite printf_require_x.
  change (printf_text newline []) with (Some newline).
  by rewrite !emit_emit, spec_formatted_detail.
Qed.

Lemma ensure_x_violated cfg site description detail p :
  NO_ENSURE cfg = false →
  ensure_x cfg site description false detail p
  = exit EXIT_FAILURE
      (emit (spec_formatted site (spec_postcondition site) description detail +:+ newline) p).
Proof.
  intros E. unfold ensure_x, bind, fprintf_stderr, fprintf_stderr_va.
  rewrite E. cbn [negb]. rewrite printf_ensure_x.
  change (printf_text newline []) with (Some newline).
  by rewrite !emit_emit, spec_formatted_detail.
Qed.

(** A check whose condition holds, or that is compiled out, does nothing. *)
Lemma check_holds k cfg site description text p :
  check k cfg site description true text p = Returns tt p.
Proof.
  destruct k; cbn [check];
    unfold assert, assert_x, require, require_x, ensure, ensure_x;
    cbn [negb];
    match goal with |- context [if ?b then _ else _] => destruct b end;
    reflexivity.
Qed.

(** The text of a failed check. *)
Lemma check_violated k cfg site description text p :
  enabled cfg k →
  check k cfg site description false text p
  = exit EXIT_FAILURE (emit (check_line k site description text +:+ newline) p).
Proof.
  destruct k; cbn [enabled check check_line subject]; intros E.
  - by apply assert_violated.
  - by apply assert_x_violated.
  - by apply require_violated.
  - by apply require_x_violated.
  - by apply ensure_violated.
  - by apply ensure_x_violated.
Qed.

Lemma subject_feeds k site :
  line_feeds (site_function site) = 0%nat → line_feeds (subject k site) = 0%nat.
Proof.
  intros Hf. destruct k; cbn [subject]; try reflexivity;
    unfold spec_precondition, spec_postcondition;
    by rewrite line_feeds_append, Hf.
Qed.

Lemma subject_names_function k site :
  names_function k = true → occurs_in (site_function site) (subject k site).
Proof.
  destruct k; cbn [names_function subject]; try discriminate; intros _;
    unfold spec_precondition, spec_postcondition;
    first [by exists "", "'s precondition" | by exists "", "'s postcondition"].
Qed.

(** C3 (amended).  A checked assertion ([assert], [require], [ensure] or
    one of their [_x] forms) that is compiled in, invoked where file name,
    function name, description and condition text (or formatted detail)
    hold no line feed: with a false condition it writes exactly one line to
    the error stream, which gives the file, the line number, the enclosing
    function for preconditions and postconditions, the description and the
    condition text or formatted detail, and then ends the process through
    [exit(EXIT_FAILURE)], with the failure status.  With a true condition
    the invocation returns and leaves the process as it was. *)
Theorem check_one_line_then_exit k cfg site description text p :
  enabled cfg k →
  line_feeds (site_file site) = 0%nat →
  line_feeds (site_function site) = 0%nat →
  line_feeds description = 0%nat →
  line_feeds text = 0%nat →
  (∃ line final,
      check k cfg site description false text p = exit EXIT_FAILURE (emit line p)
      ∧ exit EXIT_FAILURE (emit line p) = Exits EXIT_FAILURE final
      ∧ one_line line
      ∧ occurs_in (site_file site) line
      ∧ occurs_in (decimal (site_line site)) line
      ∧ (names_function k = true → occurs_in (site_function site) line)
      ∧ occurs_in description line
      ∧ occurs_in text line)
  ∧ check k cfg site description true text p = Returns tt p.
Proof.
  intros Hk Hfile Hfun Hd Ht. split; [|apply check_holds].
  destruct (exit_stderr EXIT_FAILURE
              (emit (check_line k site description text +:+ newline) p))
    as (final & Hexit & _).
  exists (check_line k site description text +:+ newline), final.
  split; [by apply check_violated|]. split; [exact Hexit|].
  pose proof (subject_feeds k site Hfun) as Hs.
  pose proof (subject_names_function k site) as Hn.
  split.
  { exists (check_line k site description text). split; [reflexivity|].
    unfold check_line. destruct (formatted k);
      [by apply spec_formatted_feeds | by apply spec_plain_feeds]. }
  unfold check_line. destruct (formatted k).
  - destruct (spec_formatted_occurs site (subject k site) description text)
      as (? & ? & Hsub & ? & ?).
    repeat split; try assumption.
    intros Hnames. eapply occurs_in_trans; [by apply Hn | exact Hsub].
  - destruct (spec_plain_occurs site (subject k site) description text)
      as (? & ? & Hsub & ? & ?).
    repeat split; try assumption.
    intros Hnames. eapply occurs_in_trans; [by apply Hn | exact Hsub].
Qed.

(** C4.  The text of every failed check is the format of the
    specification followed by a line feed: the plain form with the word
    assertion for [assert], with the function's precondition or
    postcondition in its place for [require] and [ensure], and the
    formatted form for the [_x] macros. *)
Theorem diagnostic_formats cfg site description text detail p :
  (NO_ASSERT cfg = false →
     assert cfg site description false text p
     = exit EXIT_FAILURE
         (emit (site_file site +:+ ", line " +:+ decimal (site_line site)
                +:+ ": assertion " +:+ quote +:+ description +:+ quote
                +:+ " (" +:+ text +:+ ") violated" +:+ newline) p)
     ∧ assert_x cfg site description false detail p
       = exit EXIT_FAILURE
           (emit (site_file site +:+ ", line " +:+ decimal (site_line site)
                  +:+ ": assertion " +:+ quote +:+ description +:+ quote
                  +:+ " violated: " +:+ detail +:+ newline) p))
  ∧ (NO_REQUIRE cfg = false →
     require cfg site description false text p
     = exit EXIT_FAILURE
         (emit (site_file site +:+ ", line " +:+ decimal (site_line site)
                +:+ ": " +:+ site_function site +:+ "'s precondition "
                +:+ quote +:+ description +:+ quote
                +:+ " (" +:+ text +:+ ") violated" +:+ newline) p)
     ∧ require_x cfg site description false detail p
       = exit EXIT_FAILURE
           (emit (site_file site +:+ ", line " +:+ decimal (site_line site)
                  +:+ ": " +:+ site_function site +:+ "'s precondition "
                  +:+ quote +:+ description +:+ quote
                  +:+ " violated: " +:+ detail +:+ newline) p))
  ∧ (NO_ENSURE cfg = false →
     ensure cfg site description false text p
     = exit EXIT_FAILURE
         (emit (site_file site +:+ ", line " +:+ decimal (site_line site)
                +:+ ": " +:+ site_function site +:+ "'s postcondition "
                +:+ quote +:+ description +:+ quote
                +:+ " (" +:+ text +:+ ") violated" +:+ newline) p)
     ∧ ensure_x cfg site description false detail p
       = exit EXIT_FAILURE
           (emit (site_file site +:+ ", line " +:+ decimal (site_line site)
                  +:+ ": " +:+ site_function site +:+ "'s postcondition "
                  +:+ quote +:+ description +:+ quote
                  +:+ " violated: " +:+ detail +:+ newline) p)).
Proof.
  split; [|split]; intros E; split.
  - rewrite assert_violated by done. f_equal. f_equal.
    unfold spec_plain. rewrite ?append_assoc. reflexivity.
  - rewrite assert_x_violated by done. f_equal. f_equal.
    unfold spec_formatted. rewrite ?append_assoc. reflexivity.
  - rewrite require_violated by done. f_equal. f_equal.
    unfold spec_plain, spec_precondition. rewrite ?append_assoc. reflexivity.
  - rewrite require_x_violated by done. f_equal. f_equal.
    unfold spec_formatted, spec_precondition. rewrite ?append_assoc. reflexivity.
  - rewrite ensure_violated by done. f_equal. f_equal.
    unfold spec_plain, spec_postcondition. rewrite ?append_assoc. reflexivity.
  - rewrite ensure_x_violated by done. f_equal. f_equal.
    unfold spec_formatted, spec_postcondition. rewrite ?append_assoc. reflexivity.
Qed.

End ContractFacts.

Lemma check_one_line_then_exit_witness :
  (enabled checked Require
   ∧ line_feeds (site_file here) = 0%nat
   ∧ line_feeds (site_function here) = 0%nat
   ∧ line_feeds "not too large" = 0%nat
   ∧ line_feeds "x < 3" = 0%nat)
  ∧ (∃ line final,
        check (wording := plain_wording) Require checked here "not too large" false "x < 3" quiet
        = exit (wording := plain_wording) EXIT_FAILURE (emit line quiet)
        ∧ exit (wording := plain_wording) EXIT_FAILURE (emit line quiet)
          = Exits EXIT_FAILURE final
        ∧ one_line line
        ∧ occurs_in (site_file here) line
        ∧ occurs_in (decimal (site_line here)) line
        ∧ (names_function Require = true → occurs_in (site_function here) line)
        ∧ occurs_in "not too large" line
        ∧ occurs_in "x < 3" line)
  ∧ check (wording := plain_wording) Require checked here "not too large" true "x < 3" quiet
    = Returns tt quiet.
Proof.
  split; [repeat split; reflexivity|].
  apply (@check_one_line_then_exit plain_wording Require checked here
           "not too large" "x < 3" quiet); reflexivity.
Defined.

(** C3, as stated, fails: a description that holds a line feed makes the
    failed [assert] write two lines. *)
Lemma assert_writes_two_lines :
  ∃ final,
    assert (wording := plain_wording) checked here
      ("too" +:+ newline +:+ "large") false "x < 3" quiet
    = Exits EXIT_FAILURE final
    ∧ line_feeds (stderr final) = 2%nat
    ∧ ¬ one_line (stderr final).
Proof.
  eexists. split; [vm_compute; reflexivity|].
  split; [vm_compute; reflexivity|].
  intros H%one_line_feeds. vm_compute in H. discriminate.
Qed.

Lemma diagnostic_formats_witness :
  (NO_ASSERT checked = false ∧ NO_REQUIRE checked = false ∧ NO_ENSURE checked = false)
  ∧ stderr_of (assert (wording := plain_wording) checked here "not too large" false "x < 3" quiet)
    = Some ("myfile.c, line 18: assertion " +:+ quote +:+ "not too large" +:+ quote
            +:+ " (x < 3) violated" +:+ newline)
  ∧ stderr_of (require_x (wording := plain_wording) checked here "not too large" false "x == 3" quiet)
    = Some ("myfile.c, line 18: myfunction's precondition " +:+ quote
            +:+ "not too large" +:+ quote +:+ " violated: x == 3" +:+ newline)
  ∧ stderr_of (ensure (wording := plain_wording) checked here "not negative" false "result >= 0" quiet)
    = Some ("myfile.c, line 18: myfunction's postcondition " +:+ quote
            +:+ "not negative" +:+ quote +:+ " (result >= 0) violated" +:+ newline).
Proof.
  split; [repeat split|].
  destruct (@diagnostic_formats plain_wording checked here "not too large"
              "x < 3" "x == 3" quiet) as (Ha & Hr & _).
  destruct (@diagnostic_formats plain_wording checked here "not negative"
              "result >= 0" "" quiet) as (_ & _ & He).
  destruct (Ha eq_refl) as [-> _]. destruct (Hr eq_refl) as [_ ->].
  destruct (He eq_refl) as [-> _].
  repeat split.
Defined.

(** ** Quantifier macros *)

(** The scopes at the start of a macro's loop when [init] does not mention
    [result], and the value read at its end. *)
Lemma results_at_loop_start {S : Type} (init : S → S) (v : Z) (st : Scoped S) :
  results (step_without_result init (enter_scope (declare_result v (enter_scope st))))
  = None :: Some v :: results st.
Proof. reflexivity. Qed.

Lemma others_at_loop_start {S : Type} (init : S → S) (v : Z) (st : Scoped S) :
  others (step_without_result init (enter_scope (declare_result v (enter_scope st))))
  = init (others st).
Proof. reflexivity. Qed.

Lemma result_value_after {S : Type} (after : Scoped S) (v : Z) (rs : list (option Z)) :
  results after = None :: Some v :: rs →
  result_value (leave_scope after) = v.
Proof. unfold result_value, leave_scope. cbn. by intros ->. Qed.

Lemma wrap_int_in_range (z : Z) : INT_MIN ≤ z ≤ INT_MAX → wrap_int z = z.
Proof.
  unfold wrap_int, INT_MIN, INT_MAX. intros Hz.
  rewrite Z.mod_small by lia. lia.
Qed.

Lemma wrap_int_add (a b : Z) : wrap_int (wrap_int a + b) = wrap_int (a + b).
Proof.
  unfold wrap_int, INT_MIN.
  replace ((a - -2147483648) mod 2 ^ 32 + -2147483648 + b - -2147483648)
    with ((a - -2147483648) mod 2 ^ 32 + b) by lia.
  replace (a + b - -2147483648) with ((a - -2147483648) + b) by lia.
  by rewrite Zplus_mod_idemp_l.
Qed.

Section Iteration.

Context {S : Type}.
Variables (init : S → S) (has_more_steps : S → bool) (do_step : S → S)
  (condition : S → bool).

Lemma state_at_succ (s : S) (k : nat) :
  state_at s do_step (Datatypes.S k) = state_at (do_step s) do_step k.
Proof. unfold state_at. apply Nat.iter_succ_r. Qed.

Lemma has_steps_zero (s : S) :
  has_steps s has_more_steps do_step 0 ↔ has_more_steps s = false.
Proof.
  unfold has_steps. cbn. split; [by intros [_ ?]|].
  intros ?. split; [lia | done].
Qed.

Lemma has_steps_succ (s : S) (n : nat) :
  has_steps s has_more_steps do_step (Datatypes.S n)
  ↔ has_more_steps s = true ∧ has_steps (do_step s) has_more_steps do_step n.
Proof.
  unfold has_steps. split.
  - intros [Hlt Hend]. split; [apply (Hlt 0%nat); lia|]. split.
    + intros k Hk. rewrite <- state_at_succ. apply Hlt. lia.
    + by rewrite <- state_at_succ.
  - intros (H0 & Hlt & Hend). split.
    + intros [|k] Hk; [exact H0|]. rewrite state_at_succ. apply Hlt. lia.
    + by rewrite state_at_succ.
Qed.

Lemma holds_in_succ (s : S) (n : nat) :
  holds_in s do_step condition (Datatypes.S n)
  = ((if condition s then 1 else 0)
     + holds_in (do_step s) do_step condition n)%nat.
Proof.
  induction n as [|n IH].
  - cbn. lia.
  - cbn [holds_in] in *. rewrite IH, state_at_succ. lia.
Qed.

(** The loop of [forall] with [n] steps to go, for arguments that do not
    mention [result]: it ends, with the variables named [result] as they
    were when the condition holds at every step and with [result = false]
    done otherwise. *)
Lemma forall_loop_steps (n : nat) : ∀ (st : Scoped S) (fuel : nat),
  has_steps (others st) has_more_steps do_step n → (n < fuel)%nat →
  ∃ after,
    forall_loop fuel (test_without_result has_more_steps)
      (step_without_result do_step) (test_without_result condition) st
    = Some after
    ∧ ((∀ k, (k < n)%nat → condition (state_at (others st) do_step k) = true)
       ∧ results after = results st
       ∨ (¬ ∀ k, (k < n)%nat → condition (state_at (others st) do_step k) = true)
         ∧ results after = assign_innermost 0 (results st)).
Proof.
  induction n as [|n IH]; intros st fuel Hsteps Hfuel;
    (destruct fuel as [|fuel]; [lia|]); cbn [forall_loop];
    change (test_without_result has_more_steps st) with (has_more_steps (others st));
    change (test_without_result condition st) with (condition (others st)).
  - apply has_steps_zero in Hsteps. rewrite Hsteps. exists st.
    split; [done|]. left. split; [|done]. lia.
  - apply has_steps_succ in Hsteps as [Hmore Hsteps]. rewrite Hmore.
    destruct (condition (others st)) eqn:Hc; cbn [negb].
    + destruct (IH (step_without_result do_step st) fuel Hsteps ltac:(lia))
        as (after & -> & Hafter).
      exists after. split; [done|]. cbn [step_without_result others results] in Hafter.
      destruct Hafter as [[Hall Hr]|[Hnot Hr]]; [left | right]; (split; [|done]).
      * intros [|k] Hk; [exact Hc|]. rewrite state_at_succ. apply Hall. lia.
      * intros Hall. apply Hnot. intros k Hk.
        rewrite <- state_at_succ. apply Hall. lia.
    + eexists. split; [done|]. right. split; [|done].
      intros Hall. specialize (Hall 0%nat ltac:(lia)). cbn in Hall. congruence.
Qed.

(** The loop of [exists] with [n] steps to go. *)
Lemma exists_loop_steps (n : nat) : ∀ (st : Scoped S) (fuel : nat),
  has_steps (others st) has_more_steps do_step n → (n < fuel)%nat →
  ∃ after,
    exists_loop fuel (test_without_result has_more_steps)
      (step_without_result do_step) (test_without_result condition) st
    = Some after
    ∧ ((∃ k, (k < n)%nat ∧ condition (state_at (others st) do_step k) = true)
       ∧ results after = assign_innermost 1 (results st)
       ∨ (¬ ∃ k, (k < n)%nat ∧ condition (state_at (others st) do_step k) = true)
         ∧ results after = results st).
Proof.
  induction n as [|n IH]; intros st fuel Hsteps Hfuel;
    (destruct fuel as [|fuel]; [lia|]); cbn [exists_loop];
    change (test_without_result has_more_steps st) with (has_more_steps (others st));
    change (test_without_result condition st) with (condition (others st)).
  - apply has_steps_zero in Hsteps. rewrite Hsteps. exists st.
    split; [done|]. right. split; [|done]. intros (k & ? & _). lia.
  - apply has_steps_succ in Hsteps as [Hmore Hsteps]. rewrite Hmore.
    destruct (condition (others st)) eqn:Hc.
    + eexists. split; [done|]. left. split; [|done].
      exists 0%nat. split; [lia | exact Hc].
    + destruct (IH (step_without_result do_step st) fuel Hsteps ltac:(lia))
        as (after & -> & Hafter).
      exists after. split; [done|]. cbn [step_without_result others results] in Hafter.
      destruct Hafter as [[(k & Hk & Hck) Hr]|[Hnot Hr]]; [left | right];
        (split; [|done]).
      * exists (Datatypes.S k). split; [lia|]. by rewrite state_at_succ.
      * intros (k & Hk & Hck). apply Hnot.
        destruct k as [|k]; [cbn in Hck; congruence|].
        exists k. split; [lia|]. by rewrite <- state_at_succ.
Qed.

(** The loop of [countif] with [n] steps to go: the macro's counter goes
    up by the number of steps at which the condition holds, within the
    range of [int]. *)
Lemma countif_loop_steps (n : nat) :
  ∀ (st : Scoped S) (fuel : nat) (count : Z) (outer : list (option Z)),
  has_steps (others st) has_more_steps do_step n → (n < fuel)%nat →
  results st = None :: Some (wrap_int count) :: outer →
  ∃ after,
    countif_loop fuel (test_without_result has_more_steps)
      (step_without_result do_step) (test_without_result condition) st
    = Some after
    ∧ results after
      = None :: Some (wrap_int (count + Z.of_nat (holds_in (others st) do_step condition n)))
          :: outer.
Proof.
  induction n as [|n IH]; intros st fuel count outer Hsteps Hfuel Hr;
    (destruct fuel as [|fuel]; [lia|]); cbn [countif_loop];
    change (test_without_result has_more_steps st) with (has_more_steps (others st));
    change (test_without_result condition st) with (condition (others st)).
  - apply has_steps_zero in Hsteps. rewrite Hsteps. exists st.
    split; [done|]. cbn. by rewrite Z.add_0_r.
  - apply has_steps_succ in Hsteps as [Hmore Hsteps]. rewrite Hmore.
    rewrite holds_in_succ.
    destruct (condition (others st)).
    + destruct (IH (step_without_result do_step
                      (assign_result (wrap_int (result_value st + 1)) st))
                  fuel (count + 1) outer Hsteps ltac:(lia)) as (after & -> & Hafter).
      { cbn [step_without_result assign_result results]. rewrite Hr.
        unfold result_value. rewrite Hr. cbn. by rewrite wrap_int_add. }
      exists after. split; [done|]. rewrite Hafter.
      cbn [step_without_result assign_result others]. do 4 f_equal. lia.
    + destruct (IH (step_without_result do_step st) fuel count outer Hsteps
                  ltac:(lia) Hr) as (after & -> & Hafter).
      exists after. split; [done|]. rewrite Hafter.
      cbn [step_without_result others]. do 4 f_equal.
Qed.

Lemma countif_steps (st : Scoped S) (n fuel : nat) :
  has_steps (init (others st)) has_more_steps do_step n → (n < fuel)%nat →
  countif fuel (step_without_result init) (test_without_result has_more_steps)
    (step_without_result do_step) (test_without_result condition) st
  = Some (wrap_int (Z.of_nat (holds_in (init (others st)) do_step condition n))).
Proof.
  intros Hsteps Hfuel. unfold countif.
  destruct (countif_loop_steps n
              (step_without_result init
                 (enter_scope (declare_result 0 (enter_scope st))))
              fuel 0 (results st) Hsteps Hfuel (results_at_loop_start init 0 st))
    as (after & -> & Hafter).
  rewrite others_at_loop_start in Hafter.
  by rewrite (result_value_after _ _ _ Hafter).
Qed.

Lemma forall_steps (st : Scoped S) (n fuel : nat) :
  has_steps (init (others st)) has_more_steps do_step n → (n < fuel)%nat →
  ∃ b, forall_ fuel (step_without_result init) (test_without_result has_more_steps)
         (step_without_result do_step) (test_without_result condition) st
       = Some b
       ∧ (b = true
          ↔ ∀ k, (k < n)%nat →
              condition (state_at (init (others st)) do_step k) = true).
Proof.
  intros Hsteps Hfuel. unfold forall_.
  destruct (forall_loop_steps n
              (step_without_result init
                 (enter_scope (declare_result 1 (enter_scope st))))
              fuel Hsteps Hfuel) as (after & -> & Hafter).
  rewrite results_at_loop_start, others_at_loop_start in Hafter.
  destruct Hafter as [[Hall Hr]|[Hnot Hr]];
    rewrite (result_value_after _ _ _ Hr); eexists; (split; [reflexivity|]);
    cbn; split; done.
Qed.

Lemma exists_steps (st : Scoped S) (n fuel : nat) :
  has_steps (init (others st)) has_more_steps do_step n → (n < fuel)%nat →
  ∃ b, exists_ fuel (step_without_result init) (test_without_result has_more_steps)
         (step_without_result do_step) (test_without_result condition) st
       = Some b
       ∧ (b = true
          ↔ ∃ k, (k < n)%nat
                 ∧ condition (state_at (init (others st)) do_step k) = true).
Proof.
  intros Hsteps Hfuel. unfold exists_.
  destruct (exists_loop_steps n
              (step_without_result init
                 (enter_scope (declare_result 0 (enter_scope st))))
              fuel Hsteps Hfuel) as (after & -> & Hafter).
  rewrite results_at_loop_start, others_at_loop_start in Hafter.
  destruct Hafter as [[Hsome Hr]|[Hnot Hr]];
    rewrite (result_value_after _ _ _ Hr); eexists; (split; [reflexivity|]);
    cbn; split; done.
Qed.

(** C5 (amended).  For arguments that do not mention the name [result],
    over an iteration of [n] steps: [forall] returns true exactly when the
    condition holds at every step, [exists] returns true exactly when it
    holds at some step, and [countif] returns the number of steps at which
    it holds provided that number is at most [INT_MAX]. *)
Theorem quantifiers_over_iteration (st : Scoped S) (n fuel : nat) :
  has_steps (init (others st)) has_more_steps do_step n → (n < fuel)%nat →
  (∃ b, forall_ fuel (step_without_result init) (test_without_result has_more_steps)
          (step_without_result do_step) (test_without_result condition) st
        = Some b
        ∧ (b = true
           ↔ ∀ k, (k < n)%nat →
               condition (state_at (init (others st)) do_step k) = true))
  ∧ (∃ b, exists_ fuel (step_without_result init) (test_without_result has_more_steps)
            (step_without_result do_step) (test_without_result condition) st
          = Some b
          ∧ (b = true
             ↔ ∃ k, (k < n)%nat
                    ∧ condition (state_at (init (others st)) do_step k) = true))
  ∧ (Z.of_nat (holds_in (init (others st)) do_step condition n) ≤ INT_MAX →
     countif fuel (step_without_result init) (test_without_result has_more_steps)
       (step_without_result do_step) (test_without_result condition) st
     = Some (Z.of_nat (holds_in (init (others st)) do_step condition n))).
Proof.
  intros Hsteps Hfuel. split; [|split].
  - by apply forall_steps.
  - by apply exists_steps.
  - intros Hmax. rewrite (countif_steps st n fuel) by done.
    rewrite wrap_int_in_range; [done|]. unfold INT_MIN. lia.
Qed.

End Iteration.

Section NoSteps.

Context {S : Type}.
Variables (init : S → S) (has_more_steps : S → bool).


End NoSteps.

(** An iteration over the integers below a bound. *)
Lemma state_at_succ_from_zero (k : nat) : state_at 0 Z.succ k = Z.of_nat k.
Proof.
  unfold state_at. induction k as [|k IH]; [reflexivity|].
  rewrite Nat.iter_succ, IH. lia.
Qed.

Lemma below_has_steps (n : nat) : has_steps 0 (below (Z.of_nat n)) Z.succ n.
Proof.
  unfold has_steps, below. split.
  - intros k Hk. rewrite state_at_succ_from_zero. apply Z.ltb_lt. lia.
  - rewrite state_at_succ_from_zero. apply Z.ltb_ge. lia.
Qed.

Lemma holds_in_always {S : Type} (init : S) (do_step : S → S) (n : nat) :
  holds_in init do_step (fun _ => true) n = n.
Proof. induction n as [|n IH]; cbn [holds_in]; lia. Qed.

Lemma quantifiers_over_iteration_witness :
  (has_steps 0 (below 3) Z.succ 3 ∧ (3 < 4)%nat)
  ∧ (∃ b, forall_ 4 (step_without_result (fun _ => 0)) (test_without_result (below 3))
            (step_without_result Z.succ) (test_without_result (fun i => i <? 2))
            (outside 7)
          = Some b
          ∧ (b = true ↔ ∀ k, (k < 3)%nat → (state_at 0 Z.succ k <? 2) = true))
  ∧ (∃ b, exists_ 4 (step_without_result (fun _ => 0)) (test_without_result (below 3))
            (step_without_result Z.succ) (test_without_result (fun i => i <? 2))
            (outside 7)
          = Some b
          ∧ (b = true ↔ ∃ k, (k < 3)%nat ∧ (state_at 0 Z.succ k <? 2) = true))
  ∧ (Z.of_nat (holds_in 0 Z.succ (fun i => i <? 2) 3) ≤ INT_MAX →
     countif 4 (step_without_result (fun _ => 0)) (test_without_result (below 3))
       (step_without_result Z.succ) (test_without_result (fun i => i <? 2))
       (outside 7)
     = Some (Z.of_nat (holds_in 0 Z.succ (fun i => i <? 2) 3))).
Proof.
  assert (has_steps 0 (below 3) Z.succ 3) as Hsteps by apply (below_has_steps 3).
  split; [split; [exact Hsteps | lia]|].
  apply (quantifiers_over_iteration (fun _ => 0) (below 3) Z.succ (fun i => i <? 2)
           (outside 7) 3 4 Hsteps); lia.
Defined.


(** Counting over [i = 0; i < bound; i++] with a condition that always
    holds. *)
Lemma countif_always_below (n : nat) (s : Z) :
  countif (Datatypes.S n) (step_without_result (fun _ => 0))
    (test_without_result (below (Z.of_nat n))) (step_without_result Z.succ)
    (test_without_result (fun _ => true)) (outside s)
  = Some (wrap_int (Z.of_nat n)).
Proof.
  rewrite (countif_steps (fun _ => 0) (below (Z.of_nat n)) Z.succ (fun _ => true)
             (outside s) n (Datatypes.S n) (below_has_steps n) (Nat.lt_succ_diag_r n)).
  cbn [outside others]. by rewrite holds_in_always.
Qed.

Lemma countif_overflow_at (n : nat) :
  Z.of_nat n = 2147483648 →
  has_steps 0 (below 2147483648) Z.succ n
  ∧ countif (Datatypes.S n) (step_without_result (fun _ => 0))
      (test_without_result (below 2147483648)) (step_without_result Z.succ)
      (test_without_result (fun _ => true)) (outside 0)
    = Some INT_MIN
  ∧ Z.of_nat (holds_in 0 Z.succ (fun _ => true) n) = 2147483648.
Proof.
  intros Hn. pose proof (below_has_steps n) as Hsteps.
  pose proof (countif_always_below n 0) as Hcount.
  rewrite Hn in Hsteps, Hcount. split; [exact Hsteps|]. split.
  - rewrite Hcount. reflexivity.
  - by rewrite holds_in_always.
Qed.

(** C5, as stated, fails in two ways.  The client's expressions stand in
    the scope of the macro's own [result]: in
    [forall(int result = 0, result < 3, result++, a[result] > 0)] the
    client's loop variable hides it, the macro's [result = false] goes to
    the loop variable, and [forall] returns true though the condition fails
    at the first step.  And [countif] counts in an [int]: over the 2^31
    steps of [long i = 0; i < 2147483648; i++] with a condition that always
    holds, the counter does not end at 2^31. *)
Lemma quantifiers_fail_as_claimed :
  (let a := fun _ : Z => 0 in
   let init := declare_result (S := unit) 0 in
   let has_more_steps := fun st : Scoped unit => result_value st <? 3 in
   let do_step := fun st : Scoped unit => assign_result (result_value st + 1) st in
   let condition := fun st : Scoped unit => 0 <? a (result_value st) in
   let start := init (enter_scope (declare_result 1 (enter_scope (outside tt)))) in
   has_more_steps start = true
   ∧ condition start = false
   ∧ forall_ 4 init has_more_steps do_step condition (outside tt) = Some true)
  ∧ ∃ (n fuel : nat) (result : Z),
      has_steps 0 (below 2147483648) Z.succ n
      ∧ countif fuel (step_without_result (fun _ => 0))
          (test_without_result (below 2147483648)) (step_without_result Z.succ)
          (test_without_result (fun _ => true)) (outside 0)
        = Some result
      ∧ Z.of_nat (holds_in 0 Z.succ (fun _ => true) n) = 2147483648
      ∧ result ≠ 2147483648.
Proof.
  split; [repeat split|].
  assert (∃ n : nat, Z.of_nat n = 2147483648) as [n Hn].
  { exists (Z.to_nat 2147483648). apply Z2Nat.id. discriminate. }
  destruct (countif_overflow_at n Hn) as (Hsteps & Hcount & Hholds).
  exists n, (Datatypes.S n), INT_MIN.
  split; [exact Hsteps|]. split; [exact Hcount|]. split; [exact Hholds|].
  discriminate.
Qed.


(** ** Tracked allocation *)

Lemma allocated_not_released_nil (block : Z) : ¬ allocated_not_released [] block.
Proof. intros (earlier & later & H & _). by destruct earlier. Qed.

Lemma allocated_not_released_cons (e : Event) (history : list Event) (block : Z) :
  allocated_not_released (e :: history) block
  ↔ allocated_not_released history block
    ∨ (e = Allocated block ∧ Released block ∉ history).
Proof.
  split.
  - intros (earlier & later & H & Hlater). destruct earlier as [|e' earlier].
    + injection H as -> ->. by right.
    + injection H as -> ->. left. by exists earlier, later.
  - intros [(earlier & later & -> & Hlater)|[-> Hnot]].
    + by exists (e :: earlier), later.
    + by exists [], history.
Qed.

Lemma allocated_not_released_app (events history : list Event) (block : Z) :
  allocated_not_released (events ++ history) block
  ↔ allocated_not_released history block
    ∨ (allocated_not_released events block ∧ Released block ∉ history).
Proof.
  induction events as [|e events IH]; cbn [app].
  - split; [by left|]. intros [?|[H _]]; [done|].
    by apply allocated_not_released_nil in H.
  - rewrite !allocated_not_released_cons, IH, not_elem_of_app. tauto.
Qed.

Ltac not_in :=
  rewrite ?not_elem_of_cons; repeat split;
  first [congruence | apply not_elem_of_nil].

Section AllocatorFacts.

Context {wording : Wording}.


(** An allocating call either ends the process or returns a block that is
    not [NULL] and registers it. *)
Lemma allocation_failure_exits site size p :
  ∃ final, allocation_failure site size p = Exits EXIT_FAILURE final.
Proof. unfold allocation_failure, bind, fprintf_stderr_va, base_exit. eauto. Qed.

Lemma base_malloc_cases file function line size p :
  base_malloc file function line size p
  = allocation {| site_file := file; site_function := function; site_line := line |}
      size None p.
Proof.
  unfold base_malloc, allocation, bind, platform_allocate.
  destruct (platform p) as [|answer later]; [reflexivity|].
  by destruct (answer =? NULL).
Qed.

Lemma base_calloc_cases file function line num size p :
  base_calloc file function line num size p
  = allocation {| site_file := file; site_function := function; site_line := line |}
      (num * size) None p.
Proof.
  unfold base_calloc, allocation, bind, platform_allocate.
  destruct (platform p) as [|answer later]; [reflexivity|].
  by destruct (answer =? NULL).
Qed.

Lemma base_realloc_cases file function line ptr size p :
  base_realloc file function line ptr size p
  = allocation {| site_file := file; site_function := function; site_line := line |}
      size (Some ptr) p.
Proof.
  unfold base_realloc, allocation, bind, platform_allocate.
  destruct (platform p) as [|answer later]; [reflexivity|].
  by destruct (answer =? NULL).
Qed.

Lemma allocation_inv site size stale p block p' :
  allocation site size stale p = Returns block p' →
  block ≠ NULL
  ∧ ∃ r, ledger p' = <[block := r]> (match stale with
                                     | Some ptr => delete ptr (ledger p)
                                     | None => ledger p
                                     end).
Proof.
  unfold allocation. destruct (platform p) as [|answer later].
  - destruct (allocation_failure_exits site size p) as [final ->]. done.
  - destruct (Z.eqb_spec answer NULL) as [->|Hne].
    + destruct (allocation_failure_exits site size (set_platform later p))
        as [final ->]. done.
    + intros [= <- <-]. split; [done|]. eauto.
Qed.

Lemma base_malloc_inv file function line size p block p' :
  base_malloc file function line size p = Returns block p' →
  block ≠ NULL ∧ ∃ r, ledger p' = <[block := r]> (ledger p).
Proof. rewrite base_malloc_cases. apply allocation_inv. Qed.

Lemma base_calloc_inv file function line num size p block p' :
  base_calloc file function line num size p = Returns block p' →
  block ≠ NULL ∧ ∃ r, ledger p' = <[block := r]> (ledger p).
Proof. rewrite base_calloc_cases. apply allocation_inv. Qed.

Lemma base_realloc_inv file function line ptr size p block p' :
  base_realloc file function line ptr size p = Returns block p' →
  block ≠ NULL ∧ ∃ r, ledger p' = <[block := r]> (delete ptr (ledger p)).
Proof. rewrite base_realloc_cases. apply allocation_inv. Qed.

Lemma base_free_returns block p :
  base_free block p
  = Returns tt (if block =? NULL then p else set_ledger (delete block (ledger p)) p).
Proof. unfold base_free. by destruct (block =? NULL). Qed.

(** One call keeps the ledger in step with the events it stands for. *)
Lemma perform_ledger c p events p' block :
  perform c p = Returns events p' →
  is_Some (ledger p' !! block)
  ↔ allocated_not_released events block
    ∨ (is_Some (ledger p !! block) ∧ Released block ∉ events).
Proof.
  destruct c as [site size|site num size|site ptr size|ptr];
    cbn [perform]; unfold bind.
  - unfold xmalloc. destruct (base_malloc _ _ _ _ p) as [b q| |] eqn:Hm; [|done..].
    apply base_malloc_inv in Hm as (Hb & r & Hl). cbn. intros [= <- <-].
    rewrite Hl, lookup_insert, allocated_not_released_cons.
    case_decide as Hd.
    + subst. split; [|by eauto]. intros _. left. right.
      split; [done | apply not_elem_of_nil].
    + split.
      * intros H. right. split; [done|]. not_in.
      * intros [[H|[[= ?] _]]|[H _]]; [|done..].
        by apply allocated_not_released_nil in H.
  - unfold xcalloc. destruct (base_calloc _ _ _ _ _ p) as [b q| |] eqn:Hm; [|done..].
    apply base_calloc_inv in Hm as (Hb & r & Hl). cbn. intros [= <- <-].
    rewrite Hl, lookup_insert, allocated_not_released_cons.
    case_decide as Hd.
    + subst. split; [|by eauto]. intros _. left. right.
      split; [done | apply not_elem_of_nil].
    + split.
      * intros H. right. split; [done|]. not_in.
      * intros [[H|[[= ?] _]]|[H _]]; [|done..].
        by apply allocated_not_released_nil in H.
  - unfold xrealloc. destruct (base_realloc _ _ _ _ _ p) as [b q| |] eqn:Hm; [|done..].
    apply base_realloc_inv in Hm as (Hb & r & Hl). cbn. intros [= <- <-].
    rewrite Hl, lookup_insert, !allocated_not_released_cons.
    case_decide as Hd.
    + subst. split; [|by eauto]. intros _. left. left. right.
      split; [done | apply not_elem_of_nil].
    + rewrite lookup_delete. case_decide as Hp.
      * subst. split; [by intros [? [=]]|].
        intros [[[H|[[= ?] _]]|[[= ?] _]]|[_ H]]; [|done..|].
        -- by apply allocated_not_released_nil in H.
        -- exfalso. apply H. apply list_elem_of_here.
      * split.
        -- intros H. right. split; [done|]. not_in.
        -- intros [[[H|[[= ?] _]]|[[= ?] _]]|[H _]]; [|done..].
           by apply allocated_not_released_nil in H.
  - unfold free. rewrite base_free_returns. cbn. intros [= <- <-].
    destruct (Z.eqb_spec ptr NULL) as [->|Hne].
    + split; [intros H; right; split; [done | apply not_elem_of_nil]|].
      intros [H|[H _]]; [|done]. by apply allocated_not_released_nil in H.
    + cbn. rewrite lookup_delete, allocated_not_released_cons. case_decide as Hd.
      * subst. split; [by intros [? [=]]|].
        intros [[H|[[=] _]]|[_ H]].
        -- by apply allocated_not_released_nil in H.
        -- exfalso. apply H. apply list_elem_of_here.
      * split.
        -- intros H. right. split; [done|]. not_in.
        -- intros [[H|[[=] _]]|[H _]]; [|done].
           by apply allocated_not_released_nil in H.
Qed.

(** A run of calls keeps the ledger in step with its history. *)
Lemma run_ledger calls : ∀ p history p' block,
  run calls p = Returns history p' →
  is_Some (ledger p' !! block)
  ↔ allocated_not_released history block
    ∨ (is_Some (ledger p !! block) ∧ Released block ∉ history).
Proof.
  induction calls as [|c calls IH]; intros p history p' block; cbn [run].
  - intros [= <- <-]. split; [intros H; right; split; [done | apply not_elem_of_nil]|].
    intros [H|[H _]]; [|done]. by apply allocated_not_released_nil in H.
  - unfold bind at 1. destruct (perform c p) as [events q| |] eqn:Hc; [|done..].
    unfold bind. destruct (run calls q) as [later q'| |] eqn:Hr; [|done..].
    cbn. intros [= <- <-].
    rewrite (IH _ _ _ block Hr), (perform_ledger _ _ _ _ block Hc).
    rewrite allocated_not_released_app, not_elem_of_app. tauto.
Qed.

(** C1.  A block returned by the tracked allocator for a size that is not
    negative has no record in the ledger once it has been released; and at
    every point of a run that started with an empty ledger, the ledger has a
    record for a block exactly when the tracked allocator has handed the
    block out and the block has not been released since. *)
Theorem ledger_tracks_live_blocks :
  (∀ site n p block p',
      0 ≤ n → xmalloc site n p = Returns block p' →
      is_Some (ledger p' !! block)
      ∧ ∃ p'', free block p' = Returns tt p'' ∧ ledger p'' !! block = None)
  ∧ (∀ calls p history p' block,
      ledger p = ∅ → run calls p = Returns history p' →
      is_Some (ledger p' !! block) ↔ allocated_not_released history block).
Proof.
  split.
  - intros site n p block p' _ Hm. unfold xmalloc in Hm.
    apply base_malloc_inv in Hm as (Hb & r & Hl). split.
    + rewrite Hl, lookup_insert_eq. eauto.
    + unfold free. rewrite base_free_returns.
      destruct (Z.eqb_spec block NULL); [done|].
      eexists. split; [reflexivity|]. cbn. apply lookup_delete_eq.
  - intros calls p history p' block Hempty Hrun.
    rewrite (run_ledger _ _ _ _ block Hrun), Hempty, lookup_empty.
    split; [intros [H|[[? [=]] _]]; exact H | by left].
Qed.


End AllocatorFacts.

Lemma ledger_tracks_live_blocks_witness :
  (0 ≤ 16
   ∧ (∃ p', xmalloc (wording := plain_wording) here 16 quiet = Returns 4096 p')
   ∧ ledger quiet = ∅
   ∧ ∃ p', run (wording := plain_wording)
             [CallMalloc here 16; CallMalloc here 100; CallFree 4096] quiet
           = Returns [Allocated 4096; Allocated 8192; Released 4096] p')
  ∧ (∀ p', xmalloc (wording := plain_wording) here 16 quiet = Returns 4096 p' →
       is_Some (ledger p' !! 4096)
       ∧ ∃ p'', free 4096 p' = Returns tt p''
                ∧ ledger p'' !! 4096 = None)
  ∧ (∀ p' block,
       run (wording := plain_wording)
         [CallMalloc here 16; CallMalloc here 100; CallFree 4096] quiet
       = Returns [Allocated 4096; Allocated 8192; Released 4096] p' →
       is_Some (ledger p' !! block)
       ↔ allocated_not_released
           [Allocated 4096; Allocated 8192; Released 4096] block).
Proof.
  split.
  - split; [lia|]. split; [eexists; reflexivity|].
    split; [reflexivity|]. eexists. reflexivity.
  - destruct (@ledger_tracks_live_blocks plain_wording) as [Hround Hrun]. split.
    + intros p' Hm. apply (Hround here 16 quiet 4096 p'); [lia | exact Hm].
    + intros p' block Hr. apply (Hrun _ quiet _ p' block eq_refl Hr).
Defined.



(** ** Containers *)

Section AccessorFacts.

Context {wording : Wording}.
Context {C A : Type} `{Container C A}.

Lemma in_range_true (c : C) (index : Z) :
  0 ≤ index < length_of c → (0 <=? index) && (index <? length_of c) = true.
Proof. rewrite andb_true_iff, Z.leb_le, Z.ltb_lt. done. Qed.

Lemma in_range_false (c : C) (index : Z) :
  index < 0 ∨ length_of c ≤ index → (0 <=? index) && (index <? length_of c) = false.
Proof. rewrite andb_false_iff, Z.leb_gt, Z.ltb_ge. done. Qed.

Lemma cell_in_range (c : C) (index : Z) :
  well_formed c → 0 ≤ index < length_of c →
  (index <? 0) = false ∧ ∃ x, cells c !! Z.to_nat index = Some x.
Proof.
  unfold well_formed. intros Hwf [? ?]. split; [by apply Z.ltb_ge|].
  apply lookup_lt_is_Some_2. lia.
Qed.

(** The failed bounds check of an accessor. *)
Lemma bounds_check_fails cfg site p :
  NO_REQUIRE cfg = false →
  ∃ final,
    require cfg site "index in range" false "index >= 0 && index < length" p
    = Exits EXIT_FAILURE final
    ∧ occurs_in (spec_precondition site) (stderr final).
Proof.
  intros E. rewrite require_violated by done.
  set (line := spec_plain site (spec_precondition site) "index in range"
                 "index >= 0 && index < length" +:+ newline).
  destruct (exit_stderr EXIT_FAILURE (emit line p)) as (final & -> & Herr & _).
  exists final. split; [done|]. rewrite Herr.
  destruct (spec_plain_occurs site (spec_precondition site) "index in range"
              "index >= 0 && index < length") as (_ & _ & Hsub & _).
  eapply occurs_in_trans; [exact Hsub|].
  exists (stderr p), (exit_report (emit line p)). cbn [emit set_stderr stderr].
  subst line. by rewrite !append_assoc.
Qed.

(** C2.  With preconditions compiled in, for a container of length [L]:
    [get] and [set] at an index from 0 to [L - 1] return, [get] with the
    element at that index and [set] with the container that holds the new
    value there; at an index below 0 or from [L] on, both end the process
    with the failure status after a precondition diagnostic and return
    nothing. *)
Theorem accessors_check_bounds cfg site (c : C) (index : Z) (value : A) p :
  NO_REQUIRE cfg = false → well_formed c →
  (0 ≤ index < length_of c →
     (∃ x, get cfg site c index p = Returns x p
           ∧ cells c !! Z.to_nat index = Some x)
     ∧ (∃ c', set cfg site c index value p = Returns c' p
              ∧ length_of c' = length_of c
              ∧ cells c' = <[Z.to_nat index := value]> (cells c)
              ∧ cells c' !! Z.to_nat index = Some value))
  ∧ (index < 0 ∨ length_of c ≤ index →
     ∃ final,
       get cfg site c index p = Exits EXIT_FAILURE final
       ∧ set cfg site c index value p = Exits EXIT_FAILURE final
       ∧ occurs_in (spec_precondition site) (stderr final)).
Proof.
  intros E Hwf. split.
  - intros Hin. destruct (cell_in_range c index Hwf Hin) as (Hneg & x & Hx).
    unfold get, set, bind. rewrite (in_range_true c index Hin).
    change (require cfg site "index in range" true
              "index >= 0 && index < length" p)
      with (check Require cfg site "index in range" true
              "index >= 0 && index < length" p).
    rewrite check_holds, Hneg, Hx. split.
    + by exists x.
    + eexists. split; [reflexivity|].
      rewrite length_of_store, cells_store. split; [done|]. split; [done|].
      apply list_lookup_insert_eq. by eapply lookup_lt_Some.
  - intros Hout. destruct (bounds_check_fails cfg site p E) as (final & Hreq & Hocc).
    exists final. unfold get, set, bind.
    rewrite (in_range_false c index Hout), Hreq. done.
Qed.

End AccessorFacts.

Lemma accessors_check_bounds_witness :
  let a : Array Z := {| array_n := 5; array_cells := [10; 20; 30; 40; 50] |} in
  (NO_REQUIRE checked = false ∧ well_formed a ∧ 0 ≤ 2 < length_of a
   ∧ (5 < 0 ∨ length_of a ≤ 5))
  ∧ (∃ x, get (wording := plain_wording) checked here a 2 quiet = Returns x quiet
          ∧ cells a !! Z.to_nat 2 = Some x)
  ∧ (∃ final,
       get (wording := plain_wording) checked here a 5 quiet = Exits EXIT_FAILURE final
       ∧ set (wording := plain_wording) checked here a 5 42 quiet
         = Exits EXIT_FAILURE final
       ∧ occurs_in (spec_precondition here) (stderr final)).
Proof.
  intros a.
  assert (NO_REQUIRE checked = false) as E by reflexivity.
  assert (well_formed a) as Hwf by reflexivity.
  assert (0 ≤ 2 < length_of a) as Hin by (cbn; lia).
  assert (5 < 0 ∨ length_of a ≤ 5) as Hout by (right; cbn; lia).
  split; [done|].
  destruct (@accessors_check_bounds plain_wording _ _ _ checked here a 2 42 quiet E Hwf)
    as [Hok _].
  destruct (@accessors_check_bounds plain_wording _ _ _ checked here a 5 42 quiet E Hwf)
    as [_ Hfail].
  split; [exact (proj1 (Hok Hin)) | exact (Hfail Hout)].
Defined.

(** ** Macro replacement *)

Lemma and_then_mono {A B} (a a' : Result A) (k k' : A → Result B) :
  (a ≠ OutOfFuel → a' = a) →
  (∀ x, a = Done x → k x ≠ OutOfFuel → k' x = k x) →
  and_then a k ≠ OutOfFuel → and_then a' k' = and_then a k.
Proof.
  intros Ha Hk. destruct a as [x| |]; cbn; intros Hne.
  - rewrite Ha by done. cbn. by apply Hk.
  - by rewrite Ha.
  - done.
Qed.

Lemma for_each_mono {A B} (f g : A → Result B) (l : list A) :
  (∀ a, f a ≠ OutOfFuel → g a = f a) →
  for_each f l ≠ OutOfFuel → for_each g l = for_each f l.
Proof.
  intros Hfg. induction l as [|a l IH]; [done|]. cbn [for_each].
  apply and_then_mono; [apply Hfg|]. intros b _.
  apply and_then_mono; [apply IH|]. done.
Qed.

(** More fuel does not change a result. *)
Lemma expand_mono (table : gmap string macro) (fuel : nat) :
  ∀ (fuel' : nat) (hide : list string) (ts : list token),
    (fuel ≤ fuel')%nat →
    expand fuel table hide ts ≠ OutOfFuel →
    expand fuel' table hide ts = expand fuel table hide ts.
Proof.
  induction fuel as [|fuel IH]; intros fuel' hide ts Hle; [done|].
  destruct fuel' as [|fuel']; [lia|].
  assert (∀ hide ts, expand fuel table hide ts ≠ OutOfFuel →
            expand fuel' table hide ts = expand fuel table hide ts) as IH'.
  { intros h l. apply IH. lia. }
  clear IH Hle. cbn [expand].
  destruct ts as [|t rest]; [done|].
  destruct t as [x|s|s|s|a];
    try (apply and_then_mono; [apply IH' | done]).
  destruct (if bool_decide (x ∈ hide) then None else table !! x) as [m|];
    [|apply and_then_mono; [apply IH' | done]].
  destruct (parameters m) as [ps|].
  - destruct (after_open_paren rest) as [inside|];
      [|apply and_then_mono; [apply IH' | done]].
    destruct (collect_args 0 [] [] inside) as [[args after]|]; [|done].
    apply and_then_mono; [apply for_each_mono, IH'|]. intros args' _.
    destruct (bind_args ps (variadic m) args) as [raw|]; [|done].
    destruct (bind_args ps (variadic m) args') as [replaced|]; [|done].
    apply and_then_mono; [apply IH'|]. intros body _.
    apply and_then_mono; [apply IH' | done].
  - apply and_then_mono; [apply IH'|]. intros body _.
    apply and_then_mono; [apply IH' | done].
Qed.

Lemma converges_nil table hide : converges table hide [] (Done []).
Proof. exists 1%nat. intros [|fuel] Hle; [lia | reflexivity]. Qed.

(** A token that is passed over. *)
Lemma converges_pass table hide t rest out :
  passes table hide t →
  converges table hide rest (Done out) →
  converges table hide (t :: rest) (Done (t :: out)).
Proof.
  intros Ht [fuel Hrest]. exists (S fuel). intros [|fuel'] Hle; [lia|].
  cbn [expand]. destruct t as [x|s|s|s|a];
    try (rewrite Hrest by lia; reflexivity).
  cbn [passes] in Ht.
  replace (if bool_decide (x ∈ hide) then None else table !! x)
    with (@None macro).
  - rewrite Hrest by lia. reflexivity.
  - case_bool_decide; [done|]. by destruct Ht.
Qed.

Lemma converges_pass_all table hide ts rest out :
  Forall (passes table hide) ts →
  converges table hide rest (Done out) →
  converges table hide (ts ++ rest) (Done (ts ++ out)).
Proof.
  intros Hts Hrest. induction Hts as [|t ts Ht _ IH]; [done|].
  cbn [app]. by apply converges_pass.
Qed.

(** The name of an object-like macro. *)
Lemma converges_object table hide x m rest body out :
  x ∉ hide → table !! x = Some m → parameters m = None →
  converges table (x :: hide) (replacement m) (Done body) →
  converges table hide rest (Done out) →
  converges table hide (Id x :: rest) (Done (body ++ out)).
Proof.
  intros Hx Hm Hps [fuel1 Hbody] [fuel2 Hrest].
  exists (S (Nat.max fuel1 fuel2)). intros [|fuel'] Hle; [lia|].
  cbn [expand]. rewrite bool_decide_eq_false_2, Hm, Hps by done.
  rewrite Hbody, Hrest by lia. reflexivity.
Qed.


(** *** Macro replacement ends *)

(** The arguments of an invocation and the tokens after it are shorter
    than what was read. *)
Lemma collect_args_length (ts : list token) :
  ∀ depth current finished args after (bound : nat),
    collect_args depth current finished ts = Some (args, after) →
    (length current + length ts ≤ S bound)%nat →
    Forall (fun a => (length a ≤ bound)%nat) finished →
    (length after < length ts)%nat
    ∧ Forall (fun a => (length a ≤ bound)%nat) args.
Proof.
  induction ts as [|t rest IH]; intros depth current finished args after bound;
    cbn [collect_args]; [done|].
  cbn [length]. intros Hc Hlen Hfin.
  destruct (is_punct "(" t).
  { apply IH with (bound := bound) in Hc as [? ?]; [split; [lia | done]| |done].
    cbn [length]. lia. }
  destruct (is_punct ")" t).
  { destruct depth as [|depth].
    - injection Hc as <- <-. split; [lia|].
      apply Forall_reverse. constructor; [|done]. rewrite length_reverse. lia.
    - apply IH with (bound := bound) in Hc as [? ?]; [split; [lia | done]| |done].
      cbn [length]. lia. }
  destruct (is_punct "," t && bool_decide (depth = 0%nat)).
  { apply IH with (bound := bound) in Hc as [? ?]; [split; [lia | done]| |].
    - cbn [length]. lia.
    - constructor; [|done]. rewrite length_reverse. lia. }
  apply IH with (bound := bound) in Hc as [? ?]; [split; [lia | done]| |done].
  cbn [length]. lia.
Qed.

Lemma collect_args_shorter (inside : list token) args after :
  collect_args 0 [] [] inside = Some (args, after) →
  (length after < length inside)%nat
  ∧ Forall (fun a => (length a < length inside)%nat) args.
Proof.
  intros Hc. destruct inside as [|t rest]; [done|].
  apply collect_args_length with (bound := length rest) in Hc as [? Hargs];
    [|cbn [length]; lia | constructor].
  split; [done|]. eapply Forall_impl; [exact Hargs|]. cbn. intros a ?. lia.
Qed.

Lemma halts_from table hide ts fuel :
  expand fuel table hide ts ≠ OutOfFuel → halts table hide ts.
Proof.
  intros Hne. exists fuel. intros fuel' Hle.
  by rewrite (expand_mono table fuel fuel') by done.
Qed.

Lemma halts_for_each table hide (args : list (list token)) :
  Forall (halts table hide) args →
  ∃ fuel, ∀ fuel', (fuel ≤ fuel')%nat →
    for_each (expand fuel' table hide) args ≠ OutOfFuel.
Proof.
  induction 1 as [|a args [fuel1 Ha] _ [fuel2 IH]].
  - by exists 0%nat.
  - exists (Nat.max fuel1 fuel2). intros fuel' Hle. cbn [for_each].
    specialize (Ha fuel' ltac:(lia)). specialize (IH fuel' ltac:(lia)).
    destruct (expand fuel' table hide a); [|done..]. cbn.
    by destruct (for_each _ args).
Qed.

Lemma for_each_expand_mono table hide (args : list (list token)) fuel fuel' :
  (fuel ≤ fuel')%nat →
  for_each (expand fuel table hide) args ≠ OutOfFuel →
  for_each (expand fuel' table hide) args = for_each (expand fuel table hide) args.
Proof.
  intros Hle. apply for_each_mono. intros a. by apply expand_mono.
Qed.

(** The macros that can still be replaced. *)
Lemma fewer_unhidden (table : gmap string macro) (hide : list string) x m :
  table !! x = Some m → x ∉ hide →
  (size (dom table ∖ list_to_set (x :: hide) : gset string)
   < size (dom table ∖ list_to_set hide : gset string))%nat.
Proof.
  intros Hm Hx. apply subset_size. split.
  - cbn [list_to_set]. intros y. rewrite !elem_of_difference, elem_of_union.
    intros [? Hy]. split; [done|]. intros ?. apply Hy. by right.
  - intros Hsub. assert (x ∈ dom table ∖ (list_to_set hide : gset string)) as Hin.
    { apply elem_of_difference. split; [by apply elem_of_dom_2 in Hm|].
      by rewrite elem_of_list_to_set. }
    apply Hsub in Hin. cbn [list_to_set] in Hin.
    rewrite elem_of_difference, elem_of_union, elem_of_singleton in Hin.
    destruct Hin as [_ Hin]. apply Hin. by left.
Qed.

(** Macro replacement of any token list under any table ends. *)
Lemma expand_halts (table : gmap string macro) (hide : list string)
    (ts : list token) : halts table hide ts.
Proof.
  remember (size (dom table ∖ list_to_set hide : gset string)) as n eqn:Hn.
  revert hide Hn ts.
  induction n as [n IHn] using lt_wf_ind. intros hide -> ts.
  remember (length ts) as k eqn:Hk. revert ts Hk.
  induction k as [k IHk] using lt_wf_ind. intros ts ->.
  assert (∀ l, (length l < length ts)%nat → halts table hide l) as Hshort.
  { intros l Hl. by eapply IHk. }
  clear IHk.
  destruct ts as [|t rest]; [by apply (halts_from _ _ _ 1%nat)|].
  destruct (Hshort rest ltac:(cbn; lia)) as [fuel_rest Hrest].
  assert (halts table hide (t :: rest)
          ∨ (∃ x m, t = Id x ∧ (x ∉ hide) ∧ table !! x = Some m)) as Hcases.
  { destruct t as [x|s|s|s|a];
      try (left; exists (S fuel_rest); intros [|fuel'] Hle; [lia|];
           cbn [expand]; specialize (Hrest fuel' ltac:(lia));
           by destruct (expand fuel' table hide rest)).
    destruct (decide (x ∈ hide)) as [Hin|Hout];
      [|destruct (table !! x) as [m|] eqn:Hm; [right; by exists x, m|]];
      left; exists (S fuel_rest); intros [|fuel'] Hle; try lia;
      cbn [expand]; specialize (Hrest fuel' ltac:(lia)).
    - rewrite bool_decide_eq_true_2 by done.
      by destruct (expand fuel' table hide rest).
    - rewrite bool_decide_eq_false_2, Hm by done.
      by destruct (expand fuel' table hide rest). }
  destruct Hcases as [?|(x & m & -> & Hx & Hm)]; [done|].
  assert (∀ l, halts table (x :: hide) l) as Hinner.
  { intros l. eapply IHn; [|reflexivity]. by eapply fewer_unhidden. }
  destruct (parameters m) as [ps|] eqn:Hps.
  - destruct (after_open_paren rest) as [inside|] eqn:Hopen.
    + destruct (collect_args 0 [] [] inside) as [[args after]|] eqn:Hargs.
      * assert (length inside < length rest)%nat as Hinside.
        { destruct rest as [|t rest']; [done|]. cbn in Hopen.
          destruct (is_punct "(" t); [|done]. injection Hopen as <-. cbn. lia. }
        apply collect_args_shorter in Hargs as Hlen. destruct Hlen as [Hafter Hlen].
        destruct (halts_for_each table hide args) as [fuel1 Hfuel1].
        { eapply Forall_impl; [exact Hlen|]. intros a Ha. cbn beta in Ha. apply Hshort. cbn [length]. lia. }
        destruct (Hshort after ltac:(cbn; lia)) as [fuel3 Hfuel3].
        destruct (for_each (expand fuel1 table hide) args) as [args'| |] eqn:Hres;
          [| |by specialize (Hfuel1 fuel1 ltac:(lia))].
        -- destruct (bind_args ps (variadic m) args) as [raw|] eqn:Hraw.
           ++ destruct (bind_args ps (variadic m) args') as [replaced|] eqn:Hrep.
              ** destruct (Hinner (substitute raw replaced (replacement m)))
                   as [fuel2 Hfuel2].
                 exists (S (Nat.max fuel1 (Nat.max fuel2 fuel3))).
                 intros [|fuel'] Hle; [lia|]. cbn [expand].
                 rewrite bool_decide_eq_false_2, Hm, Hps, Hopen, Hargs by done.
                 rewrite (for_each_expand_mono _ _ _ fuel1), Hres by (lia || by rewrite Hres).
                 cbn [and_then]. rewrite Hraw, Hrep.
                 specialize (Hfuel2 fuel' ltac:(lia)).
                 specialize (Hfuel3 fuel' ltac:(lia)).
                 destruct (expand fuel' table (x :: hide) _); [|done..]. cbn.
                 by destruct (expand fuel' table hide after).
              ** exists (S fuel1). intros [|fuel'] Hle; [lia|]. cbn [expand].
                 rewrite bool_decide_eq_false_2, Hm, Hps, Hopen, Hargs by done.
                 rewrite (for_each_expand_mono _ _ _ fuel1), Hres by (lia || by rewrite Hres).
                 cbn [and_then]. by rewrite Hraw, Hrep.
           ++ exists (S fuel1). intros [|fuel'] Hle; [lia|]. cbn [expand].
              rewrite bool_decide_eq_false_2, Hm, Hps, Hopen, Hargs by done.
              rewrite (for_each_expand_mono _ _ _ fuel1), Hres by (lia || by rewrite Hres).
              cbn [and_then]. by rewrite Hraw.
        -- exists (S fuel1). intros [|fuel'] Hle; [lia|]. cbn [expand].
           rewrite bool_decide_eq_false_2, Hm, Hps, Hopen, Hargs by done.
           by rewrite (for_each_expand_mono _ _ _ fuel1), Hres by (lia || by rewrite Hres).
      * exists 1%nat. intros [|fuel'] Hle; [lia|]. cbn [expand].
        by rewrite bool_decide_eq_false_2, Hm, Hps, Hopen, Hargs by done.
    + exists (S fuel_rest). intros [|fuel'] Hle; [lia|]. cbn [expand].
      rewrite bool_decide_eq_false_2, Hm, Hps, Hopen by done.
      specialize (Hrest fuel' ltac:(lia)).
      by destruct (expand fuel' table hide rest).
  - destruct (Hinner (replacement m)) as [fuel2 Hfuel2].
    exists (S (Nat.max fuel2 fuel_rest)). intros [|fuel'] Hle; [lia|].
    cbn [expand]. rewrite bool_decide_eq_false_2, Hm, Hps by done.
    specialize (Hfuel2 fuel' ltac:(lia)). specialize (Hrest fuel' ltac:(lia)).
    destruct (expand fuel' table (x :: hide) _); [|done..]. cbn.
    by destruct (expand fuel' table hide rest).
Qed.

(** *** What replacement leaves of [free] and [exit] *)

Lemma and_then_done {A B} (a : Result A) (k : A → Result B) (y : B) :
  and_then a k = Done y → ∃ x, a = Done x ∧ k x = Done y.
Proof. destruct a as [x| |]; [|done..]. intros Hk. by exists x. Qed.

(** An identifier that names no macro stays. *)
Lemma expand_function_name table fuel hide name out :
  table !! name = None →
  expand fuel table hide [Id name] = Done out → out = [Id name].
Proof.
  intros Hname. destruct fuel as [|fuel]; [done|]. cbn [expand].
  replace (if bool_decide (name ∈ hide) then None else table !! name)
    with (@None macro) by (by case_bool_decide).
  intros (out' & Hout' & [= <-])%and_then_done.
  destruct fuel as [|fuel]; [done|]. by injection Hout' as <-.
Qed.

(** No [free] and no [exit] is left in replaced client code. *)
Lemma expand_redirected table fuel :
  redirects table →
  ∀ hide ts out,
    "free" ∉ hide → "exit" ∉ hide →
    expand fuel table hide ts = Done out →
    Forall (fun t => t ≠ Id "free" ∧ t ≠ Id "exit") out.
Proof.
  intros (Hfree & Hexit & Hbase_free & Hbase_exit).
  induction fuel as [|fuel IH]; intros hide ts out Hf He; [done|].
  cbn [expand]. destruct ts as [|t rest]; [by intros [= <-]|].
  assert (∀ out', expand fuel table hide rest = Done out' →
            Forall (fun t => t ≠ Id "free" ∧ t ≠ Id "exit") out') as IHrest.
  { intros out'. by apply IH. }
  destruct t as [x|s|s|s|a];
    try (intros (out' & Hout' & [= <-])%and_then_done;
         constructor; [done | by apply IHrest]).
  case_bool_decide as Hhide.
  { intros (out' & Hout' & [= <-])%and_then_done.
    constructor; [|by apply IHrest]. split; intros [= ->]; done. }
  destruct (table !! x) as [m|] eqn:Hm.
  2:{ intros (out' & Hout' & [= <-])%and_then_done.
      constructor; [|by apply IHrest]. split; intros [= ->]; congruence. }
  destruct (parameters m) as [ps|] eqn:Hps.
  - assert (x ≠ "free" ∧ x ≠ "exit") as [Hxf Hxe].
    { split; intros ->; rewrite Hm in *; simplify_eq; done. }
    destruct (after_open_paren rest) as [inside|].
    2:{ intros (out' & Hout' & [= <-])%and_then_done.
        constructor; [|by apply IHrest]. split; intros [= ->]; done. }
    destruct (collect_args 0 [] [] inside) as [[args after]|]; [|done].
    intros (args' & _ & Hk)%and_then_done.
    destruct (bind_args ps (variadic m) args) as [raw|]; [|done].
    destruct (bind_args ps (variadic m) args') as [replaced|]; [|done].
    apply and_then_done in Hk as (body & Hbody & Hk).
    apply and_then_done in Hk as (out' & Hout' & [= <-]).
    apply Forall_app. split; [|by eapply IH].
    eapply IH; [| |exact Hbody]; rewrite not_elem_of_cons; done.
  - intros (body & Hbody & Hk)%and_then_done.
    apply and_then_done in Hk as (out' & Hout' & [= <-]).
    apply Forall_app. split; [|by apply IHrest].
    destruct (decide (x = "free")) as [->|Hxf].
    { rewrite Hfree in Hm. injection Hm as <-. cbn in Hbody.
      apply expand_function_name in Hbody as ->; [|done].
      constructor; [done | constructor]. }
    destruct (decide (x = "exit")) as [->|Hxe].
    { rewrite Hexit in Hm. injection Hm as <-. cbn in Hbody.
      apply expand_function_name in Hbody as ->; [|done].
      constructor; [done | constructor]. }
    eapply IH; [| |exact Hbody]; rewrite not_elem_of_cons; done.
Qed.

(** A [free] or [exit] in front of client code becomes [base_free] or
    [base_exit], and the code after it is replaced as it is on its own. *)
Lemma expand_redirection table fuel name target rest out :
  table !! name = Some (object_like [Id target]) →
  table !! target = None →
  expand fuel table [] rest = Done out →
  expand (S (S fuel)) table [] (Id name :: rest) = Done (Id target :: out).
Proof.
  intros Hname Htarget Hrest.
  assert (expand (S fuel) table [] rest = Done out) as Hrest'.
  { rewrite (expand_mono table fuel (S fuel)) by (lia || by rewrite Hrest). done. }
  assert (fuel ≠ 0%nat) as Hfuel by (by intros ->).
  remember (S fuel) as g eqn:Hg. cbn [expand].
  rewrite bool_decide_eq_false_2, Hname by apply not_elem_of_nil.
  cbn [parameters object_like replacement]. rewrite Hrest'. subst g.
  destruct fuel as [|fuel]; [done|]. cbn [expand]. rewrite Htarget.
  replace (if bool_decide (target ∈ [name]) then None else None) with (@None macro)
    by (by case_bool_decide).
  reflexivity.
Qed.

(** An identifier that names no macro stays in front of client code. *)
Lemma expand_untouched table fuel name rest out :
  table !! name = None →
  expand fuel table [] rest = Done out →
  expand (S fuel) table [] (Id name :: rest) = Done (Id name :: out).
Proof.
  intros Hname Hrest. cbn [expand].
  rewrite bool_decide_eq_false_2, Hname, Hrest by apply not_elem_of_nil.
  reflexivity.
Qed.

(** *** The table of [base.h] *)

Lemma foldl_insert_lookup_None (ds : list (string * macro)) x :
  ∀ acc : gmap string macro,
    acc !! x = None → x ∉ ds.*1 →
    foldl (fun table d => <[d.1 := d.2]> table) acc ds !! x = None.
Proof.
  induction ds as [|d ds IH]; intros acc Hacc Hx; [done|].
  cbn [foldl]. cbn [fmap list_fmap] in Hx. apply not_elem_of_cons in Hx as [Hne Hx].
  apply IH; [|done]. by rewrite lookup_insert_ne.
Qed.

Lemma macros_lookup_None (ds : list (string * macro)) x :
  x ∉ ds.*1 → macros ds !! x = None.
Proof. apply foldl_insert_lookup_None. apply lookup_empty. Qed.

Lemma base_h_defines cfg : (base_h cfg).*1 = base_h_names.
Proof. reflexivity. Qed.

(** An identifier that the header does not define. *)
Lemma not_defined cfg x :
  bool_decide (x ∈ base_h_names) = false → macros (base_h cfg) !! x = None.
Proof.
  intros Hx. apply macros_lookup_None. rewrite base_h_defines.
  by apply bool_decide_eq_false_1 in Hx.
Qed.

Lemma base_h_redirects cfg : redirects (macros (base_h cfg)).
Proof.
  unfold redirects. split; [reflexivity|]. split; [reflexivity|].
  split; by apply not_defined.
Qed.

(** *** Invocations *)

Lemma for_each_converges table hide (args args' : list (list token)) :
  Forall2 (fun a a' => converges table hide a (Done a')) args args' →
  ∃ fuel, ∀ fuel', (fuel ≤ fuel')%nat →
    for_each (expand fuel' table hide) args = Done args'.
Proof.
  induction 1 as [|a a' args args' [fuel1 Ha] _ [fuel2 IH]].
  - by exists 0%nat.
  - exists (Nat.max fuel1 fuel2). intros fuel' Hle. cbn [for_each].
    rewrite Ha, IH by lia. reflexivity.
Qed.

(** The invocation of a function-like macro. *)
Lemma converges_invocation table hide x m ps inside args args' after
    raw replaced body out :
  x ∉ hide → table !! x = Some m → parameters m = Some ps →
  collect_args 0 [] [] inside = Some (args, after) →
  Forall2 (fun a a' => converges table hide a (Done a')) args args' →
  bind_args ps (variadic m) args = Some raw →
  bind_args ps (variadic m) args' = Some replaced →
  converges table (x :: hide) (substitute raw replaced (replacement m)) (Done body) →
  converges table hide after (Done out) →
  converges table hide (Id x :: Punct "(" :: inside) (Done (body ++ out)).
Proof.
  intros Hx Hm Hps Hargs Hconv Hraw Hrep [fuel2 Hbody] [fuel3 Hafter].
  destruct (for_each_converges _ _ _ _ Hconv) as [fuel1 Hfor].
  exists (S (Nat.max fuel1 (Nat.max fuel2 fuel3))).
  intros [|fuel'] Hle; [lia|]. cbn [expand].
  rewrite bool_decide_eq_false_2, Hm, Hps by done.
  cbn [after_open_paren is_punct]. rewrite String.eqb_refl, Hargs.
  rewrite Hfor by lia. cbn [and_then]. rewrite Hraw, Hrep.
  rewrite Hbody, Hafter by lia. reflexivity.
Qed.

Lemma converges_eq table hide ts out out' :
  converges table hide ts (Done out) → out = out' →
  converges table hide ts (Done out').
Proof. by intros ? <-. Qed.

(** Plain tokens make up one argument and are passed over. *)
Lemma plain_passes table hide t : plain table t → passes table hide t.
Proof. destruct t; cbn; auto. Qed.

Lemma plain_not_punct table t :
  plain table t →
  is_punct "(" t = false ∧ is_punct ")" t = false ∧ is_punct "," t = false.
Proof.
  destruct t as [x|s|s|s|a]; cbn; try done.
  intros (? & ? & ?). by rewrite !String.eqb_neq.
Qed.

Lemma collect_args_plain table (a : list token) :
  Forall (plain table) a →
  ∀ depth current finished rest,
    collect_args depth current finished (a ++ rest)
    = collect_args depth (reverse a ++ current) finished rest.
Proof.
  induction 1 as [|t a Ht _ IH]; intros depth current finished rest; [done|].
  cbn [app collect_args].
  destruct (plain_not_punct _ _ Ht) as (-> & -> & ->). cbn [andb].
  rewrite IH, reverse_cons, <- app_assoc. reflexivity.
Qed.

(** The two arguments of [name(d, c)] when [d] and [c] are plain. *)
Lemma collect_two_plain_args table (d c after : list token) :
  Forall (plain table) d → Forall (plain table) c →
  collect_args 0 [] [] (d ++ Punct "," :: c ++ Punct ")" :: after)
  = Some ([d; c], after).
Proof.
  intros Hd Hc. rewrite (collect_args_plain table d Hd). cbn [collect_args is_punct].
  cbn. rewrite (collect_args_plain table c Hc). cbn.
  by rewrite !app_nil_r, !reverse_involutive.
Qed.

Lemma converges_plain table hide (a : list token) :
  Forall (plain table) a → converges table hide a (Done a).
Proof.
  intros Ha. rewrite <- (app_nil_r a) at 1.
  rewrite <- (app_nil_r a) at 2.
  apply converges_pass_all; [|apply converges_nil].
  eapply Forall_impl; [exact Ha|]. intros t. apply plain_passes.
Qed.

(** *** The checks at a client's use *)

Ltac pass_token :=
  apply converges_pass;
  [first [exact I | right; apply not_defined; vm_compute; reflexivity]|].

Ltac replace_exit :=
  eapply (converges_object _ _ "exit" (object_like [Id "base_exit"]));
  [rewrite !not_elem_of_cons; repeat split; first [discriminate | apply not_elem_of_nil]
  |reflexivity
  |reflexivity
  |cbn [replacement object_like]; pass_token; apply converges_nil
  |].

Ltac walk :=
  repeat first
    [ apply converges_nil
    | replace_exit
    | pass_token
    | apply converges_pass_all;
      [eapply Forall_impl; [eassumption | intros ?; apply plain_passes]|] ].

Ltac replace_check d c Hd Hc :=
  eapply converges_eq;
  [ eapply converges_invocation with (args := [d; c]) (args' := [d; c]);
    [ apply not_elem_of_nil
    | reflexivity
    | reflexivity
    | apply (collect_two_plain_args _ d c [] Hd Hc)
    | repeat constructor; by apply converges_plain
    | reflexivity
    | reflexivity
    | cbn [replacement function_like];
      match goal with |- converges _ _ ?ts _ =>
        let ts' := eval vm_compute in ts in change ts with ts' end;
      walk
    | apply converges_nil ]
  | rewrite app_nil_r; reflexivity ].

Lemma assert_replaced cfg (d c : list token) :
  NO_ASSERT cfg = false →
  Forall (plain (macros (base_h cfg))) d →
  Forall (plain (macros (base_h cfg))) c →
  converges (macros (base_h cfg)) []
    (Id "assert" :: Punct "(" :: d ++ Punct "," :: c ++ [Punct ")"])
    (Done (lex "if (!(" ++ c ++ lex ")) { fprintf(stderr, " ++ [Str assert_format]
           ++ lex ", __FILE__, __LINE__, " ++ d ++ [Punct ","; Stringified c]
           ++ lex "); base_exit(EXIT_FAILURE); }")).
Proof.
  intros E Hd Hc. destruct cfg as [na nr ne nt]. cbn in E. subst na.
  replace_check d c Hd Hc.
Qed.

Lemma require_replaced cfg (d c : list token) :
  NO_REQUIRE cfg = false →
  Forall (plain (macros (base_h cfg))) d →
  Forall (plain (macros (base_h cfg))) c →
  converges (macros (base_h cfg)) []
    (Id "require" :: Punct "(" :: d ++ Punct "," :: c ++ [Punct ")"])
    (Done (lex "if (!(" ++ c ++ lex ")) { fprintf(stderr, " ++ [Str require_format]
           ++ lex ", __FILE__, __LINE__, __func__, " ++ d
           ++ [Punct ","; Stringified c]
           ++ lex "); base_exit(EXIT_FAILURE); }")).
Proof.
  intros E Hd Hc. destruct cfg as [na nr ne nt]. cbn in E. subst nr.
  replace_check d c Hd Hc.
Qed.

Lemma ensure_replaced cfg (d c : list token) :
  NO_ENSURE cfg = false →
  Forall (plain (macros (base_h cfg))) d →
  Forall (plain (macros (base_h cfg))) c →
  converges (macros (base_h cfg)) []
    (Id "ensure" :: Punct "(" :: d ++ Punct "," :: c ++ [Punct ")"])
    (Done (lex "if (!(" ++ c ++ lex ")) { fprintf(stderr, " ++ [Str ensure_format]
           ++ lex ", __FILE__, __LINE__, __func__, " ++ d
           ++ [Punct ","; Stringified c]
           ++ lex "); base_exit(EXIT_FAILURE); }")).
Proof.
  intros E Hd Hc. destruct cfg as [na nr ne nt]. cbn in E. subst ne.
  replace_check d c Hd Hc.
Qed.

(** *** Replacement in the middle of client code *)

Lemma collect_args_app (inside rest : list token) :
  ∀ depth current finished args after,
    collect_args depth current finished inside = Some (args, after) →
    collect_args depth current finished (inside ++ rest) = Some (args, after ++ rest).
Proof.
  induction inside as [|t inside IH]; intros depth current finished args after;
    cbn [collect_args app]; [done|].
  destruct (is_punct "(" t); [apply IH|].
  destruct (is_punct ")" t).
  { destruct depth as [|depth]; [|apply IH]. by intros [= <- <-]. }
  destruct (is_punct "," t && bool_decide (depth = 0%nat)); apply IH.
Qed.

Lemma after_open_paren_app (ts rest : list token) :
  after_open_paren rest = None →
  after_open_paren (ts ++ rest)
  = (fun inside => inside ++ rest) <$> after_open_paren ts.
Proof.
  intros Hrest. destruct ts as [|t ts]; [exact Hrest|].
  cbn. by destruct (is_punct "(" t).
Qed.

(** Code that is replaced on its own is replaced in the same way in front
    of code that does not start with a parenthesis, and that code as it is
    on its own. *)
Lemma expand_app table (fuel : nat) :
  ∀ hide before out1 rest fuel2 out2,
    expand fuel table hide before = Done out1 →
    expand fuel2 table hide rest = Done out2 →
    after_open_paren rest = None →
    expand (fuel + fuel2) table hide (before ++ rest) = Done (out1 ++ out2).
Proof.
  induction fuel as [|fuel IH]; intros hide before out1 rest fuel2 out2; [done|].
  intros Hbefore Hrest Hopen.
  assert (∀ h l, expand fuel table h l ≠ OutOfFuel →
            expand (fuel + fuel2) table h l = expand fuel table h l) as Hmore.
  { intros h l. apply expand_mono. lia. }
  destruct before as [|t before].
  { cbn in Hbefore. injection Hbefore as <-. cbn [app].
    rewrite (expand_mono table fuel2 (S fuel + fuel2)) by (lia || by rewrite Hrest).
    done. }
  change (S fuel + fuel2)%nat with (S (fuel + fuel2)).
  cbn [app expand] in *.
  assert (∀ out, expand fuel table hide before = Done out →
            expand (fuel + fuel2) table hide (before ++ rest) = Done (out ++ out2))
    as IHrest by (intros out Hout; by eapply IH).
  destruct t as [x|s|s|s|a];
    try (apply and_then_done in Hbefore as (out & Hout & [= <-]);
         by rewrite (IHrest _ Hout)).
  destruct (if bool_decide (x ∈ hide) then None else table !! x) as [m|].
  2:{ apply and_then_done in Hbefore as (out & Hout & [= <-]).
      by rewrite (IHrest _ Hout). }
  destruct (parameters m) as [ps|].
  - rewrite (after_open_paren_app before rest Hopen).
    destruct (after_open_paren before) as [inside|]; cbn [fmap option_fmap option_map].
    2:{ apply and_then_done in Hbefore as (out & Hout & [= <-]).
        by rewrite (IHrest _ Hout). }
    destruct (collect_args 0 [] [] inside) as [[args after]|] eqn:Hargs; [|done].
    rewrite (collect_args_app inside rest _ _ _ _ _ Hargs).
    apply and_then_done in Hbefore as (args' & Hargs' & Hk).
    rewrite (for_each_mono (expand fuel table hide) (expand (fuel + fuel2) table hide))
      by (by rewrite ?Hargs' || apply Hmore).
    rewrite Hargs'. cbn [and_then].
    destruct (bind_args ps (variadic m) args) as [raw|]; [|done].
    destruct (bind_args ps (variadic m) args') as [replaced|]; [|done].
    apply and_then_done in Hk as (body & Hbody & Hk).
    apply and_then_done in Hk as (out & Hout & [= <-]).
    rewrite Hmore, Hbody by (by rewrite Hbody). cbn [and_then].
    rewrite (IH _ _ _ _ _ _ Hout Hrest Hopen). cbn [and_then].
    by rewrite app_assoc.
  - apply and_then_done in Hbefore as (body & Hbody & Hk).
    apply and_then_done in Hk as (out & Hout & [= <-]).
    rewrite Hmore, Hbody by (by rewrite Hbody). cbn [and_then].
    rewrite (IHrest _ Hout). cbn [and_then]. by rewrite app_assoc.
Qed.

(** A [free] or [exit] between two pieces of client code. *)
Lemma expand_redirection_between table name target before after fuel1 fuel2 out1 out2 :
  table !! name = Some (object_like [Id target]) →
  table !! target = None →
  expand fuel1 table [] before = Done out1 →
  expand fuel2 table [] after = Done out2 →
  expand (fuel1 + S (S fuel2)) table [] (before ++ Id name :: after)
  = Done (out1 ++ Id target :: out2).
Proof.
  intros Hname Htarget Hbefore Hafter.
  apply expand_app; [done | by apply expand_redirection | done].
Qed.

Lemma expand_untouched_between table name before after fuel1 fuel2 out1 out2 :
  table !! name = None →
  expand fuel1 table [] before = Done out1 →
  expand fuel2 table [] after = Done out2 →
  expand (fuel1 + S fuel2) table [] (before ++ Id name :: after)
  = Done (out1 ++ Id name :: out2).
Proof.
  intros Hname Hbefore Hafter.
  apply expand_app; [done | by apply expand_untouched | done].
Qed.

(** *** [free] and [exit] are [base_free] and [base_exit] wherever they stand *)

Lemma same_call_all (l : list token) : Forall2 same_call l l.
Proof. induction l; constructor; [apply same_token | done]. Qed.

Lemma is_punct_same spelling t t' :
  same_call t t' → is_punct spelling t = is_punct spelling t'.
Proof. by intros []. Qed.

Lemma after_open_paren_same (rest rest' : list token) :
  Forall2 same_call rest rest' →
  option_Forall2 (Forall2 same_call) (after_open_paren rest) (after_open_paren rest').
Proof.
  intros [|t t' l l' Ht Hl]; cbn; [constructor|].
  rewrite <- (is_punct_same _ _ _ Ht). destruct (is_punct "(" t); by constructor.
Qed.

Lemma collect_args_same (ts ts' : list token) :
  Forall2 same_call ts ts' →
  ∀ depth current current' finished finished',
    Forall2 same_call current current' →
    Forall2 (Forall2 same_call) finished finished' →
    option_Forall2
      (fun r r' => Forall2 (Forall2 same_call) r.1 r'.1 ∧ Forall2 same_call r.2 r'.2)
      (collect_args depth current finished ts)
      (collect_args depth current' finished' ts').
Proof.
  induction 1 as [|t t' ts ts' Ht Hts IH];
    intros depth current current' finished finished' Hcur Hfin;
    cbn [collect_args]; [constructor|].
  rewrite <- !(is_punct_same _ _ _ Ht).
  destruct (is_punct "(" t); [apply IH; [by constructor | done]|].
  destruct (is_punct ")" t).
  { destruct depth as [|depth]; [|apply IH; [by constructor | done]].
    constructor. split; [|done]. cbn [fst].
    apply Forall2_reverse. constructor; [by apply Forall2_reverse | done]. }
  destruct (is_punct "," t && bool_decide (depth = 0%nat)).
  { apply IH; [constructor|]. constructor; [by apply Forall2_reverse | done]. }
  apply IH; [by constructor | done].
Qed.

Lemma join_args_same (args args' : list (list token)) :
  Forall2 (Forall2 same_call) args args' →
  Forall2 same_call (join_args args) (join_args args').
Proof.
  induction 1 as [|a a' args args' Ha Hargs IH]; [constructor|].
  cbn [join_args]. destruct Hargs as [|b b' args args' Hb Hargs]; [done|].
  apply Forall2_app; [done|]. constructor; [apply same_token | exact IH].
Qed.

Lemma list_to_map_zip_same (ps : list string) :
  ∀ args args' : list (list token),
    Forall2 (Forall2 same_call) args args' →
    same_binding (list_to_map (zip ps args)) (list_to_map (zip ps args')).
Proof.
  induction ps as [|p ps IH]; intros args args' Hargs x; [constructor|].
  destruct Hargs as [|a a' args args' Ha Hargs]; [constructor|].
  cbn [zip zip_with]. rewrite !list_to_map_cons, !lookup_insert.
  destruct (decide (p = x)); [by constructor | by apply IH].
Qed.

Lemma bind_args_same ps is_variadic (args args' : list (list token)) raw :
  Forall2 (Forall2 same_call) args args' →
  bind_args ps is_variadic args = Some raw →
  ∃ raw', bind_args ps is_variadic args' = Some raw' ∧ same_binding raw raw'.
Proof.
  intros Hargs. unfold bind_args. rewrite <- (Forall2_length _ _ _ Hargs).
  destruct is_variadic.
  - case_bool_decide; [|done]. intros [= <-]. eexists. split; [done|].
    intros x. rewrite !lookup_insert. destruct (decide _).
    + constructor. by apply join_args_same, Forall2_drop.
    + by apply list_to_map_zip_same, Forall2_take.
  - case_bool_decide.
    + intros [= <-]. eexists. split; [done|]. by apply list_to_map_zip_same.
    + destruct ps as [|p ps]; [|by destruct args as [|[|] [|]]].
      destruct Hargs as [|a a' args args' Ha Hargs]; [done|].
      destruct Ha as [|t t' a a' Ht Ha]; [|done].
      destruct Hargs as [|b b' args args' Hb Hargs]; [|done].
      intros [= <-]. exists ∅. split; [done|]. intros x. rewrite lookup_empty.
      constructor.
Qed.

Lemma substitute_same raw raw' replaced replaced' :
  same_binding raw raw' → same_binding replaced replaced' →
  ∀ body,
    Forall2 same_call (substitute raw replaced body)
      (substitute raw' replaced' body).
Proof.
  intros Hraw Hreplaced body.
  remember (length body) as n eqn:Hn. revert body Hn.
  induction n as [n IH] using lt_wf_ind. intros body ->.
  destruct body as [|t rest]; [constructor|].
  assert (Forall2 same_call (t :: substitute raw replaced rest)
            (t :: substitute raw' replaced' rest)) as Hkept.
  { constructor; [apply same_token|]. eapply IH; [|reflexivity]. cbn. lia. }
  destruct t as [x|p|s|s|a]; try exact Hkept.
  - cbn [substitute]. destruct (Hreplaced x) as [a a' Ha|].
    + apply Forall2_app; [done|]. eapply IH; [|reflexivity]. cbn. lia.
    + destruct rest; exact Hkept.
  - destruct rest as [|[x|q|s|s|a] rest']; try exact Hkept.
    cbn [substitute]. destruct (String.eqb p "#"); [|exact Hkept].
    destruct (Hraw x) as [a a' Ha|]; [|exact Hkept].
    constructor; [by constructor|]. eapply IH; [|reflexivity]. cbn. lia.
Qed.

Lemma for_each_same {A} (R : A → A → Prop) (f : list token → Result A)
    (args args' : list (list token)) (outs : list A) :
  (∀ a a' out, Forall2 same_call a a' → f a = Done out →
     ∃ out', f a' = Done out' ∧ R out out') →
  Forall2 (Forall2 same_call) args args' →
  for_each f args = Done outs →
  ∃ outs', for_each f args' = Done outs' ∧ Forall2 R outs outs'.
Proof.
  intros Hf Hargs. revert outs.
  induction Hargs as [|a a' args args' Ha Hargs IH]; intros outs; cbn [for_each].
  - intros [= <-]. by exists [].
  - intros (out & Hout & Hk)%and_then_done.
    apply and_then_done in Hk as (outs0 & Houts0 & [= <-]).
    destruct (Hf _ _ _ Ha Hout) as (out' & -> & Hout').
    destruct (IH _ Houts0) as (outs' & -> & Houts').
    exists (out' :: outs'). split; [done|]. by constructor.
Qed.

(** Client code is replaced in the same way whether it calls [free] and
    [exit] under these names or as [base_free] and [base_exit]. *)
Lemma expand_same_call table (fuel : nat) :
  redirects table →
  ∀ hide ts ts' out,
    "free" ∉ hide → "exit" ∉ hide →
    Forall2 same_call ts ts' →
    expand fuel table hide ts = Done out →
    ∃ out', expand fuel table hide ts' = Done out' ∧ Forall2 same_call out out'.
Proof.
  intros (Hfree & Hexit & Hbase_free & Hbase_exit).
  induction fuel as [|fuel IH]; intros hide ts ts' out Hf He Hts; [done|].
  cbn [expand]. destruct Hts as [|t t' rest rest' Ht Hrest].
  { intros [= <-]. by exists []. }
  assert (∀ (head head' : token) out,
            same_call head head' →
            and_then (expand fuel table hide rest) (fun out => Done (head :: out))
            = Done out →
            ∃ out', and_then (expand fuel table hide rest')
                      (fun out => Done (head' :: out)) = Done out'
                    ∧ Forall2 same_call out out') as Hpass.
  { intros head head' out0 Hhead (out_r & Hout_r & [= <-])%and_then_done.
    destruct (IH _ _ _ _ Hf He Hrest Hout_r) as (out_r' & -> & Hsame).
    eexists. split; [done|]. by constructor. }
  assert (∀ name target out,
            table !! name = Some (object_like [Id target]) →
            table !! target = None → name ∉ hide →
            and_then (expand fuel table (name :: hide) [Id target]) (fun body =>
            and_then (expand fuel table hide rest) (fun out => Done (body ++ out)))
            = Done out →
            ∃ out', and_then (expand fuel table hide rest')
                      (fun out => Done (Id target :: out)) = Done out'
                    ∧ Forall2 same_call out out') as Hredirected.
  { intros name target out0 Hname Htarget Hhide
      (body0 & Hbody & Hk)%and_then_done.
    apply and_then_done in Hk as (out_r & Hout_r & [= <-]).
    apply expand_function_name in Hbody as ->; [|done].
    destruct (IH _ _ _ _ Hf He Hrest Hout_r) as (out_r' & -> & Hsame).
    eexists. split; [done|]. constructor; [apply same_token | done]. }
  destruct Ht as [t| | |a a' Ha].
  - destruct t as [x|s|s|s|a]; try (by apply Hpass, same_token).
    destruct (if bool_decide (x ∈ hide) then None else table !! x) as [m|] eqn:Hm;
      [|by apply Hpass, same_token].
    destruct (parameters m) as [ps|] eqn:Hps.
    + assert (x ≠ "free" ∧ x ≠ "exit") as [Hxf Hxe].
      { case_bool_decide; [done|].
        split; intros ->; rewrite Hm in *; simplify_eq; done. }
      destruct (after_open_paren_same _ _ Hrest) as [inside inside' Hinside|];
        [|by apply Hpass, same_token].
      destruct (collect_args_same _ _ Hinside 0%nat [] [] [] []
                  ltac:(constructor) ltac:(constructor))
        as [[args after] [args2 after2] [Hargs Hafter]|]; [|done].
      cbn [fst snd] in Hargs, Hafter.
      intros (args' & Hargs' & Hk)%and_then_done.
      destruct (for_each_same (Forall2 same_call) (expand fuel table hide)
                  args args2 args') as (args2' & -> & Hargs2'); [|done|done|].
      { intros a a' out0 Ha. by apply IH. }
      cbn [and_then].
      destruct (bind_args ps (variadic m) args) as [raw|] eqn:Hraw; [|done].
      destruct (bind_args ps (variadic m) args') as [replaced|] eqn:Hrep; [|done].
      destruct (bind_args_same _ _ _ _ _ Hargs Hraw) as (raw2 & -> & Hraw2).
      destruct (bind_args_same _ _ _ _ _ Hargs2' Hrep) as (replaced2 & -> & Hrep2).
      apply and_then_done in Hk as (body & Hbody & Hk).
      apply and_then_done in Hk as (out_r & Hout_r & [= <-]).
      destruct (IH (x :: hide) _
                  (substitute raw2 replaced2 (replacement m)) _
                  ltac:(by rewrite not_elem_of_cons)
                  ltac:(by rewrite not_elem_of_cons)
                  (substitute_same _ _ _ _ Hraw2 Hrep2 (replacement m)) Hbody)
        as (body2 & -> & Hbody2).
      destruct (IH _ _ _ _ Hf He Hafter Hout_r) as (out_r' & -> & Hsame).
      eexists. split; [done|]. by apply Forall2_app.
    + intros (body & Hbody & Hk)%and_then_done.
      apply and_then_done in Hk as (out_r & Hout_r & [= <-]).
      rewrite Hbody. cbn [and_then].
      destruct (IH _ _ _ _ Hf He Hrest Hout_r) as (out_r' & -> & Hsame).
      eexists. split; [done|]. apply Forall2_app; [apply same_call_all | done].
  - rewrite bool_decide_eq_false_2, Hfree by done.
    cbn [parameters object_like replacement].
    replace (if bool_decide ("base_free" ∈ hide) then None else table !! "base_free")
      with (@None macro) by (by case_bool_decide).
    by apply (Hredirected "free" "base_free").
  - rewrite bool_decide_eq_false_2, Hexit by done.
    cbn [parameters object_like replacement].
    replace (if bool_decide ("base_exit" ∈ hide) then None else table !! "base_exit")
      with (@None macro) by (by case_bool_decide).
    by apply (Hredirected "exit" "base_exit").
  - apply Hpass. by constructor.
Qed.

Lemma clean_not_in (out : list token) :
  Forall (fun t => t ≠ Id "free" ∧ t ≠ Id "exit") out →
  (Id "free" ∉ out) ∧ (Id "exit" ∉ out).
Proof.
  rewrite Forall_forall. intros Hout.
  split; intros Hin; by destruct (Hout _ Hin).
Qed.

Lemma free_exit_absent cfg (client : list token) fuel out :
  preprocess fuel cfg client = Done out → (Id "free" ∉ out) ∧ (Id "exit" ∉ out).
Proof.
  intros Hout. apply clean_not_in.
  exact (expand_redirected _ fuel (base_h_redirects cfg) [] client out
           (not_elem_of_nil _) (not_elem_of_nil _) Hout).
Qed.

(** C9 (amended).  Preprocessing client code that follows the header
    always ends, and the replaced code holds no [free] and no [exit]
    identifier.  A [free] or [exit] between any two pieces of client code
    that are replaced on their own is replaced by [base_free] or
    [base_exit] where it stands, the code around it as it is on its own; an
    identifier that the header does not define, such as [realloc] or
    [abort], is left where it stands.  And wherever [free] or [exit] stands,
    also inside the argument of a macro, the client could have written
    [base_free] or [base_exit] for it: the replaced code is the same, but
    for the argument that a diagnostic spells.  So no release of memory
    through [free] and no termination through [exit] goes past [base_free]
    and [base_exit]. *)
Theorem free_and_exit_are_redirected cfg :
  (∀ client,
     ∃ fuel, ∀ fuel', (fuel ≤ fuel')%nat → preprocess fuel' cfg client ≠ OutOfFuel)
  ∧ (∀ client fuel out,
       preprocess fuel cfg client = Done out →
       (Id "free" ∉ out) ∧ (Id "exit" ∉ out))
  ∧ (∀ before after fuel1 fuel2 out1 out2,
       preprocess fuel1 cfg before = Done out1 →
       preprocess fuel2 cfg after = Done out2 →
       preprocess (fuel1 + S (S fuel2)) cfg (before ++ Id "free" :: after)
       = Done (out1 ++ Id "base_free" :: out2)
       ∧ preprocess (fuel1 + S (S fuel2)) cfg (before ++ Id "exit" :: after)
         = Done (out1 ++ Id "base_exit" :: out2)
       ∧ ∀ name, name ∉ base_h_names →
           preprocess (fuel1 + S fuel2) cfg (before ++ Id name :: after)
           = Done (out1 ++ Id name :: out2))
  ∧ (∀ client client' fuel out,
       Forall2 same_call client client' →
       preprocess fuel cfg client = Done out →
       ∃ out', preprocess fuel cfg client' = Done out' ∧ Forall2 same_call out out').
Proof.
  destruct (base_h_redirects cfg) as (Hfree & Hexit & Hbase_free & Hbase_exit).
  split; [intros client; apply expand_halts|].
  split; [intros client fuel out; apply free_exit_absent|].
  unfold preprocess. split.
  - intros before after fuel1 fuel2 out1 out2 Hbefore Hafter.
    split; [by apply expand_redirection_between|].
    split; [by apply expand_redirection_between|].
    intros name Hname. apply expand_untouched_between; [|done..].
    apply macros_lookup_None. by rewrite base_h_defines.
  - intros client client' fuel out Hsame Hout.
    by apply (expand_same_call _ fuel (base_h_redirects cfg) [] client client' out
                (not_elem_of_nil _) (not_elem_of_nil _)).
Qed.

Section ExitFacts.

Context {wording : Wording}.

(** C10.  A failed [assert], [require] or [ensure] ends the process through
    [base_exit] with [EXIT_FAILURE]: no replaced client code holds an
    [exit] identifier; at a use with plain arguments the [exit] of each of
    the three replacement lists has become [base_exit]; and the failed
    check is the call [base_exit(EXIT_FAILURE)] after its diagnostic, which
    ends the process with that status after [base_exit]'s own report. *)
Theorem failed_check_ends_through_base_exit cfg :
  (∀ client fuel out, preprocess fuel cfg client = Done out → (Id "exit" ∉ out))
  ∧ (∀ d c : list token,
       Forall (plain (macros (base_h cfg))) d →
       Forall (plain (macros (base_h cfg))) c →
       (NO_ASSERT cfg = false →
        converges (macros (base_h cfg)) []
          (Id "assert" :: Punct "(" :: d ++ Punct "," :: c ++ [Punct ")"])
          (Done (lex "if (!(" ++ c ++ lex ")) { fprintf(stderr, "
                 ++ [Str assert_format] ++ lex ", __FILE__, __LINE__, " ++ d
                 ++ [Punct ","; Stringified c]
                 ++ lex "); base_exit(EXIT_FAILURE); }")))
       ∧ (NO_REQUIRE cfg = false →
          converges (macros (base_h cfg)) []
            (Id "require" :: Punct "(" :: d ++ Punct "," :: c ++ [Punct ")"])
            (Done (lex "if (!(" ++ c ++ lex ")) { fprintf(stderr, "
                   ++ [Str require_format]
                   ++ lex ", __FILE__, __LINE__, __func__, " ++ d
                   ++ [Punct ","; Stringified c]
                   ++ lex "); base_exit(EXIT_FAILURE); }")))
       ∧ (NO_ENSURE cfg = false →
          converges (macros (base_h cfg)) []
            (Id "ensure" :: Punct "(" :: d ++ Punct "," :: c ++ [Punct ")"])
            (Done (lex "if (!(" ++ c ++ lex ")) { fprintf(stderr, "
                   ++ [Str ensure_format]
                   ++ lex ", __FILE__, __LINE__, __func__, " ++ d
                   ++ [Punct ","; Stringified c]
                   ++ lex "); base_exit(EXIT_FAILURE); }"))))
  ∧ (∀ k site description text p,
       enabled cfg k →
       let line := check_line k site description text +:+ newline in
       check k cfg site description false text p
       = base_exit EXIT_FAILURE (emit line p)
       ∧ ∃ final,
           base_exit EXIT_FAILURE (emit line p) = Exits EXIT_FAILURE final
           ∧ exit_status final = EXIT_FAILURE
           ∧ stderr final = stderr p +:+ line +:+ exit_report (emit line p)).
Proof.
  split; [|split].
  - intros client fuel out Hout.
    by destruct (free_exit_absent cfg client fuel out Hout).
  - intros d c Hd Hc. split; [|split]; intros E.
    + by apply assert_replaced.
    + by apply require_replaced.
    + by apply ensure_replaced.
  - intros k site description text p Hk line. split.
    + by apply check_violated.
    + destruct (exit_stderr EXIT_FAILURE (emit line p)) as (final & Hexit & Herr & Hst).
      exists final. split; [exact Hexit|]. split; [exact Hst|].
      rewrite Herr. cbn [emit set_stderr stderr]. by rewrite append_assoc.
Qed.

End ExitFacts.

Lemma free_and_exit_are_redirected_witness :
  (preprocess 20 checked (lex "if (p != NULL) {") = Done (lex "if (p != NULL) {")
   ∧ preprocess 20 checked (lex "(p); }") = Done (lex "(p); }")
   ∧ Forall2 same_call
       (lex "assert(" ++ [Str "all released"]
        ++ lex ", each(list, free) == 0); exit(0);")
       (lex "assert(" ++ [Str "all released"]
        ++ lex ", each(list, base_free) == 0); base_exit(0);")
   ∧ preprocess 60 checked
       (lex "assert(" ++ [Str "all released"]
        ++ lex ", each(list, free) == 0); exit(0);")
     = Done (lex "if (!(each(list, base_free) == 0)) { fprintf(stderr, "
             ++ [Str assert_format] ++ lex ", __FILE__, __LINE__, "
             ++ [Str "all released"; Punct ",";
                 Stringified (lex "each(list, free) == 0")]
             ++ lex "); base_exit(EXIT_FAILURE); }; base_exit(0);"))
  ∧ (preprocess (20 + 22) checked (lex "if (p != NULL) {" ++ Id "free" :: lex "(p); }")
     = Done (lex "if (p != NULL) {" ++ Id "base_free" :: lex "(p); }")
     ∧ preprocess (20 + 22) checked (lex "if (p != NULL) {" ++ Id "exit" :: lex "(p); }")
       = Done (lex "if (p != NULL) {" ++ Id "base_exit" :: lex "(p); }")
     ∧ ∀ name, name ∉ base_h_names →
         preprocess (20 + 21) checked (lex "if (p != NULL) {" ++ Id name :: lex "(p); }")
         = Done (lex "if (p != NULL) {" ++ Id name :: lex "(p); }"))
  ∧ ∃ out',
      preprocess 60 checked
        (lex "assert(" ++ [Str "all released"]
         ++ lex ", each(list, base_free) == 0); base_exit(0);")
      = Done out'
      ∧ Forall2 same_call
          (lex "if (!(each(list, base_free) == 0)) { fprintf(stderr, "
           ++ [Str assert_format] ++ lex ", __FILE__, __LINE__, "
           ++ [Str "all released"; Punct ",";
               Stringified (lex "each(list, free) == 0")]
           ++ lex "); base_exit(EXIT_FAILURE); }; base_exit(0);")
          out'.
Proof.
  assert (preprocess 20 checked (lex "if (p != NULL) {")
          = Done (lex "if (p != NULL) {")) as Hbefore by (vm_compute; reflexivity).
  assert (preprocess 20 checked (lex "(p); }") = Done (lex "(p); }")) as Hafter
    by (vm_compute; reflexivity).
  assert (Forall2 same_call
            (lex "assert(" ++ [Str "all released"]
             ++ lex ", each(list, free) == 0); exit(0);")
            (lex "assert(" ++ [Str "all released"]
             ++ lex ", each(list, base_free) == 0); base_exit(0);")) as Hsame
    by (vm_compute; repeat constructor).
  assert (preprocess 60 checked
            (lex "assert(" ++ [Str "all released"]
             ++ lex ", each(list, free) == 0); exit(0);")
          = Done (lex "if (!(each(list, base_free) == 0)) { fprintf(stderr, "
                  ++ [Str assert_format] ++ lex ", __FILE__, __LINE__, "
                  ++ [Str "all released"; Punct ",";
                      Stringified (lex "each(list, free) == 0")]
                  ++ lex "); base_exit(EXIT_FAILURE); }; base_exit(0);")) as Hout
    by (vm_compute; reflexivity).
  destruct (free_and_exit_are_redirected checked) as (_ & _ & Hbetween & Heither).
  split; [exact (conj Hbefore (conj Hafter (conj Hsame Hout)))|].
  split; [exact (Hbetween _ _ _ _ _ _ Hbefore Hafter)|].
  exact (Heither _ _ _ _ Hsame Hout).
Defined.

Lemma failed_check_ends_through_base_exit_witness :
  (Forall (plain (macros (base_h checked))) [Str "not too large"]
   ∧ Forall (plain (macros (base_h checked))) (lex "x < 3")
   ∧ NO_ASSERT checked = false
   ∧ enabled checked Assert
   ∧ preprocess 40 checked (lex "exit(EXIT_FAILURE);")
     = Done (lex "base_exit(EXIT_FAILURE);"))
  ∧ (Id "exit" ∉ lex "base_exit(EXIT_FAILURE);")
  ∧ converges (macros (base_h checked)) []
      (Id "assert" :: Punct "(" :: [Str "not too large"] ++ Punct ","
         :: lex "x < 3" ++ [Punct ")"])
      (Done (lex "if (!(" ++ lex "x < 3" ++ lex ")) { fprintf(stderr, "
             ++ [Str assert_format] ++ lex ", __FILE__, __LINE__, "
             ++ [Str "not too large"] ++ [Punct ","; Stringified (lex "x < 3")]
             ++ lex "); base_exit(EXIT_FAILURE); }"))
  ∧ assert (wording := plain_wording) checked here "not too large" false "x < 3" quiet
    = base_exit (wording := plain_wording) EXIT_FAILURE
        (emit (check_line Assert here "not too large" "x < 3" +:+ newline) quiet).
Proof.
  assert (Forall (plain (macros (base_h checked))) [Str "not too large"]) as Hd
    by (repeat constructor).
  assert (Forall (plain (macros (base_h checked))) (lex "x < 3")) as Hc.
  { repeat constructor; discriminate. }
  assert (preprocess 40 checked (lex "exit(EXIT_FAILURE);")
          = Done (lex "base_exit(EXIT_FAILURE);")) as Hp
    by (vm_compute; reflexivity).
  destruct (@failed_check_ends_through_base_exit plain_wording checked)
    as (Habsent & Hreplaced & Hcheck).
  split; [by repeat split|].
  split; [exact (Habsent _ _ _ Hp)|].
  split; [exact (proj1 (Hreplaced _ _ Hd Hc) eq_refl)|].
  exact (proj1 (Hcheck Assert here "not too large" "x < 3" quiet eq_refl)).
Defined.

(** C9, as stated, fails: the header redirects [free] and [exit] only.  A
    client's [realloc], which releases the block it moves, and a client's
    [abort], which ends the process, are left as calls of the platform. *)
Lemma platform_calls_are_left_alone :
  preprocess 40 checked (lex "p = realloc(p, 2 * n); abort();")
  = Done (lex "p = realloc(p, 2 * n); abort();")
  ∧ macros (base_h checked) !! "realloc" = None
  ∧ macros (base_h checked) !! "abort" = None.
Proof. repeat split; vm_compute; reflexivity. Qed.

(** C6 fails on two uses of [require_not_null].  The argument's text is
    part of the format string, so for the argument [rows[i % n]] equal to
    [NULL], where the test [rows[i % n] == NULL] is true, the call of
    [fprintf] has a conversion without an argument and no defined
    behaviour, while [require] prints the same text and an argument
    without a percent sign is printed as documented.  And the macro tests
    [argument == NULL] with the argument's text unparenthesised, so for the
    argument [flag ? p : q] the test reads [flag ? p : (q == NULL)], while
    [require] parenthesises its condition. *)
Lemma require_not_null_misreads_argument :
  require_not_null (wording := plain_wording) checked here true "rows[i % n]" quiet
  = Undefined
  ∧ stderr_of (require (wording := plain_wording) checked here "not null" false
                 "rows[i % n]" quiet)
    = Some ("myfile.c, line 18: myfunction's precondition " +:+ quote
            +:+ "not null" +:+ quote +:+ " (rows[i % n]) violated" +:+ newline)
  ∧ stderr_of (require_not_null (wording := plain_wording) checked here true
                 "rows[i]" quiet)
    = Some ("myfile.c, line 18: myfunction's precondition " +:+ quote
            +:+ "not null" +:+ quote +:+ " (rows[i]) violated" +:+ newline)
  ∧ preprocess 40 checked (lex "require_not_null(flag ? p : q);")
    = Done (lex "if (flag ? p : q == NULL) { fprintf(stderr, "
            ++ [Str require_not_null_format_before;
                Stringified (lex "flag ? p : q");
                Str require_not_null_format_after]
            ++ lex ", __FILE__, __LINE__, __func__); base_exit(EXIT_FAILURE); };")
  ∧ preprocess 40 checked
      (lex "require(" ++ [Str "not null"] ++ lex ", flag ? p : q);")
    = Done (lex "if (!(flag ? p : q)) { fprintf(stderr, " ++ [Str require_format]
            ++ lex ", __FILE__, __LINE__, __func__, "
            ++ [Str "not null"; Punct ","; Stringified (lex "flag ? p : q")]
            ++ lex "); base_exit(EXIT_FAILURE); };").
Proof. repeat split; vm_compute; reflexivity. Qed.

(** * Further properties *)

(** ** The quantifier macros on any iteration

    For arguments that do not mention the name [result]. *)

Section IterationLaws.

Context {S : Type}.
Variables (init : S → S) (has_more_steps : S → bool) (do_step : S → S).

(** [forall] over a condition and [exists] over its negation run the same
    way: both are still running, both have run to the end, or both have
    left the loop at the same step with their assignments done. *)
Lemma forall_exists_loops (condition : S → bool) (fuel : nat) :
  ∀ (st st' : Scoped S), others st = others st' →
  match forall_loop fuel (test_without_result has_more_steps)
          (step_without_result do_step) (test_without_result condition) st,
        exists_loop fuel (test_without_result has_more_steps)
          (step_without_result do_step)
          (test_without_result (fun s => negb (condition s))) st' with
  | None, None => True
  | Some a, Some b =>
      results a = results st ∧ results b = results st'
      ∨ results a = assign_innermost 0 (results st)
        ∧ results b = assign_innermost 1 (results st')
  | _, _ => False
  end.
Proof.
  induction fuel as [|fuel IH]; intros st st' Hsame; cbn [forall_loop exists_loop];
    [done|].
  change (test_without_result has_more_steps st) with (has_more_steps (others st)).
  change (test_without_result has_more_steps st') with (has_more_steps (others st')).
  change (test_without_result condition st) with (condition (others st)).
  change (test_without_result (fun s => negb (condition s)) st')
    with (negb (condition (others st'))).
  rewrite <- Hsame.
  destruct (has_more_steps (others st)); [|by left].
  destruct (condition (others st)); cbn [negb]; [|by right].
  exact (IH (step_without_result do_step st) (step_without_result do_step st')
           (f_equal do_step Hsame)).
Qed.

Lemma exists_forall_loops (condition : S → bool) (fuel : nat) :
  ∀ (st st' : Scoped S), others st = others st' →
  match exists_loop fuel (test_without_result has_more_steps)
          (step_without_result do_step) (test_without_result condition) st,
        forall_loop fuel (test_without_result has_more_steps)
          (step_without_result do_step)
          (test_without_result (fun s => negb (condition s))) st' with
  | None, None => True
  | Some a, Some b =>
      results a = results st ∧ results b = results st'
      ∨ results a = assign_innermost 1 (results st)
        ∧ results b = assign_innermost 0 (results st')
  | _, _ => False
  end.
Proof.
  induction fuel as [|fuel IH]; intros st st' Hsame; cbn [forall_loop exists_loop];
    [done|].
  change (test_without_result has_more_steps st) with (has_more_steps (others st)).
  change (test_without_result has_more_steps st') with (has_more_steps (others st')).
  change (test_without_result condition st) with (condition (others st)).
  change (test_without_result (fun s => negb (condition s)) st')
    with (negb (condition (others st'))).
  rewrite <- Hsame.
  destruct (has_more_steps (others st)); [|by left].
  destruct (condition (others st)); cbn [negb]; [by right|].
  exact (IH (step_without_result do_step st) (step_without_result do_step st')
           (f_equal do_step Hsame)).
Qed.

(** X1.  For arguments that do not mention the name [result], [forall]
    over a condition is the negation of [exists] over the negated
    condition, and the other way round: the two loops return the same way,
    or both are still running, for every iteration and every amount of
    fuel. *)
Theorem forall_exists_duality (condition : S → bool) (fuel : nat) (st : Scoped S) :
  forall_ fuel (step_without_result init) (test_without_result has_more_steps)
    (step_without_result do_step) (test_without_result condition) st
  = negb <$> exists_ fuel (step_without_result init)
               (test_without_result has_more_steps) (step_without_result do_step)
               (test_without_result (fun s => negb (condition s))) st
  ∧ exists_ fuel (step_without_result init) (test_without_result has_more_steps)
      (step_without_result do_step) (test_without_result condition) st
    = negb <$> forall_ fuel (step_without_result init)
                 (test_without_result has_more_steps) (step_without_result do_step)
                 (test_without_result (fun s => negb (condition s))) st.
Proof.
  split; unfold forall_, exists_.
  - pose proof (forall_exists_loops condition fuel
                  (step_without_result init
                     (enter_scope (declare_result 1 (enter_scope st))))
                  (step_without_result init
                     (enter_scope (declare_result 0 (enter_scope st))))
                  eq_refl) as Hloops.
    destruct (forall_loop _ _ _ _ _) as [a|], (exists_loop _ _ _ _ _) as [b|];
      try done.
    rewrite !results_at_loop_start in Hloops.
    destruct Hloops as [[Ha Hb]|[Ha Hb]];
      by rewrite (result_value_after _ _ _ Ha), (result_value_after _ _ _ Hb).
  - pose proof (exists_forall_loops condition fuel
                  (step_without_result init
                     (enter_scope (declare_result 0 (enter_scope st))))
                  (step_without_result init
                     (enter_scope (declare_result 1 (enter_scope st))))
                  eq_refl) as Hloops.
    destruct (exists_loop _ _ _ _ _) as [a|], (forall_loop _ _ _ _ _) as [b|];
      try done.
    rewrite !results_at_loop_start in Hloops.
    destruct Hloops as [[Ha Hb]|[Ha Hb]];
      by rewrite (result_value_after _ _ _ Ha), (result_value_after _ _ _ Hb).
Qed.

Lemma forall_loop_breaks (condition : S → bool) (k : nat) :
  ∀ (st : Scoped S) (fuel : nat),
  (∀ j, (j ≤ k)%nat → has_more_steps (state_at (others st) do_step j) = true) →
  condition (state_at (others st) do_step k) = false → (k < fuel)%nat →
  ∃ after,
    forall_loop fuel (test_without_result has_more_steps)
      (step_without_result do_step) (test_without_result condition) st
    = Some after
    ∧ results after = assign_innermost 0 (results st).
Proof.
  induction k as [|k IH]; intros st fuel Hmore Hc Hfuel;
    (destruct fuel as [|fuel]; [lia|]); cbn [forall_loop];
    change (test_without_result has_more_steps st) with (has_more_steps (others st));
    change (test_without_result condition st) with (condition (others st));
    rewrite (Hmore 0%nat ltac:(lia) : has_more_steps (others st) = true).
  - cbn in Hc. rewrite Hc. by eexists.
  - destruct (condition (others st)); cbn [negb]; [|by eexists].
    apply (IH (step_without_result do_step st));
      [| cbn [step_without_result others]; by rewrite <- state_at_succ | lia].
    intros j Hj. cbn [step_without_result others].
    rewrite <- state_at_succ. apply Hmore. lia.
Qed.

Lemma exists_loop_breaks (condition : S → bool) (k : nat) :
  ∀ (st : Scoped S) (fuel : nat),
  (∀ j, (j ≤ k)%nat → has_more_steps (state_at (others st) do_step j) = true) →
  condition (state_at (others st) do_step k) = true → (k < fuel)%nat →
  ∃ after,
    exists_loop fuel (test_without_result has_more_steps)
      (step_without_result do_step) (test_without_result condition) st
    = Some after
    ∧ results after = assign_innermost 1 (results st).
Proof.
  induction k as [|k IH]; intros st fuel Hmore Hc Hfuel;
    (destruct fuel as [|fuel]; [lia|]); cbn [exists_loop];
    change (test_without_result has_more_steps st) with (has_more_steps (others st));
    change (test_without_result condition st) with (condition (others st));
    rewrite (Hmore 0%nat ltac:(lia) : has_more_steps (others st) = true).
  - cbn in Hc. rewrite Hc. by eexists.
  - destruct (condition (others st)); [by eexists|].
    apply (IH (step_without_result do_step st));
      [| cbn [step_without_result others]; by rewrite <- state_at_succ | lia].
    intros j Hj. cbn [step_without_result others].
    rewrite <- state_at_succ. apply Hmore. lia.
Qed.

(** X2.  For arguments that do not mention the name [result], [forall]
    returns false and [exists] returns true once a step decides it,
    whatever the iteration does after that step: it need not end. *)
Theorem quantifiers_return_at_the_deciding_step (condition : S → bool)
    (st : Scoped S) (k fuel : nat) :
  (∀ j, (j ≤ k)%nat →
     has_more_steps (state_at (init (others st)) do_step j) = true) →
  (k < fuel)%nat →
  (condition (state_at (init (others st)) do_step k) = false →
   forall_ fuel (step_without_result init) (test_without_result has_more_steps)
     (step_without_result do_step) (test_without_result condition) st
   = Some false)
  ∧ (condition (state_at (init (others st)) do_step k) = true →
     exists_ fuel (step_without_result init) (test_without_result has_more_steps)
       (step_without_result do_step) (test_without_result condition) st
     = Some true).
Proof.
  intros Hmore Hfuel. split; intros Hc.
  - unfold forall_.
    destruct (forall_loop_breaks condition k
                (step_without_result init
                   (enter_scope (declare_result 1 (enter_scope st))))
                fuel Hmore Hc Hfuel) as (after & -> & Hr).
    rewrite results_at_loop_start in Hr.
    by rewrite (result_value_after _ _ _ Hr).
  - unfold exists_.
    destruct (exists_loop_breaks condition k
                (step_without_result init
                   (enter_scope (declare_result 0 (enter_scope st))))
                fuel Hmore Hc Hfuel) as (after & -> & Hr).
    rewrite results_at_loop_start in Hr.
    by rewrite (result_value_after _ _ _ Hr).
Qed.

Lemma forall_loop_endless (condition : S → bool) (fuel : nat) : ∀ (st : Scoped S),
  (∀ k, has_more_steps (state_at (others st) do_step k) = true) →
  (∀ k, condition (state_at (others st) do_step k) = true) →
  forall_loop fuel (test_without_result has_more_steps)
    (step_without_result do_step) (test_without_result condition) st
  = None.
Proof.
  induction fuel as [|fuel IH]; intros st Hmore Hc; cbn [forall_loop];
    [reflexivity|].
  change (test_without_result has_more_steps st) with (has_more_steps (others st)).
  change (test_without_result condition st) with (condition (others st)).
  rewrite (Hmore 0%nat : has_more_steps (others st) = true).
  rewrite (Hc 0%nat : condition (others st) = true). cbn [negb].
  apply IH; intros k; cbn [step_without_result others];
    rewrite <- state_at_succ; [apply Hmore | apply Hc].
Qed.

Lemma exists_loop_endless (condition : S → bool) (fuel : nat) : ∀ (st : Scoped S),
  (∀ k, has_more_steps (state_at (others st) do_step k) = true) →
  (∀ k, condition (state_at (others st) do_step k) = false) →
  exists_loop fuel (test_without_result has_more_steps)
    (step_without_result do_step) (test_without_result condition) st
  = None.
Proof.
  induction fuel as [|fuel IH]; intros st Hmore Hc; cbn [exists_loop];
    [reflexivity|].
  change (test_without_result has_more_steps st) with (has_more_steps (others st)).
  change (test_without_result condition st) with (condition (others st)).
  rewrite (Hmore 0%nat : has_more_steps (others st) = true).
  rewrite (Hc 0%nat : condition (others st) = false).
  apply IH; intros k; cbn [step_without_result others];
    rewrite <- state_at_succ; [apply Hmore | apply Hc].
Qed.

Lemma countif_loop_endless (condition : S → bool) (fuel : nat) : ∀ (st : Scoped S),
  (∀ k, has_more_steps (state_at (others st) do_step k) = true) →
  countif_loop fuel (test_without_result has_more_steps)
    (step_without_result do_step) (test_without_result condition) st
  = None.
Proof.
  induction fuel as [|fuel IH]; intros st Hmore; cbn [countif_loop];
    [reflexivity|].
  change (test_without_result has_more_steps st) with (has_more_steps (others st)).
  rewrite (Hmore 0%nat : has_more_steps (others st) = true).
  apply IH; intros k. cbn [step_without_result others].
  replace (others (if test_without_result condition st
                   then assign_result (wrap_int (result_value st + 1)) st
                   else st))
    with (others st) by (by destruct (test_without_result condition st)).
  rewrite <- state_at_succ. apply Hmore.
Qed.

(** X3.  For arguments that do not mention the name [result], on an
    iteration that never ends: [forall] does not return while the
    condition holds at every step, [exists] does not return while it holds
    at none, and [countif] does not return at all. *)
Theorem quantifiers_on_an_endless_iteration (condition : S → bool) (st : Scoped S) :
  (∀ k, has_more_steps (state_at (init (others st)) do_step k) = true) →
  ((∀ k, condition (state_at (init (others st)) do_step k) = true) →
   ∀ fuel,
     forall_ fuel (step_without_result init) (test_without_result has_more_steps)
       (step_without_result do_step) (test_without_result condition) st
     = None)
  ∧ ((∀ k, condition (state_at (init (others st)) do_step k) = false) →
     ∀ fuel,
       exists_ fuel (step_without_result init) (test_without_result has_more_steps)
         (step_without_result do_step) (test_without_result condition) st
       = None)
  ∧ (∀ fuel,
       countif fuel (step_without_result init) (test_without_result has_more_steps)
         (step_without_result do_step) (test_without_result condition) st
       = None).
Proof.
  intros Hmore. split; [|split].
  - intros Hc fuel. unfold forall_. by rewrite forall_loop_endless.
  - intros Hc fuel. unfold exists_. by rewrite exists_loop_endless.
  - intros fuel. unfold countif. by rewrite countif_loop_endless.
Qed.

Lemma holds_in_le (condition : S → bool) (s : S) (n : nat) :
  (holds_in s do_step condition n ≤ n)%nat.
Proof.
  induction n as [|n IH]; cbn [holds_in]; [lia|].
  destruct (condition (state_at s do_step n)); lia.
Qed.

Lemma holds_in_all (condition : S → bool) (s : S) (n : nat) :
  holds_in s do_step condition n = n
  ↔ ∀ k, (k < n)%nat → condition (state_at s do_step k) = true.
Proof.
  induction n as [|n IH]; cbn [holds_in]; [split; [lia | done]|].
  pose proof (holds_in_le condition s n) as Hle.
  destruct (condition (state_at s do_step n)) eqn:Hc; split.
  - intros Hn k Hk. destruct (decide (k = n)) as [->|Hne]; [exact Hc|].
    apply IH; lia.
  - intros Hall. assert (holds_in s do_step condition n = n) as ->; [|lia].
    apply IH. intros k Hk. apply Hall. lia.
  - lia.
  - intros Hall. rewrite Hall in Hc by lia. discriminate.
Qed.

Lemma holds_in_some (condition : S → bool) (s : S) (n : nat) :
  (0 < holds_in s do_step condition n)%nat
  ↔ ∃ k, (k < n)%nat ∧ condition (state_at s do_step k) = true.
Proof.
  induction n as [|n IH]; cbn [holds_in]; [split; [lia | intros (k & ? & _); lia]|].
  destruct (condition (state_at s do_step n)) eqn:Hc; split.
  - intros _. exists n. split; [lia | exact Hc].
  - lia.
  - intros Hpos. destruct (proj1 IH ltac:(lia)) as (k & Hk & Hck).
    exists k. split; [lia | exact Hck].
  - intros (k & Hk & Hck). destruct (decide (k = n)) as [->|Hne]; [congruence|].
    assert (0 < holds_in s do_step condition n)%nat; [|lia].
    apply IH. exists k. split; [lia | exact Hck].
Qed.

Lemma holds_in_others (condition : S → bool) (s : S) (n : nat) :
  (holds_in s do_step condition n
   + holds_in s do_step (fun x => negb (condition x)) n)%nat = n.
Proof.
  induction n as [|n IH]; cbn [holds_in]; [reflexivity|].
  destruct (condition (state_at s do_step n)); cbn [negb]; lia.
Qed.

(** X4.  For arguments that do not mention the name [result], over an
    iteration of [n] steps, [n] within the range of [int], the three macros
    agree: [forall] returns true exactly when [countif] returns [n],
    [exists] returns true exactly when [countif] returns a positive number,
    and the counts of a condition and of its negation add up to [n]. *)
Theorem quantifiers_agree (condition : S → bool) (st : Scoped S) (n fuel : nat) :
  has_steps (init (others st)) has_more_steps do_step n → (n < fuel)%nat →
  Z.of_nat n ≤ INT_MAX →
  ∃ (all some : bool) (count rest : Z),
    forall_ fuel (step_without_result init) (test_without_result has_more_steps)
      (step_without_result do_step) (test_without_result condition) st
    = Some all
    ∧ exists_ fuel (step_without_result init) (test_without_result has_more_steps)
        (step_without_result do_step) (test_without_result condition) st
      = Some some
    ∧ countif fuel (step_without_result init) (test_without_result has_more_steps)
        (step_without_result do_step) (test_without_result condition) st
      = Some count
    ∧ countif fuel (step_without_result init) (test_without_result has_more_steps)
        (step_without_result do_step)
        (test_without_result (fun s => negb (condition s))) st
      = Some rest
    ∧ (all = true ↔ count = Z.of_nat n)
    ∧ (some = true ↔ 0 < count)
    ∧ count + rest = Z.of_nat n.
Proof.
  intros Hsteps Hfuel Hmax.
  destruct (forall_steps init has_more_steps do_step condition st n fuel
              Hsteps Hfuel) as (all & Hall & Hiff_all).
  destruct (exists_steps init has_more_steps do_step condition st n fuel
              Hsteps Hfuel) as (some & Hsome & Hiff_some).
  pose proof (holds_in_le condition (init (others st)) n) as Hle.
  pose proof (holds_in_le (fun s => negb (condition s)) (init (others st)) n) as Hle'.
  exists all, some, (Z.of_nat (holds_in (init (others st)) do_step condition n)),
    (Z.of_nat (holds_in (init (others st)) do_step (fun s => negb (condition s)) n)).
  split; [exact Hall|]. split; [exact Hsome|].
  split; [|split; [|split; [|split]]].
  - rewrite (countif_steps init has_more_steps do_step condition st n fuel) by done.
    rewrite wrap_int_in_range; [done|]. unfold INT_MIN. lia.
  - rewrite (countif_steps init has_more_steps do_step _ st n fuel) by done.
    rewrite wrap_int_in_range; [done|]. unfold INT_MIN. lia.
  - by rewrite Hiff_all, Nat2Z.inj_iff, holds_in_all.
  - rewrite Hiff_some. change 0 with (Z.of_nat 0).
    by rewrite <- Nat2Z.inj_lt, holds_in_some.
  - rewrite <- Nat2Z.inj_add. by rewrite holds_in_others.
Qed.

End IterationLaws.

(** The iteration [int i = 0; true; i = (i + 1) % 5] goes round the
    numbers 0 to 4 and never ends. *)
Lemma round_and_round (k : nat) :
  0 ≤ state_at 0 (fun i => (i + 1) mod 5) k < 5.
Proof.
  unfold state_at. induction k as [|k IH]; [cbn; lia|].
  rewrite Nat.iter_succ. apply Z.mod_pos_bound. lia.
Qed.

Lemma quantifiers_return_at_the_deciding_step_witness :
  ((∀ j, (j ≤ 2)%nat →
      (fun _ : Z => true) (state_at 0 (fun i => (i + 1) mod 5) j) = true)
   ∧ (2 < 3)%nat)
  ∧ forall_ 3 (step_without_result (fun _ => 0)) (test_without_result (fun _ => true))
      (step_without_result (fun i => (i + 1) mod 5))
      (test_without_result (fun i => i <? 2)) (outside 7) = Some false
  ∧ exists_ 3 (step_without_result (fun _ => 0)) (test_without_result (fun _ => true))
      (step_without_result (fun i => (i + 1) mod 5))
      (test_without_result (fun i => 2 <=? i)) (outside 7) = Some true.
Proof.
  assert (∀ j, (j ≤ 2)%nat →
            (fun _ : Z => true) (state_at 0 (fun i => (i + 1) mod 5) j) = true)
    as Hmore by (intros j _; reflexivity).
  split; [split; [exact Hmore | lia]|]. split.
  - apply (quantifiers_return_at_the_deciding_step (fun _ => 0) (fun _ => true)
             (fun i => (i + 1) mod 5) (fun i => i <? 2) (outside 7) 2 3 Hmore);
      [lia | reflexivity].
  - apply (quantifiers_return_at_the_deciding_step (fun _ => 0) (fun _ => true)
             (fun i => (i + 1) mod 5) (fun i => 2 <=? i) (outside 7) 2 3 Hmore);
      [lia | reflexivity].
Defined.

Lemma quantifiers_on_an_endless_iteration_witness :
  (∀ k, (fun _ : Z => true) (state_at 0 (fun i => (i + 1) mod 5) k) = true)
  ∧ (∀ fuel,
       forall_ fuel (step_without_result (fun _ => 0))
         (test_without_result (fun _ => true))
         (step_without_result (fun i => (i + 1) mod 5))
         (test_without_result (fun i => i <? 5)) (outside 7) = None)
  ∧ (∀ fuel,
       exists_ fuel (step_without_result (fun _ => 0))
         (test_without_result (fun _ => true))
         (step_without_result (fun i => (i + 1) mod 5))
         (test_without_result (fun i => 5 <=? i)) (outside 7) = None)
  ∧ (∀ fuel,
       countif fuel (step_without_result (fun _ => 0))
         (test_without_result (fun _ => true))
         (step_without_result (fun i => (i + 1) mod 5))
         (test_without_result (fun i => i <? 2)) (outside 7) = None).
Proof.
  assert (∀ k, (fun _ : Z => true) (state_at 0 (fun i => (i + 1) mod 5) k) = true)
    as Hmore by (intros k; reflexivity).
  split; [exact Hmore|]. split; [|split].
  - apply (quantifiers_on_an_endless_iteration (fun _ => 0) (fun _ => true)
             (fun i => (i + 1) mod 5) (fun i => i <? 5) (outside 7) Hmore).
    intros k. cbn [outside others]. apply Z.ltb_lt, round_and_round.
  - apply (quantifiers_on_an_endless_iteration (fun _ => 0) (fun _ => true)
             (fun i => (i + 1) mod 5) (fun i => 5 <=? i) (outside 7) Hmore).
    intros k. cbn [outside others]. apply Z.leb_gt, round_and_round.
  - apply (quantifiers_on_an_endless_iteration (fun _ => 0) (fun _ => true)
             (fun i => (i + 1) mod 5) (fun i => i <? 2) (outside 7) Hmore).
Defined.

Lemma quantifiers_agree_witness :
  (has_steps 0 (below 3) Z.succ 3 ∧ (3 < 4)%nat ∧ Z.of_nat 3 ≤ INT_MAX)
  ∧ ∃ (all some : bool) (count rest : Z),
      forall_ 4 (step_without_result (fun _ => 0)) (test_without_result (below 3))
        (step_without_result Z.succ) (test_without_result (fun i => i <? 2))
        (outside 7) = Some all
      ∧ exists_ 4 (step_without_result (fun _ => 0)) (test_without_result (below 3))
          (step_without_result Z.succ) (test_without_result (fun i => i <? 2))
          (outside 7) = Some some
      ∧ countif 4 (step_without_result (fun _ => 0)) (test_without_result (below 3))
          (step_without_result Z.succ) (test_without_result (fun i => i <? 2))
          (outside 7) = Some count
      ∧ countif 4 (step_without_result (fun _ => 0)) (test_without_result (below 3))
          (step_without_result Z.succ) (test_without_result (fun i => negb (i <? 2)))
          (outside 7) = Some rest
      ∧ (all = true ↔ count = Z.of_nat 3)
      ∧ (some = true ↔ 0 < count)
      ∧ count + rest = Z.of_nat 3.
Proof.
  assert (has_steps 0 (below 3) Z.succ 3) as Hsteps by apply (below_has_steps 3).
  assert (Z.of_nat 3 ≤ INT_MAX) as Hmax by (unfold INT_MAX; lia).
  split; [split; [exact Hsteps | split; [lia | exact Hmax]]|].
  apply (quantifiers_agree (fun _ => 0) (below 3) Z.succ (fun i => i <? 2)
           (outside 7) 3 4 Hsteps); [lia | exact Hmax].
Defined.

(** ** [require_not_null] on an argument without a percent sign *)

Lemma printf_text_verbatim (t rest : string) (args : list printf_arg) :
  percents t = 0%nat →
  printf_text (t +:+ rest) args = (fun out => t +:+ out) <$> printf_text rest args.
Proof.
  induction t as [|c t IH]; cbn [percents]; intros Ht.
  - change ("" +:+ rest) with rest. destruct (printf_text rest args); reflexivity.
  - destruct (Ascii.eqb c percent) eqn:Hc; [lia|].
    rewrite append_cons. cbn [printf_text]. rewrite Hc, IH by lia.
    destruct (printf_text rest args); reflexivity.
Qed.

Lemma printf_text_s (s rest : string) (args : list printf_arg) :
  printf_text ("%s" +:+ rest) (ArgString s :: args)
  = (fun out => s +:+ out) <$> printf_text rest args.
Proof. reflexivity. Qed.

Lemma printf_text_d (i : Z) (rest : string) (args : list printf_arg) :
  printf_text ("%d" +:+ rest) (ArgInt i :: args)
  = (fun out => decimal i +:+ out) <$> printf_text rest args.
Proof. reflexivity. Qed.

Lemma printf_require_not_null site text :
  percents text = 0%nat →
  printf_text
    (require_not_null_format_before +:+ text +:+ require_not_null_format_after)
    [ArgString (site_file site); ArgInt (site_line site);
     ArgString (site_function site)]
  = Some (spec_plain site (spec_precondition site) "not null" text +:+ newline).
Proof.
  intros Htext.
  change (require_not_null_format_before +:+ text +:+ require_not_null_format_after)
    with ("%s" +:+ ", line " +:+ "%d" +:+ ": " +:+ "%s"
          +:+ ("'s precondition " +:+ quote +:+ "not null" +:+ quote +:+ " (")
          +:+ text +:+ ") violated" +:+ newline).
  rewrite printf_text_s, printf_text_verbatim by reflexivity.
  rewrite printf_text_d, printf_text_verbatim by reflexivity.
  rewrite printf_text_s, printf_text_verbatim by reflexivity.
  rewrite printf_text_verbatim by exact Htext.
  rewrite printf_text_verbatim by reflexivity.
  change (printf_text newline []) with (Some newline).
  cbn [fmap option_fmap option_map].
  unfold spec_plain, spec_precondition. rewrite ?append_assoc. reflexivity.
Qed.

Section NotNull.

Context {wording : Wording}.

(** X5.  For an argument whose text holds no percent sign,
    [require_not_null(argument)] does what [require] does with the
    description [not null], the argument's text in the place of the
    condition's text, and a condition that is false exactly when the
    macro's own test is true, the test being [argument == NULL] read with
    the argument's text put in unparenthesised: nothing when that test is
    false, the documented precondition line and the end of the process
    when it is true. *)
Theorem require_not_null_is_a_require cfg site (test : bool)
    (argument_text : string) (p : Process) :
  percents argument_text = 0%nat →
  require_not_null cfg site test argument_text p
  = require cfg site "not null" (negb test) argument_text p.
Proof.
  intros Htext. unfold require_not_null, require.
  destruct (NO_REQUIRE cfg); [reflexivity|].
  destruct test; cbn [negb]; [|reflexivity].
  unfold bind, fprintf_stderr.
  by rewrite printf_require, printf_require_not_null.
Qed.

End NotNull.

Lemma require_not_null_is_a_require_witness :
  percents "rows[i]" = 0%nat
  ∧ require_not_null (wording := plain_wording) checked here true "rows[i]" quiet
    = require (wording := plain_wording) checked here "not null" false "rows[i]" quiet
  ∧ stderr_of (require_not_null (wording := plain_wording) checked here true
                 "rows[i]" quiet)
    = Some ("myfile.c, line 18: myfunction's precondition " +:+ quote
            +:+ "not null" +:+ quote +:+ " (rows[i]) violated" +:+ newline).
Proof.
  assert (percents "rows[i]" = 0%nat) as Htext by reflexivity.
  split; [exact Htext|].
  pose proof (require_not_null_is_a_require (wording := plain_wording)
                checked here true "rows[i]" quiet Htext) as Hsame.
  split; [exact Hsame|].
  rewrite Hsame. vm_compute. reflexivity.
Defined.

(** ** Invocations with any arguments *)

Lemma passes_hide table hide t : passes table [] t → passes table hide t.
Proof.
  destruct t as [x|s|s|s|a]; cbn; try done.
  intros [Hx|Hx]; [by apply elem_of_nil in Hx | by right].
Qed.

Lemma converges_macro_free table hide (a : list token) :
  macro_free table a → converges table hide a (Done a).
Proof.
  intros Ha. rewrite <- (app_nil_r a) at 1.
  rewrite <- (app_nil_r a) at 2.
  apply converges_pass_all; [|apply converges_nil].
  eapply Forall_impl; [exact Ha|]. intros t. apply passes_hide.
Qed.

Lemma macro_free_join table (args : list (list token)) :
  Forall (macro_free table) args → macro_free table (join_args args).
Proof.
  induction 1 as [|a args Ha Hargs IH]; [constructor|].
  destruct args as [|b args]; [exact Ha|].
  change (join_args (a :: b :: args)) with (a ++ Punct "," :: join_args (b :: args)).
  apply Forall_app. split; [exact Ha|]. constructor; [exact I | exact IH].
Qed.

(** Reading one argument leaves the reader where [argument_depth] says. *)
Lemma collect_args_argument (a : list token) :
  ∀ depth depth' current finished rest,
    argument_depth depth a = Some depth' →
    collect_args depth current finished (a ++ rest)
    = collect_args depth' (reverse a ++ current) finished rest.
Proof.
  induction a as [|t a IH]; intros depth depth' current finished rest Ha;
    cbn [argument_depth] in Ha.
  - by injection Ha as ->.
  - cbn [app collect_args]. rewrite (reverse_cons a t), <- (app_assoc (reverse a)).
    cbn [app].
    destruct (is_punct "(" t); [by apply IH|].
    destruct (is_punct ")" t); [destruct depth; [done | by apply IH]|].
    destruct (is_punct "," t && bool_decide (depth = 0%nat)); [done | by apply IH].
Qed.

Lemma argument_depth_raise (a : list token) : ∀ depth depth' (k : nat),
  argument_depth depth a = Some depth' →
  argument_depth (depth + k) a = Some (depth' + k)%nat.
Proof.
  induction a as [|t a IH]; intros depth depth' k Ha; cbn [argument_depth] in *.
  - by injection Ha as ->.
  - destruct (is_punct "(" t); [by apply (IH (S depth))|].
    destruct (is_punct ")" t).
    + destruct depth as [|depth]; [done|]. by apply (IH depth).
    + destruct (is_punct "," t); cbn [andb] in *; [|by apply IH].
      destruct depth as [|depth]; [done|]. cbn. by apply (IH (S depth)).
Qed.

Lemma argument_depth_app (a b : list token) : ∀ depth depth',
  argument_depth depth a = Some depth' →
  argument_depth depth (a ++ b) = argument_depth depth' b.
Proof.
  induction a as [|t a IH]; intros depth depth' Ha; cbn [argument_depth app] in *.
  - by injection Ha as ->.
  - destruct (is_punct "(" t); [by apply IH|].
    destruct (is_punct ")" t); [destruct depth; [done | by apply IH]|].
    destruct (is_punct "," t && bool_decide (depth = 0%nat)); [done | by apply IH].
Qed.

Lemma argument_depth_join (args : list (list token)) (depth : nat) :
  Forall one_argument args →
  argument_depth (S depth) (join_args args) = Some (S depth).
Proof.
  induction 1 as [|a args Ha Hargs IH]; [reflexivity|].
  apply (argument_depth_raise a 0 0 (S depth)) in Ha. cbn [Nat.add] in Ha.
  destruct args as [|b args]; [exact Ha|].
  change (join_args (a :: b :: args)) with (a ++ Punct "," :: join_args (b :: args)).
  rewrite (argument_depth_app _ _ _ _ Ha). exact IH.
Qed.

(** An invocation is one argument of another invocation. *)
Lemma one_argument_invocation (name : string) (args : list (list token)) :
  Forall one_argument args → one_argument (invocation name args).
Proof.
  intros Hargs. unfold one_argument, invocation.
  change (argument_depth 1 (join_args args ++ [Punct ")"]) = Some 0%nat).
  by rewrite (argument_depth_app _ _ _ _ (argument_depth_join args 0 Hargs)).
Qed.

(** The arguments of [name(arg, ..., arg)]. *)
Lemma collect_joined_args_from (args : list (list token)) : ∀ finished after,
  args ≠ [] → Forall one_argument args →
  collect_args 0 [] finished (join_args args ++ Punct ")" :: after)
  = Some (reverse finished ++ args, after).
Proof.
  induction args as [|a args IH]; intros finished after Hne Hargs; [done|].
  apply Forall_cons in Hargs as [Ha Hargs].
  destruct args as [|b args].
  - cbn [join_args]. rewrite (collect_args_argument a 0 0) by exact Ha.
    change (collect_args 0 (reverse a ++ []) finished (Punct ")" :: after))
      with (Some (reverse (reverse (reverse a ++ []) :: finished), after)).
    by rewrite app_nil_r, reverse_involutive, reverse_cons.
  - change (join_args (a :: b :: args)) with (a ++ Punct "," :: join_args (b :: args)).
    rewrite <- app_assoc, <- app_comm_cons.
    rewrite (collect_args_argument a 0 0) by exact Ha.
    change (collect_args 0 (reverse a ++ []) finished
              (Punct "," :: join_args (b :: args) ++ Punct ")" :: after))
      with (collect_args 0 [] (reverse (reverse a ++ []) :: finished)
              (join_args (b :: args) ++ Punct ")" :: after)).
    rewrite IH by done.
    by rewrite app_nil_r, reverse_involutive, reverse_cons, <- app_assoc.
Qed.

Lemma collect_joined_args (args : list (list token)) (after : list token) :
  args ≠ [] → Forall one_argument args →
  collect_args 0 [] [] (join_args args ++ Punct ")" :: after) = Some (args, after).
Proof. intros Hne Hargs. by rewrite collect_joined_args_from. Qed.

Lemma converges_arguments table hide (args : list (list token)) :
  Forall (macro_free table) args →
  Forall2 (fun a a' => converges table hide a (Done a')) args args.
Proof.
  intros Hargs. apply Forall_Forall2_diag.
  eapply Forall_impl; [exact Hargs|]. intros a. apply converges_macro_free.
Qed.

(** The invocation of a function-like macro with arguments that hold no
    macro name. *)
Lemma converges_call table x m ps (args : list (list token)) raw body :
  table !! x = Some m → parameters m = Some ps →
  args ≠ [] → Forall one_argument args → Forall (macro_free table) args →
  bind_args ps (variadic m) args = Some raw →
  converges table [x] (substitute raw raw (replacement m)) (Done body) →
  converges table [] (invocation x args) (Done body).
Proof.
  intros Hm Hps Hne Hone Hfree Hraw Hbody. unfold invocation.
  eapply converges_eq.
  - eapply converges_invocation with (args := args) (args' := args) (after := []);
      [apply not_elem_of_nil | exact Hm | exact Hps
      | by apply collect_joined_args | by apply converges_arguments
      | exact Hraw | exact Hraw | exact Hbody | apply converges_nil].
  - apply app_nil_r.
Qed.

(** The same, followed by more tokens. *)
Lemma converges_call_then table x m ps (args : list (list token)) raw body after out :
  table !! x = Some m → parameters m = Some ps →
  args ≠ [] → Forall one_argument args → Forall (macro_free table) args →
  bind_args ps (variadic m) args = Some raw →
  converges table [x] (substitute raw raw (replacement m)) (Done body) →
  converges table [] after (Done out) →
  converges table [] (invocation x args ++ after) (Done (body ++ out)).
Proof.
  intros Hm Hps Hne Hone Hfree Hraw Hbody Hafter. unfold invocation.
  cbn [app]. rewrite <- app_assoc. cbn [app].
  eapply converges_invocation with (args := args) (args' := args);
    [apply not_elem_of_nil | exact Hm | exact Hps
    | by apply collect_joined_args | by apply converges_arguments
    | exact Hraw | exact Hraw | exact Hbody | exact Hafter].
Qed.

(** An invocation whose arguments do not fit the parameters. *)
Lemma malformed_call table x m ps (args : list (list token)) :
  table !! x = Some m → parameters m = Some ps →
  args ≠ [] → Forall one_argument args → Forall (macro_free table) args →
  bind_args ps (variadic m) args = None →
  converges table [] (invocation x args) Malformed.
Proof.
  intros Hm Hps Hne Hone Hfree Hbind.
  destruct (for_each_converges table [] args args (converges_arguments _ _ _ Hfree))
    as [fuel Hfor].
  exists (S fuel). intros [|fuel'] Hle; [lia|]. unfold invocation. cbn [expand].
  rewrite bool_decide_eq_false_2, Hm, Hps by apply not_elem_of_nil.
  cbn [after_open_paren is_punct]. rewrite String.eqb_refl.
  rewrite collect_joined_args by done.
  rewrite Hfor by lia. cbn [and_then]. by rewrite Hbind.
Qed.

(** ** The header's macros at a client's use *)

Lemma converges_app_assoc table hide (a b rest : list token) r :
  converges table hide (a ++ b ++ rest) r →
  converges table hide ((a ++ b) ++ rest) r.
Proof. by rewrite app_assoc. Qed.

Ltac walk_free :=
  repeat first
    [ apply converges_nil
    | replace_exit
    | pass_token
    | apply converges_pass_all;
      [eapply Forall_impl; [eassumption | intros ?; apply passes_hide]|]
    | apply converges_app_assoc ].

Ltac same_tokens :=
  rewrite ?app_nil_r; cbn [join_args app];
  repeat (rewrite <- app_assoc; cbn [app]);
  reflexivity.

Ltac replace_call_then finish :=
  eapply converges_eq;
  [ eapply converges_call;
    [ reflexivity
    | reflexivity
    | discriminate
    | repeat constructor; assumption
    | repeat constructor; assumption
    | reflexivity
    | cbn [replacement function_like variadic_function_like];
      match goal with |- converges _ _ ?ts _ =>
        let ts' := eval vm_compute in ts in change ts with ts' end;
      walk_free ]
  | finish ].

Ltac replace_call := replace_call_then ltac:(reflexivity).

Lemma disabled cfg (k : Contract) :
  ¬ enabled cfg k →
  match k with
  | Assert | AssertX => NO_ASSERT cfg = true
  | Require | RequireX => NO_REQUIRE cfg = true
  | Ensure | EnsureX => NO_ENSURE cfg = true
  end.
Proof. destruct k; cbn; apply not_false_is_true. Qed.

Section DisabledChecks.

Context {wording : Wording}.

(** X6.  With [NO_ASSERT], [NO_REQUIRE] or [NO_ENSURE] defined, a check of
    that kind with two arguments is replaced by no token at all, so its
    condition is not evaluated, and it has no effect whatever the condition
    is.  The same holds for [require_not_null] under [NO_REQUIRE]. *)
Theorem disabled_checks_leave_nothing cfg :
  (∀ (k : Contract) (d c : list token),
     ¬ enabled cfg k →
     one_argument d → one_argument c →
     macro_free (macros (base_h cfg)) d → macro_free (macros (base_h cfg)) c →
     converges (macros (base_h cfg)) [] (invocation (macro_name k) [d; c]) (Done [])
     ∧ ∀ site description condition text p,
         check k cfg site description condition text p = Returns tt p)
  ∧ (∀ a : list token,
       NO_REQUIRE cfg = true →
       one_argument a → macro_free (macros (base_h cfg)) a →
       converges (macros (base_h cfg)) [] (invocation "require_not_null" [a]) (Done [])
       ∧ ∀ site argument text p,
           require_not_null cfg site argument text p = Returns tt p).
Proof.
  split.
  - intros k d c Hk Hd Hc Fd Fc. apply disabled in Hk. split.
    + destruct cfg as [na nr ne nt]. unfold macro_free in *.
      destruct k; cbn in Hk; subst; replace_call.
    + intros site description condition text p.
      destruct k; cbn [check];
        unfold assert, assert_x, require, require_x, ensure, ensure_x;
        by rewrite Hk.
  - intros a Hk Ha Fa. split.
    + destruct cfg as [na nr ne nt]. unfold macro_free in *.
      cbn in Hk; subst; replace_call.
    + intros site argument text p. unfold require_not_null. by rewrite Hk.
Qed.

End DisabledChecks.

Lemma bind_two_parameters (p q : string) (args : list (list token)) :
  (2 < length args)%nat → bind_args [p; q] false args = None.
Proof.
  intros Hlen. unfold bind_args.
  rewrite bool_decide_eq_false_2 by (cbn [length]; lia). reflexivity.
Qed.

(** X7.  With [NO_ASSERT], [NO_REQUIRE] or [NO_ENSURE] defined, the [_x]
    check of that kind is defined with two parameters and no [...]: an
    invocation that passes a detail message, as every use of an enabled
    [_x] check does, is malformed. *)
Theorem disabled_formatted_checks_reject_the_detail cfg (k : Contract)
    (args : list (list token)) :
  formatted k = true → ¬ enabled cfg k → (2 < length args)%nat →
  Forall one_argument args → Forall (macro_free (macros (base_h cfg))) args →
  converges (macros (base_h cfg)) [] (invocation (macro_name k) args) Malformed.
Proof.
  intros Hf Hk Hlen Hone Hfree. apply disabled in Hk.
  assert (args ≠ []) as Hne by (intros ->; cbn in Hlen; lia).
  destruct cfg as [na nr ne nt].
  destruct k; try discriminate Hf; cbn in Hk; subst;
    (eapply malformed_call;
     [reflexivity | reflexivity | exact Hne | exact Hone | exact Hfree
     | by apply bind_two_parameters]).
Qed.

Ltac replace_call_and_go_on :=
  eapply converges_call_then;
  [ reflexivity
  | reflexivity
  | discriminate
  | repeat constructor; assumption
  | repeat constructor; assumption
  | reflexivity
  | cbn [replacement function_like variadic_function_like];
    match goal with |- converges _ _ ?ts _ =>
      let ts' := eval vm_compute in ts in change ts with ts' end;
    walk_free
  | ].

(** X8.  [ensure_code] goes with [ensure], as in the header's example
    [ensure_code(int old_x = x); ... ensure(...);]: the code of
    [ensure_code] and the check of a later [ensure] are both kept, or with
    [NO_ENSURE] defined both dropped, so that the check never reads what
    [ensure_code] did not declare. *)
Theorem ensure_code_goes_with_ensure cfg (x between d c : list token) :
  one_argument x → one_argument d → one_argument c →
  macro_free (macros (base_h cfg)) x → macro_free (macros (base_h cfg)) between →
  macro_free (macros (base_h cfg)) d → macro_free (macros (base_h cfg)) c →
  converges (macros (base_h cfg)) []
    (invocation "ensure_code" [x] ++ Punct ";" :: between
     ++ invocation "ensure" [d; c] ++ [Punct ";"])
    (Done (if NO_ENSURE cfg then Punct ";" :: between ++ [Punct ";"]
           else x ++ Punct ";" :: between
                ++ lex "if (!(" ++ c ++ lex ")) { fprintf(stderr, "
                ++ [Str ensure_format]
                ++ lex ", __FILE__, __LINE__, __func__, " ++ d
                ++ [Punct ","; Stringified c]
                ++ lex "); base_exit(EXIT_FAILURE); };")).
Proof.
  intros Hx Hd Hc Fx Fb Fd Fc. destruct cfg as [na nr ne nt].
  unfold macro_free in *.
  destruct ne; cbn [NO_ENSURE];
    (eapply converges_eq;
     [ replace_call_and_go_on;
       pass_token;
       apply converges_pass_all;
         [eapply Forall_impl; [exact Fb | intros ?; apply passes_hide]|];
       replace_call_and_go_on;
       pass_token; apply converges_nil
     | same_tokens ]).
Qed.

(** X9.  [time_function(f)] is replaced by a block that runs [f] once
    between two readings of the clock and prints the difference.  With
    [NO_TIMING] defined it is replaced by a lone semicolon: [f] itself is
    not run. *)
Theorem time_function_replaced cfg (f : list token) :
  one_argument f → macro_free (macros (base_h cfg)) f →
  converges (macros (base_h cfg)) [] (invocation "time_function" [f])
    (Done (if NO_TIMING cfg then [Punct ";"]
           else lex "{ clock_t t = clock(); " ++ f
                ++ lex "; t = clock() - t; printf("
                ++ [Str ("time: %g ms" +:+ newline)]
                ++ lex ", t * 1000.0 / CLOCKS_PER_SEC); }")).
Proof.
  intros Hf Ff. destruct cfg as [na nr ne nt]. unfold macro_free in *.
  destruct nt; cbn [NO_TIMING]; replace_call.
Qed.

Ltac split_arguments :=
  repeat match goal with
         | H : Forall _ (_ :: _) |- _ => apply Forall_cons in H as [? H]
         end.

Lemma declared (x : string) :
  bool_decide (x ∈ base_h_prototypes) = true → x ∈ base_h_prototypes.
Proof. apply bool_decide_eq_true_1. Qed.

Lemma not_declared (x : string) :
  bool_decide (x ∈ base_h_prototypes) = false → x ∉ base_h_prototypes.
Proof. apply bool_decide_eq_false_1. Qed.

(** X10.  Each test macro forwards its arguments, after [__FILE__] and
    [__LINE__], to one function.  For all but one that function is declared
    in the header; [test_equal_boa] forwards to [base_test_equal_ba], a
    name that the header does not declare. *)
Theorem test_macros_forward cfg (name target : string) (arity : nat)
    (args : list (list token)) :
  (name, target, arity)
    ∈ [("test_equal_b", "base_test_equal_b", 2%nat);
       ("test_equal_i", "base_test_equal_i", 2%nat);
       ("test_within_d", "base_test_within_d", 3%nat);
       ("test_within_i", "base_test_within_i", 3%nat);
       ("test_equal_c", "base_test_equal_c", 2%nat);
       ("test_equal_s", "base_test_equal_s", 2%nat);
       ("test_equal_ca", "base_test_equal_ca", 3%nat);
       ("test_equal_boa", "base_test_equal_ba", 3%nat);
       ("test_equal_struct", "base_test_equal_struct", 3%nat)] →
  length args = arity →
  Forall one_argument args → Forall (macro_free (macros (base_h cfg))) args →
  converges (macros (base_h cfg)) [] (invocation name args)
    (Done (Id target :: lex "(__FILE__, __LINE__, " ++ join_args args ++ [Punct ")"]))
  ∧ (target ∈ base_h_prototypes ↔ name ≠ "test_equal_boa").
Proof.
  intros Hin Hlen Hone Hfree. destruct cfg as [na nr ne nt].
  unfold macro_free in *.
  repeat (apply elem_of_cons in Hin as [Hin|Hin];
          [injection Hin as -> -> ->;
           destruct args as [|a [|e [|x [|y args]]]]; try discriminate Hlen;
           split_arguments;
           (split;
            [ replace_call_then ltac:(same_tokens)
            | first
                [ split; [intros _; discriminate|];
                  intros _; apply declared; vm_compute; reflexivity
                | split; [|congruence];
                  intros Hdecl; exfalso; revert Hdecl;
                  apply not_declared; vm_compute; reflexivity ] ])
          |]).
  by apply elem_of_nil in Hin.
Qed.

Ltac replace_check_around d inner :=
  unfold invocation at 1;
  eapply converges_eq;
  [ eapply converges_invocation with (args := [d; inner]) (after := []);
    [ apply not_elem_of_nil
    | reflexivity
    | reflexivity
    | apply (collect_joined_args [d; inner] []);
      [ discriminate
      | repeat constructor; try assumption;
        apply one_argument_invocation; repeat constructor; assumption ]
    | constructor;
      [ by apply converges_macro_free
      | constructor; [replace_call | constructor] ]
    | reflexivity
    | reflexivity
    | cbn [replacement function_like];
      match goal with |- converges _ _ ?ts _ =>
        let ts' := eval vm_compute in ts in change ts with ts' end;
      walk_free
    | apply converges_nil ]
  | same_tokens ].

(** X11.  A quantifier as the condition of a check, as in the header's
    examples: the test is made on the loop that [forall] stands for, and
    the diagnostic shows the condition as the client wrote it, the
    invocation of [forall] itself. *)
Theorem quantifier_as_a_condition cfg (d i h s c : list token) :
  one_argument d → one_argument i → one_argument h → one_argument s →
  one_argument c →
  macro_free (macros (base_h cfg)) d → macro_free (macros (base_h cfg)) i →
  macro_free (macros (base_h cfg)) h → macro_free (macros (base_h cfg)) s →
  macro_free (macros (base_h cfg)) c →
  let loop :=
    lex "({ bool result = true; for (" ++ i ++ lex ";" ++ h ++ lex ";" ++ s
    ++ lex ") { if (!(" ++ c ++ lex ")) { result = false; break; } } result; })" in
  let written := Stringified (invocation "forall" [i; h; s; c]) in
  (NO_ASSERT cfg = false →
   converges (macros (base_h cfg)) []
     (invocation "assert" [d; invocation "forall" [i; h; s; c]])
     (Done (lex "if (!(" ++ loop ++ lex ")) { fprintf(stderr, " ++ [Str assert_format]
            ++ lex ", __FILE__, __LINE__, " ++ d ++ [Punct ","; written]
            ++ lex "); base_exit(EXIT_FAILURE); }")))
  ∧ (NO_REQUIRE cfg = false →
     converges (macros (base_h cfg)) []
       (invocation "require" [d; invocation "forall" [i; h; s; c]])
       (Done (lex "if (!(" ++ loop ++ lex ")) { fprintf(stderr, " ++ [Str require_format]
              ++ lex ", __FILE__, __LINE__, __func__, " ++ d ++ [Punct ","; written]
              ++ lex "); base_exit(EXIT_FAILURE); }")))
  ∧ (NO_ENSURE cfg = false →
     converges (macros (base_h cfg)) []
       (invocation "ensure" [d; invocation "forall" [i; h; s; c]])
       (Done (lex "if (!(" ++ loop ++ lex ")) { fprintf(stderr, " ++ [Str ensure_format]
              ++ lex ", __FILE__, __LINE__, __func__, " ++ d ++ [Punct ","; written]
              ++ lex "); base_exit(EXIT_FAILURE); }"))).
Proof.
  intros Hd Hi Hh Hs Hc Fd Fi Fh Fs Fc loop written. subst loop written.
  destruct cfg as [na nr ne nt]. unfold macro_free in *.
  split; [|split]; intros E; cbn in E; subst;
    replace_check_around d (invocation "forall" [i; h; s; c]).
Qed.

(** X12.  An enabled [_x] check hands its detail arguments, commas
    included, to one call of [fprintf] between the call that prints the
    head of the line and the one that prints the line feed; its condition
    is tested and not printed. *)
Theorem formatted_checks_pass_the_detail_on cfg (d c : list token)
    (detail : list (list token)) :
  detail ≠ [] →
  one_argument d → one_argument c → Forall one_argument detail →
  macro_free (macros (base_h cfg)) d → macro_free (macros (base_h cfg)) c →
  Forall (macro_free (macros (base_h cfg))) detail →
  (NO_ASSERT cfg = false →
   converges (macros (base_h cfg)) [] (invocation "assert_x" (d :: c :: detail))
     (Done (lex "if (!(" ++ c ++ lex ")) { fprintf(stderr, " ++ [Str assert_x_format]
            ++ lex ", __FILE__, __LINE__, " ++ d
            ++ lex "); fprintf(stderr, " ++ join_args detail
            ++ lex "); fprintf(stderr, " ++ [Str newline]
            ++ lex "); base_exit(EXIT_FAILURE); }")))
  ∧ (NO_REQUIRE cfg = false →
     converges (macros (base_h cfg)) [] (invocation "require_x" (d :: c :: detail))
       (Done (lex "if (!(" ++ c ++ lex ")) { fprintf(stderr, " ++ [Str require_x_format]
              ++ lex ", __FILE__, __LINE__, __func__, " ++ d
              ++ lex "); fprintf(stderr, " ++ join_args detail
              ++ lex "); fprintf(stderr, " ++ [Str newline]
              ++ lex "); base_exit(EXIT_FAILURE); }")))
  ∧ (NO_ENSURE cfg = false →
     converges (macros (base_h cfg)) [] (invocation "ensure_x" (d :: c :: detail))
       (Done (lex "if (!(" ++ c ++ lex ")) { fprintf(stderr, " ++ [Str ensure_x_format]
              ++ lex ", __FILE__, __LINE__, __func__, " ++ d
              ++ lex "); fprintf(stderr, " ++ join_args detail
              ++ lex "); fprintf(stderr, " ++ [Str newline]
              ++ lex "); base_exit(EXIT_FAILURE); }"))).
Proof.
  intros Hne Hd Hc Hdetail Fd Fc Fdetail.
  pose proof (macro_free_join _ _ Fdetail) as Fjoined.
  destruct cfg as [na nr ne nt]. unfold macro_free in *.
  split; [|split]; intros E; cbn in E; subst; replace_call.
Qed.

(** *** At the uses of the header's examples *)

Ltac show_tokens H tokens :=
  cbv zeta in H;
  match type of H with
  | converges _ _ _ (Done ?out) =>
      replace out with tokens in H by (vm_compute; reflexivity)
  end;
  exact H.

Ltac no_macro_name :=
  unfold macro_free;
  match goal with
  | |- Forall _ ?ts =>
      let ts' := eval vm_compute in ts in
      replace ts with ts' by (vm_compute; reflexivity)
  end;
  repeat (constructor; [first [exact I | right; vm_compute; reflexivity]|]);
  constructor.

Ltac is_one_argument := vm_compute; reflexivity.

Lemma disabled_checks_leave_nothing_witness :
  (¬ enabled unchecked Require
   ∧ one_argument [Str "sorted"] ∧ one_argument (lex "is_sorted(a, n)")
   ∧ macro_free (macros (base_h unchecked)) [Str "sorted"]
   ∧ macro_free (macros (base_h unchecked)) (lex "is_sorted(a, n)"))
  ∧ converges (macros (base_h unchecked)) []
      (invocation "require" [[Str "sorted"]; lex "is_sorted(a, n)"]) (Done [])
  ∧ require (wording := plain_wording) unchecked here "sorted" false
      "is_sorted(a, n)" quiet
    = Returns tt quiet.
Proof.
  assert (¬ enabled unchecked Require) as Hk by (cbn; discriminate).
  assert (one_argument [Str "sorted"]) as Hd by is_one_argument.
  assert (one_argument (lex "is_sorted(a, n)")) as Hc by is_one_argument.
  assert (macro_free (macros (base_h unchecked)) [Str "sorted"]) as Fd
    by no_macro_name.
  assert (macro_free (macros (base_h unchecked)) (lex "is_sorted(a, n)")) as Fc
    by no_macro_name.
  split; [by repeat (split; [assumption|])|].
  destruct (proj1 (@disabled_checks_leave_nothing plain_wording unchecked)
              Require _ _ Hk Hd Hc Fd Fc) as [Hnone Hreturns].
  split; [exact Hnone|].
  exact (Hreturns here "sorted" false "is_sorted(a, n)" quiet).
Defined.

Lemma disabled_formatted_checks_reject_the_detail_witness :
  (formatted RequireX = true ∧ ¬ enabled unchecked RequireX
   ∧ (2 < length [[Str "sorted"]; lex "is_sorted(a, n)"; [Str "n = %d"]; lex "n"])%nat
   ∧ Forall one_argument
       [[Str "sorted"]; lex "is_sorted(a, n)"; [Str "n = %d"]; lex "n"]
   ∧ Forall (macro_free (macros (base_h unchecked)))
       [[Str "sorted"]; lex "is_sorted(a, n)"; [Str "n = %d"]; lex "n"])
  ∧ converges (macros (base_h unchecked)) []
      (invocation "require_x"
         [[Str "sorted"]; lex "is_sorted(a, n)"; [Str "n = %d"]; lex "n"])
      Malformed.
Proof.
  assert (¬ enabled unchecked RequireX) as Hk by (cbn; discriminate).
  assert (2 < length [[Str "sorted"]; lex "is_sorted(a, n)"; [Str "n = %d"]; lex "n"])%nat
    as Hlen by (cbn; lia).
  assert (Forall one_argument
            [[Str "sorted"]; lex "is_sorted(a, n)"; [Str "n = %d"]; lex "n"])
    as Hone by (repeat (constructor; [is_one_argument|]); constructor).
  assert (Forall (macro_free (macros (base_h unchecked)))
            [[Str "sorted"]; lex "is_sorted(a, n)"; [Str "n = %d"]; lex "n"])
    as Hfree by (repeat (constructor; [no_macro_name|]); constructor).
  split; [exact (conj eq_refl (conj Hk (conj Hlen (conj Hone Hfree))))|].
  exact (disabled_formatted_checks_reject_the_detail unchecked RequireX _
           eq_refl Hk Hlen Hone Hfree).
Defined.

Lemma ensure_code_goes_with_ensure_witness :
  (one_argument (lex "int old_x = x") ∧ one_argument [Str "incremented"]
   ∧ one_argument (lex "x == old_x + 1")
   ∧ macro_free (macros (base_h checked)) (lex "int old_x = x")
   ∧ macro_free (macros (base_h checked)) (lex "x = x + 1;")
   ∧ macro_free (macros (base_h checked)) [Str "incremented"]
   ∧ macro_free (macros (base_h checked)) (lex "x == old_x + 1")
   ∧ macro_free (macros (base_h unchecked)) (lex "int old_x = x")
   ∧ macro_free (macros (base_h unchecked)) (lex "x = x + 1;")
   ∧ macro_free (macros (base_h unchecked)) [Str "incremented"]
   ∧ macro_free (macros (base_h unchecked)) (lex "x == old_x + 1"))
  ∧ converges (macros (base_h checked)) []
      (invocation "ensure_code" [lex "int old_x = x"] ++ Punct ";" :: lex "x = x + 1;"
       ++ invocation "ensure" [[Str "incremented"]; lex "x == old_x + 1"]
       ++ [Punct ";"])
      (Done (lex "int old_x = x; x = x + 1; if (!(x == old_x + 1)) { fprintf(stderr, "
             ++ [Str ensure_format]
             ++ lex ", __FILE__, __LINE__, __func__, "
             ++ [Str "incremented"; Punct ","; Stringified (lex "x == old_x + 1")]
             ++ lex "); base_exit(EXIT_FAILURE); };"))
  ∧ converges (macros (base_h unchecked)) []
      (invocation "ensure_code" [lex "int old_x = x"] ++ Punct ";" :: lex "x = x + 1;"
       ++ invocation "ensure" [[Str "incremented"]; lex "x == old_x + 1"]
       ++ [Punct ";"])
      (Done (lex "; x = x + 1; ;")).
Proof.
  assert (one_argument (lex "int old_x = x")) as Hx by is_one_argument.
  assert (one_argument [Str "incremented"]) as Hd by is_one_argument.
  assert (one_argument (lex "x == old_x + 1")) as Hc by is_one_argument.
  assert (macro_free (macros (base_h checked)) (lex "int old_x = x")) as Fx
    by no_macro_name.
  assert (macro_free (macros (base_h checked)) (lex "x = x + 1;")) as Fb
    by no_macro_name.
  assert (macro_free (macros (base_h checked)) [Str "incremented"]) as Fd
    by no_macro_name.
  assert (macro_free (macros (base_h checked)) (lex "x == old_x + 1")) as Fc
    by no_macro_name.
  assert (macro_free (macros (base_h unchecked)) (lex "int old_x = x")) as Fx'
    by no_macro_name.
  assert (macro_free (macros (base_h unchecked)) (lex "x = x + 1;")) as Fb'
    by no_macro_name.
  assert (macro_free (macros (base_h unchecked)) [Str "incremented"]) as Fd'
    by no_macro_name.
  assert (macro_free (macros (base_h unchecked)) (lex "x == old_x + 1")) as Fc'
    by no_macro_name.
  split; [by repeat (split; [assumption|])|].
  pose proof (ensure_code_goes_with_ensure checked _ _ _ _ Hx Hd Hc Fx Fb Fd Fc)
    as Hkept.
  pose proof (ensure_code_goes_with_ensure unchecked _ _ _ _ Hx Hd Hc Fx' Fb' Fd' Fc')
    as Hdropped.
  split.
  - show_tokens Hkept
      (lex "int old_x = x; x = x + 1; if (!(x == old_x + 1)) { fprintf(stderr, "
       ++ [Str ensure_format]
       ++ lex ", __FILE__, __LINE__, __func__, "
       ++ [Str "incremented"; Punct ","; Stringified (lex "x == old_x + 1")]
       ++ lex "); base_exit(EXIT_FAILURE); };").
  - show_tokens Hdropped (lex "; x = x + 1; ;").
Defined.

Lemma time_function_replaced_witness :
  (one_argument (lex "sort(a, n)")
   ∧ macro_free (macros (base_h checked)) (lex "sort(a, n)")
   ∧ macro_free (macros (base_h unchecked)) (lex "sort(a, n)"))
  ∧ converges (macros (base_h checked)) []
      (invocation "time_function" [lex "sort(a, n)"])
      (Done (lex "{ clock_t t = clock(); sort(a, n); t = clock() - t; printf("
             ++ [Str ("time: %g ms" +:+ newline)]
             ++ lex ", t * 1000.0 / CLOCKS_PER_SEC); }"))
  ∧ converges (macros (base_h unchecked)) []
      (invocation "time_function" [lex "sort(a, n)"]) (Done [Punct ";"]).
Proof.
  assert (one_argument (lex "sort(a, n)")) as Hf by is_one_argument.
  assert (macro_free (macros (base_h checked)) (lex "sort(a, n)")) as Ff
    by no_macro_name.
  assert (macro_free (macros (base_h unchecked)) (lex "sort(a, n)")) as Ff'
    by no_macro_name.
  split; [exact (conj Hf (conj Ff Ff'))|].
  pose proof (time_function_replaced checked _ Hf Ff) as Htimed.
  pose proof (time_function_replaced unchecked _ Hf Ff') as Hdropped.
  split.
  - show_tokens Htimed
      (lex "{ clock_t t = clock(); sort(a, n); t = clock() - t; printf("
       ++ [Str ("time: %g ms" +:+ newline)]
       ++ lex ", t * 1000.0 / CLOCKS_PER_SEC); }").
  - show_tokens Hdropped [Punct ";"].
Defined.

Lemma test_macros_forward_witness :
  (length [lex "a"; lex "expected"; lex "3"] = 3%nat
   ∧ Forall one_argument [lex "a"; lex "expected"; lex "3"]
   ∧ Forall (macro_free (macros (base_h checked))) [lex "a"; lex "expected"; lex "3"])
  ∧ converges (macros (base_h checked)) []
      (invocation "test_equal_boa" [lex "a"; lex "expected"; lex "3"])
      (Done (lex "base_test_equal_ba(__FILE__, __LINE__, a, expected, 3)"))
  ∧ ("base_test_equal_ba" ∉ base_h_prototypes)
  ∧ converges (macros (base_h checked)) []
      (invocation "test_equal_ca" [lex "a"; lex "expected"; lex "3"])
      (Done (lex "base_test_equal_ca(__FILE__, __LINE__, a, expected, 3)"))
  ∧ ("base_test_equal_ca" ∈ base_h_prototypes).
Proof.
  assert (Forall one_argument [lex "a"; lex "expected"; lex "3"]) as Hone
    by (repeat (constructor; [is_one_argument|]); constructor).
  assert (Forall (macro_free (macros (base_h checked)))
            [lex "a"; lex "expected"; lex "3"]) as Hfree
    by (repeat (constructor; [no_macro_name|]); constructor).
  split; [exact (conj eq_refl (conj Hone Hfree))|].
  destruct (test_macros_forward checked "test_equal_boa" "base_test_equal_ba" 3
              [lex "a"; lex "expected"; lex "3"]) as [Hboa Hba];
    [do 7 apply list_elem_of_further; apply list_elem_of_here
    | reflexivity | exact Hone | exact Hfree |].
  destruct (test_macros_forward checked "test_equal_ca" "base_test_equal_ca" 3
              [lex "a"; lex "expected"; lex "3"]) as [Hca Hdecl];
    [do 6 apply list_elem_of_further; apply list_elem_of_here
    | reflexivity | exact Hone | exact Hfree |].
  split; [eapply converges_eq; [exact Hboa | vm_compute; reflexivity]|].
  split; [intros Hin; by apply Hba in Hin|].
  split; [eapply converges_eq; [exact Hca | vm_compute; reflexivity]|].
  apply Hdecl. discriminate.
Defined.

Lemma quantifier_as_a_condition_witness :
  (one_argument [Str "sorted"] ∧ one_argument (lex "int i = 0")
   ∧ one_argument (lex "i < n-1") ∧ one_argument (lex "i++")
   ∧ one_argument (lex "a[i] <= a[i+1]")
   ∧ macro_free (macros (base_h checked)) [Str "sorted"]
   ∧ macro_free (macros (base_h checked)) (lex "int i = 0")
   ∧ macro_free (macros (base_h checked)) (lex "i < n-1")
   ∧ macro_free (macros (base_h checked)) (lex "i++")
   ∧ macro_free (macros (base_h checked)) (lex "a[i] <= a[i+1]")
   ∧ NO_ASSERT checked = false)
  ∧ converges (macros (base_h checked)) []
      (invocation "assert"
         [[Str "sorted"];
          invocation "forall"
            [lex "int i = 0"; lex "i < n-1"; lex "i++"; lex "a[i] <= a[i+1]"]])
      (Done (lex "if (!(({ bool result = true; for (int i = 0; i < n-1; i++) { if (!(a[i] <= a[i+1])) { result = false; break; } } result; }))) { fprintf(stderr, "
             ++ [Str assert_format] ++ lex ", __FILE__, __LINE__, "
             ++ [Str "sorted"; Punct ",";
                 Stringified (lex "forall(int i = 0, i < n-1, i++, a[i] <= a[i+1])")]
             ++ lex "); base_exit(EXIT_FAILURE); }")).
Proof.
  assert (one_argument [Str "sorted"]) as Hd by is_one_argument.
  assert (one_argument (lex "int i = 0")) as Hi by is_one_argument.
  assert (one_argument (lex "i < n-1")) as Hh by is_one_argument.
  assert (one_argument (lex "i++")) as Hs by is_one_argument.
  assert (one_argument (lex "a[i] <= a[i+1]")) as Hc by is_one_argument.
  assert (macro_free (macros (base_h checked)) [Str "sorted"]) as Fd
    by no_macro_name.
  assert (macro_free (macros (base_h checked)) (lex "int i = 0")) as Fi
    by no_macro_name.
  assert (macro_free (macros (base_h checked)) (lex "i < n-1")) as Fh
    by no_macro_name.
  assert (macro_free (macros (base_h checked)) (lex "i++")) as Fs
    by no_macro_name.
  assert (macro_free (macros (base_h checked)) (lex "a[i] <= a[i+1]")) as Fc
    by no_macro_name.
  split; [by repeat (split; [assumption|])|].
  pose proof (proj1 (quantifier_as_a_condition checked _ _ _ _ _
                       Hd Hi Hh Hs Hc Fd Fi Fh Fs Fc) eq_refl) as Hcheck.
  show_tokens Hcheck
    (lex "if (!(({ bool result = true; for (int i = 0; i < n-1; i++) { if (!(a[i] <= a[i+1])) { result = false; break; } } result; }))) { fprintf(stderr, "
     ++ [Str assert_format] ++ lex ", __FILE__, __LINE__, "
     ++ [Str "sorted"; Punct ",";
         Stringified (lex "forall(int i = 0, i < n-1, i++, a[i] <= a[i+1])")]
     ++ lex "); base_exit(EXIT_FAILURE); }").
Defined.

Lemma formatted_checks_pass_the_detail_on_witness :
  ([[Str "n = %d"]; lex "n"] ≠ []
   ∧ one_argument [Str "sorted"] ∧ one_argument (lex "is_sorted(a, n)")
   ∧ Forall one_argument [[Str "n = %d"]; lex "n"]
   ∧ macro_free (macros (base_h checked)) [Str "sorted"]
   ∧ macro_free (macros (base_h checked)) (lex "is_sorted(a, n)")
   ∧ Forall (macro_free (macros (base_h checked))) [[Str "n = %d"]; lex "n"]
   ∧ NO_REQUIRE checked = false)
  ∧ converges (macros (base_h checked)) []
      (invocation "require_x"
         [[Str "sorted"]; lex "is_sorted(a, n)"; [Str "n = %d"]; lex "n"])
      (Done (lex "if (!(is_sorted(a, n))) { fprintf(stderr, "
             ++ [Str require_x_format]
             ++ lex ", __FILE__, __LINE__, __func__, " ++ [Str "sorted"]
             ++ lex "); fprintf(stderr, " ++ [Str "n = %d"] ++ lex ", n); fprintf(stderr, "
             ++ [Str newline] ++ lex "); base_exit(EXIT_FAILURE); }")).
Proof.
  assert ([[Str "n = %d"]; lex "n"] ≠ []) as Hne by discriminate.
  assert (one_argument [Str "sorted"]) as Hd by is_one_argument.
  assert (one_argument (lex "is_sorted(a, n)")) as Hc by is_one_argument.
  assert (Forall one_argument [[Str "n = %d"]; lex "n"]) as Hdetail
    by (repeat (constructor; [is_one_argument|]); constructor).
  assert (macro_free (macros (base_h checked)) [Str "sorted"]) as Fd
    by no_macro_name.
  assert (macro_free (macros (base_h checked)) (lex "is_sorted(a, n)")) as Fc
    by no_macro_name.
  assert (Forall (macro_free (macros (base_h checked))) [[Str "n = %d"]; lex "n"])
    as Fdetail by (repeat (constructor; [no_macro_name|]); constructor).
  split; [by repeat (split; [assumption|])|].
  eapply converges_eq;
    [exact (proj1 (proj2 (formatted_checks_pass_the_detail_on checked _ _ _
                            Hne Hd Hc Hdetail Fd Fc Fdetail)) eq_refl)|].
  vm_compute. reflexivity.
Defined.
